(** * Offset-aware bitmap kernels of [arrow/util/bitmap_ops.cc]

    A shallow embedding of the kernels [CountSetBits], [TransferBitmap]
    (behind [CopyBitmap] and [InvertBitmap]), [BitmapEquals] and the
    binary combinators [BitmapAnd], [BitmapOr], [BitmapXor], followed by
    the properties the specification states about them.

    Conventions of the embedding.
    - A [const uint8_t*] / [uint8_t*] argument is a [buffer]: the bytes
      reachable from the pointer, indexed by their distance to it.  The
      pointer arithmetic of the source ([data += byte_offset]) becomes an
      explicit byte position next to the buffer.  Distinct pointer
      arguments are distinct buffers (the kernels are not specified for
      overlapping source and destination).
    - [int64_t] quantities are [Z]; [/] and [%] on them are the truncating
      [Z.quot] and [Z.rem] of C++.  Their sums and products are exact: the
      kernels only form bit and byte positions inside the views they are
      given, which fit in 64 bits for any buffer that exists.
    - [uint8_t] and [uint64_t] values are [Z] reduced by [u8] and [u64]
      wherever the source narrows or wraps; a byte read from a buffer is
      reduced by [u8], so that every buffer stands for an array of
      [uint8_t].
    - A counted loop is [for_range], a loop with an early [return false] is
      [all_range] or returns an [option], the [do ... while] loop carries
      fuel that is proved sufficient ([do_while_words]).
    - The headers [bit_util.h], [bitmap_reader.h], [bitmap_writer.h],
      [align_util.h] and the allocator are not among the sources; what the
      kernels use of them is modelled from the specification, and marked
      so. *)

From Stdlib Require Import ZArith List Lia Bool.
Import ListNotations.
Local Open Scope Z_scope.

(** ** Bytes, words and buffers *)

Definition buffer := Z -> Z.

Definition u8 (x : Z) : Z := x mod 2 ^ 8.
Definition u32 (x : Z) : Z := x mod 2 ^ 32.
Definition u64 (x : Z) : Z := x mod 2 ^ 64.

(** [p[i] = v] *)
Definition store (b : buffer) (i v : Z) : buffer :=
  fun j => if j =? i then v else b j.

(** A buffer holding the bytes of a list, zero elsewhere. *)
Definition of_list (l : list Z) : buffer :=
  fun i => if i <? 0 then 0 else nth (Z.to_nat i) l 0.

(** The first [n] bytes of a buffer. *)
Definition to_list (b : buffer) (n : Z) : list Z :=
  map (fun k => u8 (b (Z.of_nat k))) (seq 0 (Z.to_nat n)).

(** The bit order convention of the format: bit [i] of a buffer is
    [(buf[i/8] >> (i%8)) & 1]. *)
Definition bit (buf : buffer) (i : Z) : bool :=
  Z.testbit (buf (i / 8)) (i mod 8).

(** [for (int64_t i = lo; i < lo + n; ++i) s = body(i, s);] *)
Fixpoint for_range {S : Type} (n : nat) (i : Z) (body : Z -> S -> S) (s : S) : S :=
  match n with
  | O => s
  | S n' => for_range n' (i + 1) body (body i s)
  end.

(** The same loop when the body is a test whose failure returns [false]
    from the enclosing function. *)
Fixpoint all_range (n : nat) (i : Z) (ok : Z -> bool) : bool :=
  match n with
  | O => true
  | S n' => if ok i then all_range n' (i + 1) ok else false
  end.

(** ** BitUtil: bit addressing and endian loads (arrow/util/bit_util.h,
    arrow/util/ubsan.h) *)

Module BitUtil.

(** Modelled from the spec: [bit_util.h] is not part of the sources; the
    spec gives [bytes_for_bits(n) = (n+7)/8]. *)
Definition BytesForBits (bits : Z) : Z := (bits + 7) ÷ 8.

(** Modelled from the spec: the table [kBitmask[k] = 1 << k] behind
    [SetBit], one bit of a byte. *)
Definition kBitmask (k : Z) : Z := Z.shiftl 1 k.

(** Modelled from the spec: the table [kFlippedBitmask[k]] behind
    [ClearBit], the complement of [kBitmask[k]] in a byte. *)
Definition kFlippedBitmask (k : Z) : Z := Z.lxor (kBitmask k) 255.

(** Modelled from the spec: [get(buf, i)] returns the [i]-th bit,
    [(bits[i / 8] >> (i % 8)) & 1], of the bytes at pointer [bits + p]. *)
Definition GetBit (bits : buffer) (p i : Z) : bool :=
  Z.land (Z.shiftr (u8 (bits (p + i / 8))) (i mod 8)) 1 =? 1.

(** Modelled from the spec: [set(buf, i)] modifies one bit,
    [bits[i / 8] |= kBitmask[i % 8]]. *)
Definition SetBit (bits : buffer) (p i : Z) : buffer :=
  store bits (p + i / 8) (Z.lor (u8 (bits (p + i / 8))) (kBitmask (i mod 8))).

(** Modelled from the spec: [clear(buf, i)] modifies one bit,
    [bits[i / 8] &= kFlippedBitmask[i % 8]]. *)
Definition ClearBit (bits : buffer) (p i : Z) : buffer :=
  store bits (p + i / 8) (Z.land (u8 (bits (p + i / 8))) (kFlippedBitmask (i mod 8))).

(** Modelled from the spec: the hardware population count of a 64-bit
    word. *)
Definition PopCount (w : Z) : Z :=
  for_range 64 0 (fun k c => if Z.testbit w k then c + 1 else c) 0.

End BitUtil.

(** Modelled from the spec: [safe_load_u64(p)] reads eight bytes from a
    possibly unaligned address and returns their little-endian
    interpretation ([ToLittleEndian(SafeLoadAs<uint64_t>(bytes))]);
    [le_load n] reads [n] bytes. *)
Fixpoint le_load (n : nat) (b : buffer) (p : Z) : Z :=
  match n with
  | O => 0
  | S n' => Z.lor (u8 (b p)) (Z.shiftl (le_load n' b (p + 1)) 8)
  end.

(** Modelled from the spec: [safe_load_u64], the little-endian load of
    the eight bytes at [b + p] (the [load_word] lambda of the kernels). *)
Definition load_word (b : buffer) (p : Z) : Z := le_load 8 b p.

(** Modelled from the spec: [safe_store_u64(p, w)], the inverse of the
    load ([SafeStore(bytes, FromLittleEndian(word))]); [le_store n] writes
    [n] bytes. *)
Fixpoint le_store (n : nat) (b : buffer) (p w : Z) : buffer :=
  match n with
  | O => b
  | S n' => le_store n' (store b p (u8 w)) (p + 1) (Z.shiftr w 8)
  end.

(** Modelled from the spec: [safe_store_u64], the little-endian store of
    a word to the eight bytes at [b + p] (the [write_word] lambda). *)
Definition write_word (b : buffer) (p w : Z) : buffer := le_store 8 b p w.

(** ** Sequential bit reader and writer (arrow/util/bitmap_reader.h,
    arrow/util/bitmap_writer.h) *)

(** Modelled from the spec: the reader binds to [(buf, bit_offset, length)],
    keeps a current byte cache and a bit cursor within that byte;
    [IsSet] returns the current bit, [Next] advances by one bit and refills
    the cache when it crosses a byte boundary (only while bits remain). *)
Record BitmapReader := mkReader {
  r_bitmap : buffer;
  r_ptr : Z;
  r_position : Z;
  r_length : Z;
  r_current_byte : Z;
  r_byte_offset : Z;
  r_bit_offset : Z
}.

(** Modelled from the spec: the constructor [BitmapReader(bitmap + ptr,
    start_offset, length)]; the first byte is fetched only if there is a
    bit to read. *)
Definition Reader (bitmap : buffer) (ptr start_offset length : Z) : BitmapReader :=
  let byte_offset := start_offset ÷ 8 in
  let bit_offset := Z.rem start_offset 8 in
  mkReader bitmap ptr 0 length
    (if 0 <? length then u8 (bitmap (ptr + byte_offset)) else 0)
    byte_offset bit_offset.

(** Modelled from the spec: [is_set()] returns the current bit. *)
Definition IsSet (r : BitmapReader) : bool :=
  negb (Z.land (r_current_byte r) (Z.shiftl 1 (r_bit_offset r)) =? 0).

(** Modelled from the spec: [next()] of the reader advances by one bit and
    refills the cache when it crosses a byte boundary with bits left. *)
Definition ReaderNext (r : BitmapReader) : BitmapReader :=
  let bit_offset := r_bit_offset r + 1 in
  let position := r_position r + 1 in
  if bit_offset =? 8 then
    let byte_offset := r_byte_offset r + 1 in
    mkReader (r_bitmap r) (r_ptr r) position (r_length r)
      (if position <? r_length r
       then u8 (r_bitmap r (r_ptr r + byte_offset)) else r_current_byte r)
      byte_offset 0
  else
    mkReader (r_bitmap r) (r_ptr r) position (r_length r)
      (r_current_byte r) (r_byte_offset r) bit_offset.

(** Modelled from the spec: the writer binds to [(buf, bit_offset, length)],
    keeps a pending byte initialised from the destination byte, and a bit
    cursor (a one-bit mask); [Set]/[Clear] change the pending byte at the
    cursor, [Next] advances and flushes a completed byte, [Finish] flushes
    the partial trailing byte. *)
Record BitmapWriter := mkWriter {
  w_bitmap : buffer;
  w_ptr : Z;
  w_position : Z;
  w_length : Z;
  w_current_byte : Z;
  w_bit_mask : Z;
  w_byte_offset : Z
}.

(** Modelled from the spec: the constructor [BitmapWriter(bitmap + ptr,
    start_offset, length)]; the pending byte is initialised from the
    destination byte if there is a bit to write. *)
Definition Writer (bitmap : buffer) (ptr start_offset length : Z) : BitmapWriter :=
  let byte_offset := start_offset ÷ 8 in
  mkWriter bitmap ptr 0 length
    (if 0 <? length then u8 (bitmap (ptr + byte_offset)) else 0)
    (BitUtil.kBitmask (Z.rem start_offset 8)) byte_offset.

(** Modelled from the spec: [set()] sets the pending byte's bit at the
    cursor. *)
Definition WriterSet (w : BitmapWriter) : BitmapWriter :=
  mkWriter (w_bitmap w) (w_ptr w) (w_position w) (w_length w)
    (Z.lor (w_current_byte w) (w_bit_mask w)) (w_bit_mask w) (w_byte_offset w).

(** Modelled from the spec: [clear()] clears the pending byte's bit at the
    cursor. *)
Definition WriterClear (w : BitmapWriter) : BitmapWriter :=
  mkWriter (w_bitmap w) (w_ptr w) (w_position w) (w_length w)
    (Z.land (w_current_byte w) (Z.lxor (w_bit_mask w) 255))
    (w_bit_mask w) (w_byte_offset w).

(** Modelled from the spec: [next()] of the writer advances the cursor
    and, when a byte is completed, flushes it and takes the next
    destination byte as pending if bits are left. *)
Definition WriterNext (w : BitmapWriter) : BitmapWriter :=
  let bit_mask := u8 (Z.shiftl (w_bit_mask w) 1) in
  let position := w_position w + 1 in
  if bit_mask =? 0 then
    let bitmap := store (w_bitmap w) (w_ptr w + w_byte_offset w) (w_current_byte w) in
    let byte_offset := w_byte_offset w + 1 in
    mkWriter bitmap (w_ptr w) position (w_length w)
      (if position <? w_length w
       then u8 (bitmap (w_ptr w + byte_offset)) else w_current_byte w)
      1 byte_offset
  else
    mkWriter (w_bitmap w) (w_ptr w) position (w_length w)
      (w_current_byte w) bit_mask (w_byte_offset w).

(** Modelled from the spec: [finish()] flushes the partial trailing byte,
    if there is one: a writer of no bit, or one whose cursor stands on a
    fresh byte after the last bit, stores nothing. *)
Definition Finish (w : BitmapWriter) : BitmapWriter :=
  if (0 <? w_length w) && (negb (w_bit_mask w =? 1) || (w_position w <? w_length w))
  then mkWriter (store (w_bitmap w) (w_ptr w + w_byte_offset w) (w_current_byte w))
         (w_ptr w) (w_position w) (w_length w) (w_current_byte w)
         (w_bit_mask w) (w_byte_offset w)
  else w.

(** ** Population count (bitmap_ops.cc, lines 39-71) *)

(** Modelled from the spec: the [WordAlignment] decomposition,
    [leading_bits + aligned_words * W * 8 + (bit_offset + length -
    trailing_bit_offset) = length]. *)
Record BitmapWordAlignParams := mkAlign {
  leading_bits : Z;
  trailing_bits : Z;
  trailing_bit_offset : Z;
  aligned_start : Z;
  aligned_bits : Z;
  aligned_words : Z
}.

(** Modelled from the spec: [align_util.h] is not part of the sources.
    Given a [(buffer, bit_offset, length)] view and a word size [W] in
    bytes, the span is decomposed into leading bits (until the next
    [W]-aligned byte boundary), aligned words and trailing bits.  The
    boundary depends on the machine address [addr] of the pointer [data];
    [aligned_start] is a byte position relative to [data]. *)
Definition BitmapWordAlign (W addr bit_offset length : Z) : BitmapWordAlignParams :=
  let ALIGN_IN_BITS := W * 8 in
  let bit_addr := addr * 8 + bit_offset in
  let leading := Z.min length ((- bit_addr) mod ALIGN_IN_BITS) in
  let words := (length - leading) ÷ ALIGN_IN_BITS in
  let bits := words * ALIGN_IN_BITS in
  mkAlign leading (length - leading - bits) (bit_offset + leading + bits)
    ((bit_offset + leading) ÷ 8) bits words.

(** [if (BitUtil::GetBit(data, i)) ++count;] (lines 46-48 and 65-67). *)
Definition count_bit (data : buffer) (i count : Z) : Z :=
  if BitUtil.GetBit data 0 i then count + 1 else count.

(** [CountSetBits] (lines 39-71).  [addr] is the machine address held by
    the pointer [data], which [BitmapWordAlign] inspects; the aligned words
    are read in host order, which does not change their population count,
    and are taken little-endian here. *)
Definition CountSetBits (addr : Z) (data : buffer) (bit_offset length : Z) : Z :=
  let pop_len := 8 * 8 in
  let count := 0 in
  let p := BitmapWordAlign (pop_len ÷ 8) addr bit_offset length in
  let count :=
    for_range (Z.to_nat (bit_offset + leading_bits p - bit_offset)) bit_offset
      (count_bit data) count in
  let count :=
    if 0 <? aligned_words p then
      let u64_data := aligned_start p in
      for_range (Z.to_nat (aligned_words p)) 0
        (fun iter c => c + BitUtil.PopCount (load_word data (u64_data + 8 * iter)))
        count
    else count in
  for_range (Z.to_nat (bit_offset + length - trailing_bit_offset p))
    (trailing_bit_offset p) (count_bit data) count.

(** ** Transfer kernel (bitmap_ops.cc, lines 73-213) *)

(** The [shift_word] lambda (lines 92-95 and 245-248). *)
Definition shift_word (current next shift : Z) : Z :=
  if shift =? 0 then current
  else Z.lor (Z.shiftr current shift) (u64 (Z.shiftl next (64 - shift))).

(** [(1U << k) - 1], computed in [unsigned] and widened to a word. *)
Definition low_mask (k : Z) : Z := u32 (u32 (Z.shiftl 1 k) - 1).

(** The read-modify-write of two adjacent destination words (lines
    114-120 and 373-380): [word] is rotated left by [k]; its high part goes
    to the running word at [p], its low part to the word at [p + 8].
    Returns the memory and the second word. *)
Definition split_store (mem : buffer) (p k mask current word : Z) : buffer * Z :=
  let word := Z.lor (u64 (Z.shiftl word k)) (Z.shiftr word (64 - k)) in
  let next := load_word mem (p + 8) in
  let current := Z.lor (Z.land current mask) (Z.land word (u64 (Z.lnot mask))) in
  let next := Z.lor (Z.land next (u64 (Z.lnot mask))) (Z.land word mask) in
  (write_word (write_word mem p current) (p + 8) next, next).

(** The variables the word loop of [TransferBitmap] updates. *)
Record transfer_state := mkTransfer {
  t_data : Z;
  t_data_current : Z;
  t_dest : Z;
  t_dest_current : Z;
  t_mem : buffer
}.

(** One round of the word loop (lines 105-124). *)
Definition transfer_word (invert_bits : bool) (data : buffer)
    (bit_offset dest_bit_offset dest_mask : Z) (s : transfer_state) : transfer_state :=
  let data_p := t_data s + 8 in
  let data_next := load_word data data_p in
  let word := shift_word (t_data_current s) data_next bit_offset in
  let word := if invert_bits then u64 (Z.lnot word) else word in
  if negb (dest_bit_offset =? 0) then
    let '(mem, dest_next) :=
      split_store (t_mem s) (t_dest s) dest_bit_offset dest_mask (t_dest_current s) word in
    mkTransfer data_p data_next (t_dest s + 8) dest_next mem
  else
    mkTransfer data_p data_next (t_dest s + 8) (t_dest_current s)
      (write_word (t_mem s) (t_dest s) word).

(** One round of the bit loop (lines 134-140). *)
Definition transfer_bit (invert_bits : bool) (s : BitmapReader * BitmapWriter)
  : BitmapReader * BitmapWriter :=
  let '(valid_reader, valid_writer) := s in
  let valid_writer :=
    if xorb invert_bits (IsSet valid_reader)
    then WriterSet valid_writer else WriterClear valid_writer in
  (ReaderNext valid_reader, WriterNext valid_writer).

(** [std::memcpy(dest + dp, src + sp, n)] between distinct buffers. *)
Definition memcpy (dest : buffer) (dp : Z) (src : buffer) (sp n : Z) : buffer :=
  for_range (Z.to_nat n) 0 (fun i d => store d (dp + i) (u8 (src (sp + i)))) dest.

(** [TransferBitmap<invert_bits, restore_trailing_bits>] (lines 73-169). *)
Definition TransferBitmap (invert_bits restore_trailing_bits : bool)
    (data : buffer) (offset length dest_offset : Z) (dest : buffer) : buffer :=
  let byte_offset := offset ÷ 8 in
  let bit_offset := Z.rem offset 8 in
  let dest_byte_offset := dest_offset ÷ 8 in
  let dest_bit_offset := Z.rem dest_offset 8 in
  let num_bytes := BitUtil.BytesForBits length in
  let dest_p := dest_byte_offset in
  if negb (bit_offset =? 0) || negb (dest_bit_offset =? 0) then
    let data_p := byte_offset in
    let n_words := length ÷ 64 in
    let '(data_p, dest_p, dest, length) :=
      if 1 <? n_words then
        let dest_mask := low_mask dest_bit_offset in
        let s :=
          for_range (Z.to_nat (n_words - 1)) 0
            (fun _ => transfer_word invert_bits data bit_offset dest_bit_offset dest_mask)
            (mkTransfer data_p (load_word data data_p)
               dest_p (load_word dest dest_p) dest) in
        (t_data s, t_dest s, t_mem s, length - (n_words - 1) * 64)
      else (data_p, dest_p, dest, length) in
    let valid_reader := Reader data data_p bit_offset length in
    let valid_writer := Writer dest dest_p dest_bit_offset length in
    let '(_, valid_writer) :=
      for_range (Z.to_nat length) 0 (fun _ => transfer_bit invert_bits)
        (valid_reader, valid_writer) in
    w_bitmap (Finish valid_writer)
  else
    let trailing_bits := num_bytes * 8 - length in
    let trail :=
      if negb (trailing_bits =? 0) && restore_trailing_bits
      then u8 (dest (dest_p + (num_bytes - 1))) else 0 in
    let dest :=
      if invert_bits then
        for_range (Z.to_nat num_bytes) 0
          (fun i d => store d (dest_p + i) (u8 (Z.lnot (u8 (data (byte_offset + i))))))
          dest
      else memcpy dest dest_p data byte_offset num_bytes in
    if restore_trailing_bits then
      for_range (Z.to_nat trailing_bits) 0
        (fun i d =>
           if BitUtil.GetBit (fun _ => trail) 0 (i + 8 - trailing_bits)
           then BitUtil.SetBit d dest_p (length + i)
           else BitUtil.ClearBit d dest_p (length + i))
        dest
    else dest.

(** Modelled from the spec: buffer allocation is an external collaborator.
    [allocate_empty_bitmap(bit_length, pool)] returns a zero-initialised
    byte buffer of [bytes_for_bits(bit_length)] bytes, or an error; a pool
    is represented by the sizes it is able to serve. *)
Record MemoryPool := mkPool { serves : Z -> bool }.

(** Modelled from the spec: an allocated buffer, its size in bytes and
    its memory. *)
Record Buffer := mkBuffer { size : Z; mutable_data : buffer }.

(** Modelled from the spec: [allocate_empty_bitmap(bit_length, pool)]. *)
Definition AllocateEmptyBitmap (length : Z) (pool : MemoryPool) : option Buffer :=
  let nbytes := BitUtil.BytesForBits length in
  if serves pool nbytes then Some (mkBuffer nbytes (fun _ => 0)) else None.

(** The allocating overload of [TransferBitmap] (lines 171-188). *)
Definition TransferBitmap_pool (invert_bits : bool) (pool : MemoryPool)
    (data : buffer) (offset length : Z) : option Buffer :=
  match AllocateEmptyBitmap length pool with
  | None => None
  | Some buffer =>
      let dest := mutable_data buffer in
      let dest := TransferBitmap invert_bits false data offset length 0 dest in
      let num_bytes := BitUtil.BytesForBits length in
      let bits_to_zero := num_bytes * 8 - length in
      let dest :=
        for_range (Z.to_nat (length + bits_to_zero - length)) length
          (fun i d => BitUtil.ClearBit d 0 i) dest in
      Some (mkBuffer (size buffer) dest)
  end.

(** The in-place [CopyBitmap] (lines 190-197). *)
Definition CopyBitmap (data : buffer) (offset length : Z) (dest : buffer)
    (dest_offset : Z) (restore_trailing_bits : bool) : buffer :=
  if restore_trailing_bits
  then TransferBitmap false true data offset length dest_offset dest
  else TransferBitmap false false data offset length dest_offset dest.

(** The in-place [InvertBitmap] (lines 199-202). *)
Definition InvertBitmap (data : buffer) (offset length : Z) (dest : buffer)
    (dest_offset : Z) : buffer :=
  TransferBitmap true true data offset length dest_offset dest.

(** The allocating [CopyBitmap] (lines 204-207). *)
Definition CopyBitmap_pool (pool : MemoryPool) (data : buffer) (offset length : Z)
  : option Buffer :=
  TransferBitmap_pool false pool data offset length.

(** The allocating [InvertBitmap] (lines 209-213); the source's overload
    also takes an output parameter [out] that it never uses. *)
Definition InvertBitmap_pool (pool : MemoryPool) (data : buffer) (offset length : Z)
  : option Buffer :=
  TransferBitmap_pool true pool data offset length.

(** ** Equality (bitmap_ops.cc, lines 215-280) *)

(** [std::memcmp]: zero when the [n] bytes agree, otherwise the difference
    of the first pair of bytes that differ. *)
Fixpoint memcmp (n : nat) (a : buffer) (ap : Z) (b : buffer) (bp : Z) : Z :=
  match n with
  | O => 0
  | S n' =>
      let d := u8 (a ap) - u8 (b bp) in
      if d =? 0 then memcmp n' a (ap + 1) b (bp + 1) else d
  end.

(** The variables the word loop of [BitmapEquals] updates. *)
Record equals_state := mkEquals {
  e_left : Z;
  e_left_current : Z;
  e_right : Z;
  e_right_current : Z
}.

(** The word loop (lines 253-267); [None] is the [return false] inside
    it. *)
Fixpoint equals_words (n : nat) (left right : buffer) (left_offset right_offset : Z)
    (s : equals_state) : option equals_state :=
  match n with
  | O => Some s
  | S n' =>
      let left_p := e_left s + 8 in
      let left_next := load_word left left_p in
      let left_word := shift_word (e_left_current s) left_next left_offset in
      let right_p := e_right s + 8 in
      let right_next := load_word right right_p in
      let right_word := shift_word (e_right_current s) right_next right_offset in
      if negb (left_word =? right_word) then None
      else equals_words n' left right left_offset right_offset
             (mkEquals left_p left_next right_p right_next)
  end.

(** [BitmapEquals] (lines 215-280). *)
Definition BitmapEquals (left : buffer) (left_offset : Z) (right : buffer)
    (right_offset bit_length : Z) : bool :=
  if (Z.rem left_offset 8 =? 0) && (Z.rem right_offset 8 =? 0) then
    let bytes_equal :=
      memcmp (Z.to_nat (bit_length ÷ 8)) left (left_offset ÷ 8)
        right (right_offset ÷ 8) =? 0 in
    if negb bytes_equal then false
    else
      all_range (Z.to_nat (bit_length - (bit_length ÷ 8) * 8)) ((bit_length ÷ 8) * 8)
        (fun i => Bool.eqb (BitUtil.GetBit left 0 (left_offset + i))
                    (BitUtil.GetBit right 0 (right_offset + i)))
  else
    let left_p := left_offset ÷ 8 in
    let right_p := right_offset ÷ 8 in
    let left_offset := Z.rem left_offset 8 in
    let right_offset := Z.rem right_offset 8 in
    let n_words := bit_length ÷ 64 in
    let words :=
      if 1 <? n_words then
        match
          equals_words (Z.to_nat (n_words - 1)) left right left_offset right_offset
            (mkEquals left_p (load_word left left_p) right_p (load_word right right_p))
        with
        | None => None
        | Some s => Some (e_left s, e_right s, bit_length - (n_words - 1) * 64)
        end
      else Some (left_p, right_p, bit_length) in
    match words with
    | None => false
    | Some (left_p, right_p, bit_length) =>
        all_range (Z.to_nat bit_length) 0
          (fun i => Bool.eqb (BitUtil.GetBit left left_p (left_offset + i))
                      (BitUtil.GetBit right right_p (right_offset + i)))
    end.

(** ** Binary combinators (bitmap_ops.cc, lines 284-478) *)

(** The three instantiations of the templates: [std::bit_and] with
    [std::logical_and<bool>], [std::bit_or] with [std::logical_or<bool>],
    [std::bit_xor] with [std::bit_xor<bool>]. *)
Inductive Combinator := And | Or | Xor.

(** The template argument [BitOp], on bytes and on words. *)
Definition BitOp (c : Combinator) : Z -> Z -> Z :=
  match c with And => Z.land | Or => Z.lor | Xor => Z.lxor end.

(** The template argument [LogicalOp], on single bits. *)
Definition LogicalOp (c : Combinator) : bool -> bool -> bool :=
  match c with And => andb | Or => orb | Xor => xorb end.

(** [AlignedBitmapOp] (lines 284-299). *)
Definition AlignedBitmapOp (c : Combinator) (left : buffer) (left_offset : Z)
    (right : buffer) (right_offset : Z) (out : buffer) (out_offset length : Z) : buffer :=
  let nbytes := BitUtil.BytesForBits (length + Z.rem left_offset 8) in
  let left_p := left_offset ÷ 8 in
  let right_p := right_offset ÷ 8 in
  let out_p := out_offset ÷ 8 in
  for_range (Z.to_nat nbytes) 0
    (fun i o =>
       store o (out_p + i)
         (u8 (BitOp c (u8 (left (left_p + i))) (u8 (right (right_p + i))))))
    out.

(** The variables the word loop of [UnalignedBitmapOp] updates. *)
Record binop_state := mkBinop {
  b_left : Z;
  b_left_word0 : Z;
  b_right : Z;
  b_right_word0 : Z;
  b_out : Z;
  b_out_word0 : Z;
  b_nwords : Z;
  b_mem : buffer
}.

(** One round of the word loop (lines 331-386). *)
Definition binop_word (c : Combinator) (left right : buffer)
    (left_offset right_offset out_offset out_mask : Z) (s : binop_state) : binop_state :=
  let bits_per_word := 8 * 8 in
  let left_p := b_left s + 8 in
  let left_word1 := load_word left left_p in
  let left_word := b_left_word0 s in
  let left_word :=
    if negb (left_offset =? 0) then
      Z.lor (Z.shiftr left_word left_offset)
        (u64 (Z.shiftl left_word1 (bits_per_word - left_offset)))
    else left_word in
  let right_p := b_right s + 8 in
  let right_word1 := load_word right right_p in
  let right_word := b_right_word0 s in
  let right_word :=
    if negb (right_offset =? 0) then
      Z.lor (Z.shiftr right_word right_offset)
        (u64 (Z.shiftl right_word1 (bits_per_word - right_offset)))
    else right_word in
  let out_word := BitOp c left_word right_word in
  if negb (out_offset =? 0) then
    let '(mem, out_word1) :=
      split_store (b_mem s) (b_out s) out_offset out_mask (b_out_word0 s) out_word in
    mkBinop left_p left_word1 right_p right_word1 (b_out s + 8) out_word1
      (b_nwords s - 1) mem
  else
    mkBinop left_p left_word1 right_p right_word1 (b_out s + 8) (b_out_word0 s)
      (b_nwords s - 1) (write_word (b_mem s) (b_out s) out_word).

(** [do { s = body(s); } while (cond(s));]  The fuel bounds the number of
    repetitions; [do_while_words] below shows the loop of
    [UnalignedBitmapOp] leaves by its condition. *)
Fixpoint do_while {S : Type} (fuel : nat) (body : S -> S) (cond : S -> bool) (s : S) : S :=
  let s := body s in
  match fuel with
  | O => s
  | S fuel' => if cond s then do_while fuel' body cond s else s
  end.

(** One round of the bit loop (lines 397-404). *)
Definition binop_bit (c : Combinator)
    (s : BitmapReader * BitmapReader * BitmapWriter)
  : BitmapReader * BitmapReader * BitmapWriter :=
  let '(left_reader, right_reader, writer) := s in
  let writer :=
    if LogicalOp c (IsSet left_reader) (IsSet right_reader)
    then WriterSet writer else WriterClear writer in
  (ReaderNext left_reader, ReaderNext right_reader, WriterNext writer).

(** [UnalignedBitmapOp] (lines 301-408).  [min_nbytes / sizeof(Word)] is
    an unsigned division, the same as the signed one for the lengths the
    kernel is specified for; [while (length--)] runs [length] times. *)
Definition UnalignedBitmapOp (c : Combinator) (left : buffer) (left_offset : Z)
    (right : buffer) (right_offset : Z) (out : buffer) (out_offset length : Z) : buffer :=
  let left_p := left_offset ÷ 8 in
  let right_p := right_offset ÷ 8 in
  let out_p := out_offset ÷ 8 in
  let left_offset := Z.rem left_offset 8 in
  let right_offset := Z.rem right_offset 8 in
  let out_offset := Z.rem out_offset 8 in
  let min_offset := Z.min (Z.min left_offset right_offset) out_offset in
  let min_nbytes := BitUtil.BytesForBits (length + min_offset) in
  let nwords := min_nbytes ÷ 8 in
  let '(left_p, right_p, out_p, out, length) :=
    if 1 <? nwords then
      let out_mask := low_mask out_offset in
      let length := length - (nwords - 1) * (8 * 8) in
      let s :=
        do_while (Z.to_nat nwords)
          (binop_word c left right left_offset right_offset out_offset out_mask)
          (fun s => 1 <? b_nwords s)
          (mkBinop left_p (load_word left left_p) right_p (load_word right right_p)
             out_p (load_word out out_p) nwords out) in
      (b_left s, b_right s, b_out s, b_mem s, length)
    else (left_p, right_p, out_p, out, length) in
  if negb (length =? 0) then
    let left_reader := Reader left left_p left_offset length in
    let right_reader := Reader right right_p right_offset length in
    let writer := Writer out out_p out_offset length in
    let '(_, _, writer) :=
      for_range (Z.to_nat length) 0 (fun _ => binop_bit c)
        (left_reader, right_reader, writer) in
    w_bitmap (Finish writer)
  else out.

(** The in-place [BitmapOp] (lines 410-422). *)
Definition BitmapOp (c : Combinator) (left : buffer) (left_offset : Z)
    (right : buffer) (right_offset length out_offset : Z) (dest : buffer) : buffer :=
  if (Z.rem out_offset 8 =? Z.rem left_offset 8)
     && (Z.rem out_offset 8 =? Z.rem right_offset 8)
  then AlignedBitmapOp c left left_offset right right_offset dest out_offset length
  else UnalignedBitmapOp c left left_offset right right_offset dest out_offset length.

(** The allocating overload of [BitmapOp] (lines 424-434). *)
Definition BitmapOp_pool (c : Combinator) (pool : MemoryPool) (left : buffer)
    (left_offset : Z) (right : buffer) (right_offset length out_offset : Z)
  : option Buffer :=
  let phys_bits := length + out_offset in
  match AllocateEmptyBitmap phys_bits pool with
  | None => None
  | Some out_buffer =>
      Some (mkBuffer (size out_buffer)
              (BitmapOp c left left_offset right right_offset length out_offset
                 (mutable_data out_buffer)))
  end.

(** The exported combinators (lines 438-478). *)
Definition BitmapAnd_pool := BitmapOp_pool And.
Definition BitmapAnd := BitmapOp And.
Definition BitmapOr_pool := BitmapOp_pool Or.
Definition BitmapOr := BitmapOp Or.
Definition BitmapXor_pool := BitmapOp_pool Xor.
Definition BitmapXor := BitmapOp Xor.

(** * Specification

    The notions the properties are stated with. *)

(** ** Reference computations

    The slow, bit-at-a-time computations the specification takes as the
    reference of the kernels: one [get] per input bit and one [set] or
    [clear] per output bit. *)

Definition put_bit (d : buffer) (i : Z) (v : bool) : buffer :=
  if v then BitUtil.SetBit d 0 i else BitUtil.ClearBit d 0 i.

Definition transfer_reference (invert : bool) (src : buffer) (src_offset length : Z)
    (dst : buffer) (dst_offset : Z) : buffer :=
  for_range (Z.to_nat length) 0
    (fun i d =>
       put_bit d (dst_offset + i) (xorb invert (BitUtil.GetBit src 0 (src_offset + i))))
    dst.

Definition equals_reference (left : buffer) (lo : Z) (right : buffer) (ro length : Z)
  : bool :=
  all_range (Z.to_nat length) 0
    (fun i => Bool.eqb (BitUtil.GetBit left 0 (lo + i)) (BitUtil.GetBit right 0 (ro + i))).

Definition binary_op_reference (c : Combinator) (left : buffer) (lo : Z)
    (right : buffer) (ro length : Z) (out : buffer) (oo : Z) : buffer :=
  for_range (Z.to_nat length) 0
    (fun i d =>
       put_bit d (oo + i)
         (LogicalOp c (BitUtil.GetBit left 0 (lo + i)) (BitUtil.GetBit right 0 (ro + i))))
    out.

(** The number of indices [i] in [[bit_offset, bit_offset + length)] whose
    bit is set. *)
Definition count_set_reference (data : buffer) (bit_offset length : Z) : Z :=
  Z.of_nat
    (List.length
       (filter (bit data)
          (map (fun k => bit_offset + Z.of_nat k) (seq 0 (Z.to_nat length))))).

(** ** Paths and results *)

(** Whether a transfer takes the byte-wise path. *)
Definition byte_aligned (offset dest_offset : Z) : bool :=
  (offset mod 8 =? 0) && (dest_offset mod 8 =? 0).

(** Whether a combinator call takes the byte-wise path. *)
Definition op_aligned (left_offset right_offset out_offset : Z) : bool :=
  (out_offset mod 8 =? left_offset mod 8) && (out_offset mod 8 =? right_offset mod 8).

(** The bits the byte-wise path writes: whole bytes, from the byte of
    [out_offset] on. *)
Definition op_touched (left_offset out_offset length i : Z) : bool :=
  (8 * (out_offset / 8) <=? i)
  && (i <? 8 * (out_offset / 8) + 8 * BitUtil.BytesForBits (length + left_offset mod 8)).

(** The combined bit the combinator [c] computes at distance [k] from the
    three offsets. *)
Definition combined (c : Combinator) (left : buffer) (lo : Z) (right : buffer) (ro k : Z)
  : bool :=
  LogicalOp c (bit left (lo + k)) (bit right (ro + k)).

(** A pool that serves every request. *)
Definition default_memory_pool : MemoryPool := mkPool (fun _ => true).

(** The bytes of an allocated buffer. *)
Definition contents (r : option Buffer) : option (list Z) :=
  option_map (fun b => to_list (mutable_data b) (size b)) r.

(** A property of the memory of the buffer a call returns, if it returns
    one. *)
Definition returned (r : option Buffer) (P : buffer -> Prop) : Prop :=
  match r with
  | Some b => P (mutable_data b)
  | None => True
  end.

(** * Invariants and tactics of the proofs *)

(** A word is determined by its 64 low bits. *)
Definition is_word (w : Z) : Prop := forall j, 64 <= j -> Z.testbit w j = false.

(** The reader has consumed [k] of the [len] bits that start [start] bits
    after byte [ptr] of [data]. *)
Definition reader_at (r : BitmapReader) (data : buffer) (ptr start len k : Z) : Prop :=
  r_bitmap r = data /\ r_ptr r = ptr /\ r_length r = len /\ r_position r = k /\
  r_byte_offset r = (start + k) / 8 /\ r_bit_offset r = (start + k) mod 8 /\
  (k < len -> r_current_byte r = u8 (data (ptr + (start + k) / 8))).

(** The destination as the writer would leave it if it were closed now:
    the pending byte counts as stored. *)
Definition writer_view (w : BitmapWriter) : buffer :=
  if (w_position w <? w_length w) || negb (w_bit_mask w =? 1)
  then store (w_bitmap w) (w_ptr w + w_byte_offset w) (w_current_byte w)
  else w_bitmap w.

(** The writer has produced the [k] first of the [len] bits [f 0], [f 1],
    ... at the position [start] bits after byte [ptr], and has kept every
    other bit of [orig]. *)
Definition writer_at (w : BitmapWriter) (orig : buffer) (f : Z -> bool)
    (ptr start len k : Z) : Prop :=
  w_ptr w = ptr /\ w_length w = len /\ w_position w = k /\
  w_byte_offset w = (start + k) / 8 /\ w_bit_mask w = 2 ^ ((start + k) mod 8) /\
  (forall i,
     bit (writer_view w) i =
     if (8 * ptr + start <=? i) && (i <? 8 * ptr + start + k)
     then f (i - (8 * ptr + start)) else bit orig i).

(** The state of the word loop after [j] rounds. *)
Definition transfer_words_at inv data offset dest dest_offset (j : Z) (s : transfer_state) : Prop :=
  t_data s = offset / 8 + 8 * j /\
  t_data_current s = load_word data (t_data s) /\
  t_dest s = dest_offset / 8 + 8 * j /\
  (forall b, 0 <= b < dest_offset mod 8 ->
     Z.testbit (t_dest_current s) b = bit (t_mem s) (8 * t_dest s + b)) /\
  (forall i,
     bit (t_mem s) i =
     if (dest_offset <=? i) && (i <? dest_offset + 64 * j)
     then xorb inv (bit data (offset + (i - dest_offset))) else bit dest i).

(** The state of the word loop of [UnalignedBitmapOp] after [j] rounds. *)
Definition binop_words_at c left lo right ro out oo (j : Z) (s : binop_state) : Prop :=
  b_left s = lo / 8 + 8 * j /\ b_left_word0 s = load_word left (b_left s) /\
  b_right s = ro / 8 + 8 * j /\ b_right_word0 s = load_word right (b_right s) /\
  b_out s = oo / 8 + 8 * j /\
  (forall b, 0 <= b < oo mod 8 ->
     Z.testbit (b_out_word0 s) b = bit (b_mem s) (8 * b_out s + b)) /\
  (forall i,
     bit (b_mem s) i =
     if (oo <=? i) && (i <? oo + 64 * j)
     then combined c left lo right ro (i - oo) else bit out i).

(** The number of [k] in [[i, i + n)] that satisfy [g]. *)
Fixpoint count_pred (g : Z -> bool) (i : Z) (n : nat) : Z :=
  match n with
  | O => 0
  | S n' => (if g i then 1 else 0) + count_pred g (i + 1) n'
  end.

(** Decide the comparisons of a goal and close the arithmetic cases. *)
Ltac cases_cmp :=
  repeat match goal with
    | |- context [?a <=? ?b] => destruct (Z.leb_spec a b)
    | |- context [?a <? ?b] => destruct (Z.ltb_spec a b)
    | |- context [?a =? ?b] => destruct (Z.eqb_spec a b)
    end;
  rewrite ?andb_false_r, ?andb_true_r, ?orb_false_r, ?orb_true_r;
  cbn [andb orb negb xorb]; try lia; try reflexivity.

(** Bits read at a negative index are clear. *)
Ltac dead_bits :=
  repeat match goal with
    | |- context [Z.testbit ?w ?j] => rewrite (Z.testbit_neg_r w j) by lia
    end;
  rewrite ?andb_false_r, ?andb_true_r, ?orb_false_r, ?orb_true_r;
  cbn [andb orb negb xorb].

(** * Arithmetic of bit positions *)

Lemma quot_div8 x : 0 <= x -> x ÷ 8 = x / 8.
Proof. intros; apply Z.quot_div_nonneg; lia. Qed.

Lemma rem_mod8 x : 0 <= x -> Z.rem x 8 = x mod 8.
Proof. intros; apply Z.rem_mod_nonneg; lia. Qed.

Lemma quot_div64 x : 0 <= x -> x ÷ 64 = x / 64.
Proof. intros; apply Z.quot_div_nonneg; lia. Qed.

Lemma pos_div8 p i : (8 * p + i) / 8 = p + i / 8.
Proof. rewrite Z.mul_comm, Z.add_comm, Z.div_add by lia. lia. Qed.

Lemma pos_mod8 p i : (8 * p + i) mod 8 = i mod 8.
Proof. rewrite Z.mul_comm, Z.add_comm, Z.mod_add by lia. reflexivity. Qed.

Lemma BytesForBits_div n : 0 <= n -> BitUtil.BytesForBits n = (n + 7) / 8.
Proof. intros; unfold BitUtil.BytesForBits; apply quot_div8; lia. Qed.

(** * Bits of bytes and words *)

Lemma testbit_u8 x j : Z.testbit (u8 x) j = (j <? 8) && Z.testbit x j.
Proof. unfold u8. apply Z.testbit_mod_pow2. lia. Qed.

Lemma testbit_u32 x j : Z.testbit (u32 x) j = (j <? 32) && Z.testbit x j.
Proof. unfold u32. apply Z.testbit_mod_pow2. lia. Qed.

Lemma testbit_u64 x j : Z.testbit (u64 x) j = (j <? 64) && Z.testbit x j.
Proof. unfold u64. apply Z.testbit_mod_pow2. lia. Qed.

Lemma land1_testbit x k : 0 <= k -> (Z.land (Z.shiftr x k) 1 =? 1) = Z.testbit x k.
Proof.
  intros Hk. rewrite Z.testbit_odd.
  change 1 with (Z.ones 1) at 1. rewrite Z.land_ones by lia.
  change (2 ^ 1) with 2. rewrite Zmod_odd.
  destruct (Z.odd (Z.shiftr x k)); reflexivity.
Qed.

Lemma land_mask_testbit x k :
  0 <= k -> negb (Z.land x (Z.shiftl 1 k) =? 0) = Z.testbit x k.
Proof.
  intros Hk. rewrite Z.shiftl_1_l.
  destruct (Z.testbit x k) eqn:E.
  - destruct (Z.eqb_spec (Z.land x (2 ^ k)) 0) as [H0|]; [|reflexivity].
    assert (Hb : Z.testbit (Z.land x (2 ^ k)) k = true).
    { rewrite Z.land_spec, E, Z.pow2_bits_true by lia. reflexivity. }
    rewrite H0, Z.testbit_0_l in Hb. discriminate.
  - replace (Z.land x (2 ^ k)) with 0; [reflexivity|].
    symmetry. apply Z.bits_inj'. intros n Hn.
    rewrite Z.land_spec, Z.testbit_0_l.
    destruct (Z.eq_dec n k) as [->|Hne].
    + rewrite E. reflexivity.
    + rewrite Z.pow2_bits_false by lia. apply andb_false_r.
Qed.

Lemma GetBit_bit b p i : BitUtil.GetBit b p i = bit b (8 * p + i).
Proof.
  unfold BitUtil.GetBit, bit. rewrite pos_div8, pos_mod8.
  assert (0 <= i mod 8 < 8) by (apply Z.mod_pos_bound; lia).
  rewrite land1_testbit, testbit_u8 by lia.
  replace (i mod 8 <? 8) with true by (symmetry; apply Z.ltb_lt; lia).
  reflexivity.
Qed.

Lemma bit_store b k v i :
  bit (store b k v) i = if i / 8 =? k then Z.testbit v (i mod 8) else bit b i.
Proof. unfold bit, store. destruct (i / 8 =? k); reflexivity. Qed.

Lemma bit_ext_pos i j : i / 8 = j / 8 -> i mod 8 = j mod 8 -> i = j.
Proof. intros. rewrite (Z.div_mod i 8), (Z.div_mod j 8) by lia. congruence. Qed.

Lemma testbit_kBitmask k j : 0 <= k -> 0 <= j -> Z.testbit (BitUtil.kBitmask k) j = (j =? k).
Proof.
  intros. unfold BitUtil.kBitmask. rewrite Z.shiftl_1_l.
  rewrite Z.pow2_bits_eqb by lia. apply Z.eqb_sym.
Qed.

Lemma bit_SetBit b p i j :
  bit (BitUtil.SetBit b p i) j = if j =? 8 * p + i then true else bit b j.
Proof.
  unfold BitUtil.SetBit. rewrite bit_store.
  assert (0 <= i mod 8 < 8) by (apply Z.mod_pos_bound; lia).
  assert (0 <= j mod 8 < 8) by (apply Z.mod_pos_bound; lia).
  destruct (Z.eqb_spec j (8 * p + i)) as [->|Hne].
  - rewrite pos_div8, pos_mod8, Z.eqb_refl.
    rewrite Z.lor_spec, testbit_kBitmask, Z.eqb_refl by lia. apply orb_true_r.
  - destruct (Z.eqb_spec (j / 8) (p + i / 8)) as [He|]; [|reflexivity].
    rewrite Z.lor_spec, testbit_u8, testbit_kBitmask by lia.
    replace (j mod 8 <? 8) with true by (symmetry; apply Z.ltb_lt; lia).
    destruct (Z.eqb_spec (j mod 8) (i mod 8)) as [Hm|Hm].
    + exfalso. apply Hne. apply bit_ext_pos; rewrite ?pos_div8, ?pos_mod8; assumption.
    + unfold bit. rewrite He, orb_false_r. reflexivity.
Qed.

Lemma bit_ClearBit b p i j :
  bit (BitUtil.ClearBit b p i) j = if j =? 8 * p + i then false else bit b j.
Proof.
  unfold BitUtil.ClearBit, BitUtil.kFlippedBitmask. rewrite bit_store.
  assert (0 <= i mod 8 < 8) by (apply Z.mod_pos_bound; lia).
  assert (0 <= j mod 8 < 8) by (apply Z.mod_pos_bound; lia).
  destruct (Z.eqb_spec j (8 * p + i)) as [->|Hne].
  - rewrite pos_div8, pos_mod8, Z.eqb_refl.
    rewrite Z.land_spec, Z.lxor_spec, testbit_kBitmask, Z.eqb_refl by lia.
    replace (Z.testbit 255 (i mod 8)) with true; [apply andb_false_r|].
    change 255 with (Z.ones 8). rewrite Z.ones_spec_low by lia. reflexivity.
  - destruct (Z.eqb_spec (j / 8) (p + i / 8)) as [He|]; [|reflexivity].
    rewrite Z.land_spec, Z.lxor_spec, testbit_u8, testbit_kBitmask by lia.
    replace (j mod 8 <? 8) with true by (symmetry; apply Z.ltb_lt; lia).
    change 255 with (Z.ones 8). rewrite Z.ones_spec_low by lia.
    destruct (Z.eqb_spec (j mod 8) (i mod 8)) as [Hm|Hm].
    + exfalso. apply Hne. apply bit_ext_pos; rewrite ?pos_div8, ?pos_mod8; assumption.
    + unfold bit. rewrite He. simpl. apply andb_true_r.
Qed.

(** * Loops *)

Lemma for_range_ind {St : Type} (P : Z -> St -> Prop) (body : Z -> St -> St) :
  forall (n : nat) (i : Z) (s : St),
    P i s ->
    (forall j t, i <= j < i + Z.of_nat n -> P j t -> P (j + 1) (body j t)) ->
    P (i + Z.of_nat n) (for_range n i body s).
Proof.
  induction n as [|n IH]; intros i s H0 Hstep.
  - simpl. replace (i + 0) with i by lia. exact H0.
  - cbn [for_range]. replace (i + Z.of_nat (S n)) with ((i + 1) + Z.of_nat n) by lia.
    apply IH.
    + apply Hstep; [lia|exact H0].
    + intros j t Hj. apply Hstep. lia.
Qed.

Lemma all_range_spec (ok : Z -> bool) :
  forall (n : nat) (i : Z),
    all_range n i ok = true <-> (forall j, i <= j < i + Z.of_nat n -> ok j = true).
Proof.
  induction n as [|n IH]; intros i.
  - simpl. split; [intros _ j Hj; lia|reflexivity].
  - cbn [all_range]. destruct (ok i) eqn:E.
    + rewrite IH. split; intros H j Hj.
      * destruct (Z.eq_dec j i) as [->|]; [exact E|apply H; lia].
      * apply H. lia.
    + split; [discriminate|]. intros H. rewrite <- E. apply H. lia.
Qed.

(** * Little-endian loads and stores, bit by bit *)

Lemma le_load_bits :
  forall (n : nat) b p j,
    0 <= j ->
    Z.testbit (le_load n b p) j = (j <? 8 * Z.of_nat n) && bit b (8 * p + j).
Proof.
  induction n as [|n IH]; intros b p j Hj.
  - simpl. rewrite Z.testbit_0_l. symmetry.
    replace (j <? 0) with false by (symmetry; apply Z.ltb_ge; lia). reflexivity.
  - cbn [le_load]. rewrite Z.lor_spec, testbit_u8.
    destruct (Z.ltb_spec j 8) as [Hlt|Hge].
    + rewrite Z.shiftl_spec_low by lia. rewrite orb_false_r.
      replace (j <? 8 * Z.of_nat (S n)) with true by (symmetry; apply Z.ltb_lt; lia).
      unfold bit. rewrite pos_div8, pos_mod8.
      rewrite Z.div_small, Z.mod_small by lia.
      replace (p + 0) with p by lia. reflexivity.
    + rewrite Z.shiftl_spec by lia. rewrite IH by lia. cbn [andb orb].
      replace (8 * (p + 1) + (j - 8)) with (8 * p + j) by lia.
      f_equal.
      destruct (Z.ltb_spec (j - 8) (8 * Z.of_nat n));
        destruct (Z.ltb_spec j (8 * Z.of_nat (S n))); try reflexivity; lia.
Qed.

Lemma load_word_bits b p j :
  0 <= j -> Z.testbit (load_word b p) j = (j <? 64) && bit b (8 * p + j).
Proof. intros. unfold load_word. rewrite le_load_bits by lia. reflexivity. Qed.

Lemma le_store_bits :
  forall (n : nat) b p w i,
    bit (le_store n b p w) i =
    if (8 * p <=? i) && (i <? 8 * p + 8 * Z.of_nat n)
    then Z.testbit w (i - 8 * p) else bit b i.
Proof.
  induction n as [|n IH]; intros b p w i.
  - cbn [le_store]. change (Z.of_nat 0) with 0.
    destruct (Z.leb_spec (8 * p) i); destruct (Z.ltb_spec i (8 * p + 8 * 0));
      try reflexivity; lia.
  - cbn [le_store]. rewrite IH, bit_store.
    assert (Hm : 0 <= i mod 8 < 8) by (apply Z.mod_pos_bound; lia).
    assert (Hd : i = 8 * (i / 8) + i mod 8) by (apply Z.div_mod; lia).
    destruct (Z.eqb_spec (i / 8) p) as [He|Hne].
    + replace ((8 * (p + 1) <=? i) && (i <? 8 * (p + 1) + 8 * Z.of_nat n))
        with false by (symmetry; apply andb_false_iff; left; apply Z.leb_gt; lia).
      replace ((8 * p <=? i) && (i <? 8 * p + 8 * Z.of_nat (S n)))
        with true
        by (symmetry; apply andb_true_iff; split;
            [apply Z.leb_le|apply Z.ltb_lt]; lia).
      rewrite testbit_u8.
      replace (i mod 8 <? 8) with true by (symmetry; apply Z.ltb_lt; lia).
      cbn [andb]. f_equal. lia.
    + destruct (Z.leb_spec (8 * (p + 1)) i);
        destruct (Z.ltb_spec i (8 * (p + 1) + 8 * Z.of_nat n));
        destruct (Z.leb_spec (8 * p) i);
        destruct (Z.ltb_spec i (8 * p + 8 * Z.of_nat (S n)));
        cbn [andb]; try lia; try reflexivity.
      rewrite Z.shiftr_spec by lia. f_equal. lia.
Qed.

Lemma write_word_bits b p w i :
  bit (write_word b p w) i =
  if (8 * p <=? i) && (i <? 8 * p + 64) then Z.testbit w (i - 8 * p) else bit b i.
Proof. unfold write_word. rewrite le_store_bits. reflexivity. Qed.

Lemma is_word_neg_false w : is_word w -> 0 <= w.
Proof.
  intros H. destruct (Z.neg_nonneg_cases w) as [Hn|]; [|assumption].
  destruct (Z.bits_iff_neg_ex w) as [Hex _]. specialize (Hex Hn) as [k Hk].
  specialize (Hk (Z.max (k + 1) 64) ltac:(lia)).
  rewrite H in Hk by lia. discriminate.
Qed.

Lemma is_word_load b p : is_word (load_word b p).
Proof.
  intros j Hj. rewrite load_word_bits by lia.
  replace (j <? 64) with false by (symmetry; apply Z.ltb_ge; lia). reflexivity.
Qed.

Lemma is_word_u64 x : is_word (u64 x).
Proof.
  intros j Hj. rewrite testbit_u64.
  replace (j <? 64) with false by (symmetry; apply Z.ltb_ge; lia). reflexivity.
Qed.

Lemma word_eq_bits a b :
  is_word a -> is_word b ->
  (forall j, 0 <= j < 64 -> Z.testbit a j = Z.testbit b j) -> a = b.
Proof.
  intros Ha Hb H. apply Z.bits_inj'. intros j Hj.
  destruct (Z.lt_ge_cases j 64); [apply H; lia|].
  rewrite Ha, Hb by lia. reflexivity.
Qed.

(** * The shift-merge word pipeline *)

Lemma low_mask_ones k : 0 <= k < 32 -> low_mask k = Z.ones k.
Proof.
  intros Hk. unfold low_mask, u32. rewrite Z.shiftl_1_l.
  assert (0 < 2 ^ k < 2 ^ 32).
  { split; [apply Z.pow_pos_nonneg; lia|apply Z.pow_lt_mono_r; lia]. }
  rewrite (Z.mod_small (2 ^ k)) by lia.
  rewrite Z.mod_small by lia.
  rewrite Z.ones_equiv. lia.
Qed.

Lemma low_mask_bits k j : 0 <= k < 32 -> 0 <= j -> Z.testbit (low_mask k) j = (j <? k).
Proof. intros. rewrite low_mask_ones by lia. apply Z.testbit_ones_nonneg; lia. Qed.

Lemma not_mask_bits k j :
  0 <= k < 32 -> 0 <= j ->
  Z.testbit (u64 (Z.lnot (low_mask k))) j = (j <? 64) && negb (j <? k).
Proof.
  intros. rewrite testbit_u64, Z.lnot_spec, low_mask_bits by lia. reflexivity.
Qed.

Lemma shift_word_bits cur next s j :
  is_word cur -> 0 <= s < 64 -> 0 <= j < 64 ->
  Z.testbit (shift_word cur next s) j =
  if j + s <? 64 then Z.testbit cur (j + s) else Z.testbit next (j + s - 64).
Proof.
  intros Hc Hs Hj. unfold shift_word.
  destruct (Z.eqb_spec s 0) as [->|Hs0].
  - replace (j + 0) with j by lia. cases_cmp.
  - rewrite Z.lor_spec, Z.shiftr_spec, testbit_u64, Z.shiftl_spec by lia.
    cases_cmp.
    + rewrite (Z.testbit_neg_r next) by lia. apply orb_false_r.
    + rewrite Hc by lia. cbn [orb]. f_equal. lia.
Qed.

Lemma is_word_shift cur next s : is_word cur -> 0 <= s -> is_word (shift_word cur next s).
Proof.
  intros Hc Hs j Hj. unfold shift_word.
  destruct (Z.eqb_spec s 0); [apply Hc; lia|].
  rewrite Z.lor_spec, Z.shiftr_spec, testbit_u64 by lia.
  rewrite Hc by lia. cases_cmp.
Qed.

(** The merged word is the window of 64 bits that starts [s] bits after
    byte [p]. *)
Lemma shift_word_load b p s j :
  0 <= s < 64 -> 0 <= j < 64 ->
  Z.testbit (shift_word (load_word b p) (load_word b (p + 8)) s) j = bit b (8 * p + s + j).
Proof.
  intros Hs Hj. rewrite shift_word_bits by (auto using is_word_load; lia).
  destruct (Z.ltb_spec (j + s) 64); rewrite load_word_bits by lia;
    cases_cmp; f_equal; lia.
Qed.

Lemma is_word_BitOp c a b : is_word a -> is_word b -> is_word (BitOp c a b).
Proof.
  intros Ha Hb j Hj. destruct c; cbn [BitOp];
    rewrite ?Z.land_spec, ?Z.lor_spec, ?Z.lxor_spec, Ha, Hb by lia; reflexivity.
Qed.

Lemma BitOp_bits c a b j :
  Z.testbit (BitOp c a b) j = LogicalOp c (Z.testbit a j) (Z.testbit b j).
Proof.
  destruct c; cbn [BitOp LogicalOp];
    [apply Z.land_spec|apply Z.lor_spec|apply Z.lxor_spec].
Qed.

(** The offset-splitting store writes the 64 bits of [word] at bit
    position [8 * p + k] and nothing else; the word it returns is the one
    now in memory at [p + 8]. *)
Lemma split_store_bits mem p k current word :
  0 < k < 8 -> is_word word ->
  (forall j, 0 <= j < k -> Z.testbit current j = bit mem (8 * p + j)) ->
  (forall i,
     bit (fst (split_store mem p k (low_mask k) current word)) i =
     if (8 * p + k <=? i) && (i <? 8 * p + k + 64)
     then Z.testbit word (i - (8 * p + k)) else bit mem i) /\
  (forall j, 0 <= j < 64 ->
     Z.testbit (snd (split_store mem p k (low_mask k) current word)) j =
     bit (fst (split_store mem p k (low_mask k) current word)) (8 * (p + 8) + j)).
Proof.
  intros Hk Hw Hcur. unfold split_store. cbn [fst snd]. split.
  - intros i. rewrite !write_word_bits.
    destruct (Z.leb_spec (8 * (p + 8)) i); destruct (Z.ltb_spec i (8 * (p + 8) + 64));
      cbn [andb]; try lia.
    + rewrite Z.lor_spec, !Z.land_spec, not_mask_bits, low_mask_bits by lia.
      rewrite Z.lor_spec, testbit_u64, Z.shiftl_spec, Z.shiftr_spec by lia.
      rewrite load_word_bits by lia.
      cases_cmp; dead_bits; f_equal; lia.
    + cases_cmp.
    + destruct (Z.leb_spec (8 * p) i); destruct (Z.ltb_spec i (8 * p + 64));
        cbn [andb]; try lia.
      * rewrite Z.lor_spec, !Z.land_spec, not_mask_bits, low_mask_bits by lia.
        rewrite Z.lor_spec, testbit_u64, Z.shiftl_spec, Z.shiftr_spec by lia.
        cases_cmp; rewrite ?Hcur by lia;
          repeat match goal with
            | |- context [Z.testbit word ?j] => rewrite (Hw j) by lia
            end;
          dead_bits; f_equal; lia.
      * cases_cmp.
  - intros j Hj. rewrite write_word_bits.
    replace ((8 * (p + 8) <=? 8 * (p + 8) + j) && (8 * (p + 8) + j <? 8 * (p + 8) + 64))
      with true by (symmetry; apply andb_true_iff; split;
                    [apply Z.leb_le|apply Z.ltb_lt]; lia).
    f_equal. lia.
Qed.

(** * The sequential reader *)

Lemma next_div8 x : (x + 1) mod 8 <> 0 -> (x + 1) / 8 = x / 8 /\ (x + 1) mod 8 = x mod 8 + 1.
Proof. intros. Z.div_mod_to_equations. lia. Qed.

Lemma next_div8_carry x : (x + 1) mod 8 = 0 -> (x + 1) / 8 = x / 8 + 1 /\ x mod 8 = 7.
Proof. intros. Z.div_mod_to_equations. lia. Qed.

Lemma mod8_succ_cases x :
  (x mod 8 + 1 = 8 /\ (x + 1) mod 8 = 0) \/ (x mod 8 + 1 <> 8 /\ (x + 1) mod 8 <> 0).
Proof. Z.div_mod_to_equations. lia. Qed.

Section Reader.

(** A reader over the [len] bits that start [start] bits after byte [ptr]
    of [data]. *)
Variables (data : buffer) (ptr start len : Z).

Lemma reader_init :
  0 <= start -> reader_at (Reader data ptr start len) data ptr start len 0.
Proof.
  intros Hs. unfold reader_at, Reader. cbn.
  rewrite Z.add_0_r, quot_div8, rem_mod8 by lia.
  repeat split. intros Hl.
  replace (0 <? len) with true by (symmetry; apply Z.ltb_lt; lia). reflexivity.
Qed.

Lemma reader_IsSet r k :
  reader_at r data ptr start len k -> k < len ->
  IsSet r = bit data (8 * ptr + (start + k)).
Proof.
  intros (Hb & Hp & Hl & Hpos & Hbo & Hbi & Hc) Hk.
  assert (0 <= (start + k) mod 8 < 8) by (apply Z.mod_pos_bound; lia).
  unfold IsSet. rewrite land_mask_testbit by lia.
  rewrite Hc, Hbi, testbit_u8 by lia.
  unfold bit. rewrite pos_div8, pos_mod8.
  replace ((start + k) mod 8 <? 8) with true by (symmetry; apply Z.ltb_lt; lia).
  reflexivity.
Qed.

Lemma reader_Next r k :
  reader_at r data ptr start len k ->
  reader_at (ReaderNext r) data ptr start len (k + 1).
Proof.
  intros (Hb & Hp & Hl & Hpos & Hbo & Hbi & Hc).
  unfold reader_at, ReaderNext. rewrite Hbi.
  replace (start + (k + 1)) with (start + k + 1) by lia.
  destruct (mod8_succ_cases (start + k)) as [[He Hz]|[Hne Hnz]].
  - destruct (next_div8_carry _ Hz) as [Hd _].
    rewrite He. cbn. rewrite Hb, Hp, Hl, Hpos, Hbo, Hd, Hz.
    repeat split.
    all: intros Hlt;
      replace (k + 1 <? len) with true by (symmetry; apply Z.ltb_lt; lia); reflexivity.
  - destruct (next_div8 _ Hnz) as [Hd Hm].
    replace ((start + k) mod 8 + 1 =? 8) with false by (symmetry; apply Z.eqb_neq; lia).
    cbn. rewrite Hd, Hm. repeat split; try assumption; lia.
Qed.

End Reader.

(** * The sequential writer *)

Lemma bit_store_same b q i : bit (store b q (u8 (b q))) i = bit b i.
Proof.
  rewrite bit_store. destruct (Z.eqb_spec (i / 8) q) as [<-|]; [|reflexivity].
  rewrite testbit_u8. unfold bit.
  assert (0 <= i mod 8 < 8) by (apply Z.mod_pos_bound; lia).
  replace (i mod 8 <? 8) with true by (symmetry; apply Z.ltb_lt; lia). reflexivity.
Qed.

Lemma writer_Finish w : 0 < w_length w -> w_bitmap (Finish w) = writer_view w.
Proof.
  intros Hl. unfold Finish, writer_view.
  replace (0 <? w_length w) with true by (symmetry; apply Z.ltb_lt; lia).
  cbn [andb]. rewrite orb_comm.
  destruct ((w_position w <? w_length w) || negb (w_bit_mask w =? 1)); reflexivity.
Qed.

Lemma next_mask m :
  0 <= m < 8 -> u8 (Z.shiftl (2 ^ m) 1) = if m =? 7 then 0 else 2 ^ (m + 1).
Proof.
  intros Hm.
  assert (Hc : m = 0 \/ m = 1 \/ m = 2 \/ m = 3 \/ m = 4 \/ m = 5 \/ m = 6 \/ m = 7) by lia.
  repeat (destruct Hc as [->|Hc]; [reflexivity|]). subst m. reflexivity.
Qed.

Lemma mask_not_one m : 0 <= m -> 2 ^ (m + 1) <> 1.
Proof.
  intros Hm. replace (m + 1) with (Z.succ m) by lia. rewrite Z.pow_succ_r by lia.
  assert (0 < 2 ^ m) by (apply Z.pow_pos_nonneg; lia). lia.
Qed.

(** What [Set] and [Clear] do to the pending byte. *)
Lemma put_bit_bits (v : bool) cur m j :
  0 <= m < 8 -> 0 <= j < 8 ->
  Z.testbit (if v then Z.lor cur (2 ^ m) else Z.land cur (Z.lxor (2 ^ m) 255)) j =
  if j =? m then v else Z.testbit cur j.
Proof.
  intros Hm Hj. destruct v.
  - rewrite Z.lor_spec, Z.pow2_bits_eqb by lia.
    rewrite (Z.eqb_sym m j). destruct (j =? m); [apply orb_true_r|apply orb_false_r].
  - rewrite Z.land_spec, Z.lxor_spec, Z.pow2_bits_eqb by lia.
    change 255 with (Z.ones 8). rewrite Z.ones_spec_low by lia.
    rewrite (Z.eqb_sym m j). destruct (j =? m); cbn; [apply andb_false_r|apply andb_true_r].
Qed.

Section Writer.

(** A writer of the [len] bits [f 0], [f 1], ... at the position [start]
    bits after byte [ptr] of a destination that holds [orig]. *)
Variables (orig : buffer) (f : Z -> bool) (ptr start len : Z).

Lemma writer_init :
  0 <= start -> 0 < len ->
  writer_at (Writer orig ptr start len) orig f ptr start len 0.
Proof.
  intros Hs Hl. unfold writer_at, writer_view, Writer, BitUtil.kBitmask. cbn.
  rewrite Z.add_0_r, quot_div8, rem_mod8, Z.shiftl_1_l by lia.
  repeat split. intros i.
  replace (0 <? len) with true by (symmetry; apply Z.ltb_lt; lia). cbn [orb].
  rewrite bit_store_same. cases_cmp.
Qed.

Lemma writer_put w k (v : bool) :
  writer_at w orig f ptr start len k ->
  0 <= start + k -> 0 <= k < len -> f k = v ->
  writer_at (WriterNext (if v then WriterSet w else WriterClear w))
    orig f ptr start len (k + 1).
Proof.
  intros (Hp & Hl & Hpos & Hbo & Hmask & Hview) Hsk Hk Hf.
  set (m := (start + k) mod 8) in *.
  assert (Hm : 0 <= m < 8) by (apply Z.mod_pos_bound; lia).
  set (B := 8 * ptr + start) in *.
  set (cur' := if v then Z.lor (w_current_byte w) (2 ^ m)
               else Z.land (w_current_byte w) (Z.lxor (2 ^ m) 255)).
  (* the destination once the pending byte is stored *)
  assert (Hput : forall i,
    bit (store (w_bitmap w) (ptr + (start + k) / 8) cur') i =
    if (B <=? i) && (i <? B + (k + 1)) then f (i - B) else bit orig i).
  { intros i. specialize (Hview i). unfold writer_view in Hview.
    rewrite Hpos, Hl, Hp, Hbo in Hview.
    replace (k <? len) with true in Hview by (symmetry; apply Z.ltb_lt; lia).
    cbn [orb] in Hview. rewrite bit_store in Hview |- *.
    assert (Hi : 0 <= i mod 8 < 8) by (apply Z.mod_pos_bound; lia).
    assert (HBk : (B + k) / 8 = ptr + (start + k) / 8 /\ (B + k) mod 8 = m).
    { unfold B, m. replace (8 * ptr + start + k) with (8 * ptr + (start + k)) by lia.
      rewrite pos_div8, pos_mod8. split; reflexivity. }
    destruct HBk as [HBd HBm].
    destruct (Z.eqb_spec (i / 8) (ptr + (start + k) / 8)) as [He|Hne].
    - unfold cur'. rewrite put_bit_bits by lia.
      destruct (Z.eqb_spec (i mod 8) m) as [Hem|Hnm].
      + assert (i = B + k) by (apply bit_ext_pos; congruence). subst i.
        replace (B + k - B) with k by lia. cases_cmp. symmetry; exact Hf.
      + rewrite Hview. cases_cmp. exfalso. apply Hnm.
        assert (i = B + k) by lia. subst i. exact HBm.
    - rewrite Hview. cases_cmp. exfalso. apply Hne.
      assert (i = B + k) by lia. subst i. exact HBd. }
  assert (Hw1 : WriterNext (if v then WriterSet w else WriterClear w) =
    let bit_mask := u8 (Z.shiftl (2 ^ m) 1) in
    if bit_mask =? 0 then
      let bitmap := store (w_bitmap w) (ptr + (start + k) / 8) cur' in
      mkWriter bitmap ptr (k + 1) len
        (if k + 1 <? len then u8 (bitmap (ptr + ((start + k) / 8 + 1))) else cur')
        1 ((start + k) / 8 + 1)
    else mkWriter (w_bitmap w) ptr (k + 1) len cur' bit_mask ((start + k) / 8)).
  { unfold cur'. destruct v; unfold WriterNext, WriterSet, WriterClear; cbn;
      rewrite Hp, Hl, Hpos, Hbo, Hmask; reflexivity. }
  rewrite Hw1. clear Hw1. cbv zeta. rewrite next_mask by lia.
  unfold writer_at.
  replace (start + (k + 1)) with (start + k + 1) by lia.
  destruct (Z.eqb_spec m 7) as [H7|H7].
  - assert (Hz : (start + k + 1) mod 8 = 0) by (unfold m in H7; Z.div_mod_to_equations; lia).
    destruct (next_div8_carry _ Hz) as [Hd _].
    rewrite Z.eqb_refl. cbn [w_ptr w_length w_position w_byte_offset w_bit_mask].
    rewrite Hd, Hz. repeat split. intros i.
    unfold writer_view.
    cbn [w_ptr w_length w_position w_byte_offset w_bit_mask w_bitmap w_current_byte].
    rewrite Z.eqb_refl. cbn [negb]. rewrite orb_false_r.
    destruct (k + 1 <? len); [rewrite bit_store_same|]; apply Hput.
  - assert (Hnz : (start + k + 1) mod 8 <> 0) by (unfold m in H7; Z.div_mod_to_equations; lia).
    destruct (next_div8 _ Hnz) as [Hd Hm1]. fold m in Hm1.
    assert (H0 : 2 ^ (m + 1) <> 0) by (apply Z.pow_nonzero; lia).
    replace (2 ^ (m + 1) =? 0) with false by (symmetry; apply Z.eqb_neq; exact H0).
    cbn [w_ptr w_length w_position w_byte_offset w_bit_mask].
    rewrite Hd, Hm1. repeat split. intros i.
    unfold writer_view.
    cbn [w_ptr w_length w_position w_byte_offset w_bit_mask w_bitmap w_current_byte].
    replace (2 ^ (m + 1) =? 1) with false
      by (symmetry; apply Z.eqb_neq; apply mask_not_one; lia).
    cbn [negb]. rewrite orb_true_r. apply Hput.
Qed.

Lemma writer_closed w :
  0 < len -> writer_at w orig f ptr start len len ->
  forall i,
    bit (w_bitmap (Finish w)) i =
    if (8 * ptr + start <=? i) && (i <? 8 * ptr + start + len)
    then f (i - (8 * ptr + start)) else bit orig i.
Proof.
  intros Hl (Hp & Hlen & Hpos & Hbo & Hmask & Hview) i.
  rewrite writer_Finish by lia. apply Hview.
Qed.

Lemma writer_empty :
  len <= 0 -> w_bitmap (Finish (Writer orig ptr start len)) = orig.
Proof.
  intros Hl. unfold Finish, Writer. cbn [w_length w_bitmap].
  replace (0 <? len) with false by (symmetry; apply Z.ltb_ge; lia). reflexivity.
Qed.

End Writer.

(** * The bit-at-a-time loops *)

Lemma transfer_bits_spec inv data rp rs dest wp ws len :
  0 <= rs -> 0 <= ws -> 0 <= len ->
  forall i,
    bit (w_bitmap (Finish (snd (for_range (Z.to_nat len) 0 (fun _ => transfer_bit inv)
                                  (Reader data rp rs len, Writer dest wp ws len))))) i =
    if (8 * wp + ws <=? i) && (i <? 8 * wp + ws + len)
    then xorb inv (bit data (8 * rp + rs + (i - (8 * wp + ws)))) else bit dest i.
Proof.
  intros Hrs Hws Hlen i.
  destruct (Z.eq_dec len 0) as [->|Hne].
  - cbn [Z.to_nat for_range snd]. rewrite writer_empty by lia. cases_cmp.
  - set (f := fun j => xorb inv (bit data (8 * rp + rs + j))).
    pose (P := fun (j : Z) (s : BitmapReader * BitmapWriter) =>
                 0 <= j /\ reader_at (fst s) data rp rs len j /\
                 writer_at (snd s) dest f wp ws len j).
    assert (HP : P (0 + Z.of_nat (Z.to_nat len))
                   (for_range (Z.to_nat len) 0 (fun _ => transfer_bit inv)
                      (Reader data rp rs len, Writer dest wp ws len))).
    { apply (for_range_ind P).
      - unfold P. cbn [fst snd]. split; [lia|]. split.
        + apply reader_init; lia.
        + apply writer_init; lia.
      - intros j [r w] Hj (Hj0 & Hr & Hw). unfold P, transfer_bit. cbn [fst snd] in *.
        split; [lia|]. split.
        + apply reader_Next; assumption.
        + apply writer_put; try assumption; try lia.
          unfold f. rewrite (reader_IsSet _ _ _ _ _ _ Hr) by lia.
          do 2 f_equal. lia. }
    replace (0 + Z.of_nat (Z.to_nat len)) with len in HP by lia. destruct HP as (_ & _ & Hw).
    assert (Hpos : 0 < len) by lia.
    rewrite (writer_closed _ _ _ _ _ _ Hpos Hw). reflexivity.
Qed.

Lemma binop_bits_spec c left lp ls right rp rs out wp ws len :
  0 <= ls -> 0 <= rs -> 0 <= ws -> 0 <= len ->
  forall i,
    bit (w_bitmap (Finish (snd (for_range (Z.to_nat len) 0 (fun _ => binop_bit c)
           (Reader left lp ls len, Reader right rp rs len, Writer out wp ws len))))) i =
    if (8 * wp + ws <=? i) && (i <? 8 * wp + ws + len)
    then LogicalOp c (bit left (8 * lp + ls + (i - (8 * wp + ws))))
           (bit right (8 * rp + rs + (i - (8 * wp + ws))))
    else bit out i.
Proof.
  intros Hls Hrs Hws Hlen i.
  destruct (Z.eq_dec len 0) as [->|Hne].
  - cbn [Z.to_nat for_range snd]. rewrite writer_empty by lia. cases_cmp.
  - set (f := fun j => LogicalOp c (bit left (8 * lp + ls + j)) (bit right (8 * rp + rs + j))).
    pose (P := fun (j : Z) (s : BitmapReader * BitmapReader * BitmapWriter) =>
                 0 <= j /\ reader_at (fst (fst s)) left lp ls len j /\
                 reader_at (snd (fst s)) right rp rs len j /\
                 writer_at (snd s) out f wp ws len j).
    assert (HP : P (0 + Z.of_nat (Z.to_nat len))
                   (for_range (Z.to_nat len) 0 (fun _ => binop_bit c)
                      (Reader left lp ls len, Reader right rp rs len,
                       Writer out wp ws len))).
    { apply (for_range_ind P).
      - unfold P. cbn [fst snd]. split; [lia|].
        split; [apply reader_init; lia|].
        split; [apply reader_init; lia|apply writer_init; lia].
      - intros j [[l r] w] Hj (Hj0 & Hl & Hr & Hw). unfold P, binop_bit. cbn [fst snd] in *.
        split; [lia|]. split; [|split].
        + apply reader_Next; assumption.
        + apply reader_Next; assumption.
        + apply writer_put; try assumption; try lia.
          unfold f. rewrite (reader_IsSet _ _ _ _ _ _ Hl), (reader_IsSet _ _ _ _ _ _ Hr) by lia.
          f_equal; f_equal; lia. }
    replace (0 + Z.of_nat (Z.to_nat len)) with len in HP by lia. destruct HP as (_ & _ & _ & Hw).
    assert (Hpos : 0 < len) by lia.
    rewrite (writer_closed _ _ _ _ _ _ Hpos Hw). reflexivity.
Qed.

(** * The transfer kernel *)

Lemma invert_word_bits (inv : bool) word j :
  is_word word -> 0 <= j < 64 ->
  Z.testbit (if inv then u64 (Z.lnot word) else word) j = xorb inv (Z.testbit word j).
Proof.
  intros Hw Hj. destruct inv; cbn [xorb]; [|reflexivity].
  rewrite testbit_u64, Z.lnot_spec by lia. cases_cmp.
Qed.

Lemma is_word_invert (inv : bool) word :
  is_word word -> is_word (if inv then u64 (Z.lnot word) else word).
Proof. intros Hw. destruct inv; [apply is_word_u64|exact Hw]. Qed.

(** One round of the word loop moves 64 bits and keeps the loop's
    relation between the running words and memory. *)
Lemma transfer_word_spec inv data bo dbo s :
  0 <= bo < 8 -> 0 <= dbo < 8 ->
  t_data_current s = load_word data (t_data s) ->
  (forall b, 0 <= b < dbo ->
     Z.testbit (t_dest_current s) b = bit (t_mem s) (8 * t_dest s + b)) ->
  let s' := transfer_word inv data bo dbo (low_mask dbo) s in
  t_data s' = t_data s + 8 /\
  t_data_current s' = load_word data (t_data s') /\
  t_dest s' = t_dest s + 8 /\
  (forall b, 0 <= b < dbo ->
     Z.testbit (t_dest_current s') b = bit (t_mem s') (8 * t_dest s' + b)) /\
  (forall i,
     bit (t_mem s') i =
     if (8 * t_dest s + dbo <=? i) && (i <? 8 * t_dest s + dbo + 64)
     then xorb inv (bit data (8 * t_data s + bo + (i - (8 * t_dest s + dbo))))
     else bit (t_mem s) i).
Proof.
  intros Hbo Hdbo Hcur Hdest. unfold transfer_word.
  set (word := shift_word (t_data_current s) (load_word data (t_data s + 8)) bo).
  set (word' := if inv then u64 (Z.lnot word) else word).
  assert (Hw : is_word word).
  { unfold word. apply is_word_shift; [rewrite Hcur; apply is_word_load|lia]. }
  assert (Hw' : is_word word') by (apply is_word_invert; exact Hw).
  assert (Hbits : forall j, 0 <= j < 64 ->
            Z.testbit word' j = xorb inv (bit data (8 * t_data s + bo + j))).
  { intros j Hj. unfold word'. rewrite invert_word_bits by assumption.
    unfold word. rewrite Hcur, shift_word_load by lia. reflexivity. }
  destruct (Z.eqb_spec dbo 0) as [Hz|Hnz]; cbn [negb].
  - cbn [t_data t_data_current t_dest t_dest_current t_mem].
    repeat split; try reflexivity.
    + intros b Hb. lia.
    + intros i. rewrite write_word_bits. subst dbo.
      replace (8 * t_dest s + 0) with (8 * t_dest s) by lia.
      destruct ((8 * t_dest s <=? i) && (i <? 8 * t_dest s + 64)) eqn:E; [|reflexivity].
      apply andb_true_iff in E. destruct E as [E1 E2].
      apply Z.leb_le in E1. apply Z.ltb_lt in E2.
      apply Hbits. lia.
  - destruct (split_store_bits (t_mem s) (t_dest s) dbo (t_dest_current s) word'
                ltac:(lia) Hw' Hdest) as [Hmem Hnext].
    destruct (split_store (t_mem s) (t_dest s) dbo (low_mask dbo) (t_dest_current s) word')
      as [mem next] eqn:E.
    cbn [fst snd] in Hmem, Hnext.
    cbn [t_data t_data_current t_dest t_dest_current t_mem].
    repeat split; try reflexivity.
    + intros b Hb. apply Hnext. lia.
    + intros i. rewrite Hmem.
      destruct ((8 * t_dest s + dbo <=? i) && (i <? 8 * t_dest s + dbo + 64)) eqn:E';
        [|reflexivity].
      apply andb_true_iff in E'. destruct E' as [E1 E2].
      apply Z.leb_le in E1. apply Z.ltb_lt in E2.
      apply Hbits. lia.
Qed.

(** The byte-wise loop of the aligned path. *)
Lemma transfer_bytes_spec (inv : bool) data bo dest dp (n : nat) :
  forall i,
    bit (for_range n 0
           (fun i d =>
              store d (dp + i)
                (if inv then u8 (Z.lnot (u8 (data (bo + i)))) else u8 (data (bo + i))))
           dest) i =
    if (8 * dp <=? i) && (i <? 8 * dp + 8 * Z.of_nat n)
    then xorb inv (bit data (8 * bo + (i - 8 * dp))) else bit dest i.
Proof.
  pose (P := fun (j : Z) (d : buffer) =>
    0 <= j /\
    forall i, bit d i =
      if (8 * dp <=? i) && (i <? 8 * dp + 8 * j)
      then xorb inv (bit data (8 * bo + (i - 8 * dp))) else bit dest i).
  assert (HP : P (0 + Z.of_nat n)
    (for_range n 0
       (fun i d =>
          store d (dp + i)
            (if inv then u8 (Z.lnot (u8 (data (bo + i)))) else u8 (data (bo + i))))
       dest)).
  { apply (for_range_ind P).
    - unfold P. split; [lia|]. intros i. cases_cmp.
    - intros j d Hj [Hj0 Hd]. unfold P. split; [lia|]. intros i.
      rewrite bit_store. specialize (Hd i).
      assert (Hm : 0 <= i mod 8 < 8) by (apply Z.mod_pos_bound; lia).
      assert (Hi : i = 8 * (i / 8) + i mod 8) by (apply Z.div_mod; lia).
      destruct (Z.eqb_spec (i / 8) (dp + j)) as [He|Hne].
      + replace ((8 * dp <=? i) && (i <? 8 * dp + 8 * (j + 1))) with true
          by (symmetry; apply andb_true_iff; split; [apply Z.leb_le|apply Z.ltb_lt]; lia).
        assert (Hb : bit data (8 * bo + (i - 8 * dp)) = Z.testbit (data (bo + j)) (i mod 8)).
        { unfold bit. replace (8 * bo + (i - 8 * dp)) with (8 * (bo + j) + i mod 8) by lia.
          rewrite pos_div8, pos_mod8, Z.div_small, Z.mod_small by lia.
          replace (bo + j + 0) with (bo + j) by lia. reflexivity. }
        rewrite Hb. destruct inv; cbn [xorb].
        * rewrite testbit_u8, Z.lnot_spec, testbit_u8 by lia. cases_cmp.
        * rewrite testbit_u8. cases_cmp.
      + rewrite Hd. cases_cmp. }
  replace (0 + Z.of_nat n) with (Z.of_nat n) in HP by lia. exact (proj2 HP).
Qed.

Lemma transfer_bytes_merge (inv : bool) data bo dest dp n :
  (if inv
   then for_range (Z.to_nat n) 0
          (fun i d => store d (dp + i) (u8 (Z.lnot (u8 (data (bo + i)))))) dest
   else memcpy dest dp data bo n)
  = for_range (Z.to_nat n) 0
      (fun i d =>
         store d (dp + i)
           (if inv then u8 (Z.lnot (u8 (data (bo + i)))) else u8 (data (bo + i))))
      dest.
Proof. destruct inv; reflexivity. Qed.

(** The loop that puts the saved trailing bits back. *)
Lemma restore_bits_spec trail d0 dp length (n : nat) tb :
  Z.of_nat n = tb -> 0 <= tb <= 8 ->
  forall i,
    bit (for_range n 0
           (fun i d =>
              if BitUtil.GetBit (fun _ => trail) 0 (i + 8 - tb)
              then BitUtil.SetBit d dp (length + i)
              else BitUtil.ClearBit d dp (length + i))
           d0) i =
    if (8 * dp + length <=? i) && (i <? 8 * dp + length + tb)
    then Z.testbit (u8 trail) (i - (8 * dp + length) + 8 - tb) else bit d0 i.
Proof.
  intros Hn Htb.
  pose (P := fun (j : Z) (d : buffer) =>
    0 <= j /\
    forall i, bit d i =
      if (8 * dp + length <=? i) && (i <? 8 * dp + length + j)
      then Z.testbit (u8 trail) (i - (8 * dp + length) + 8 - tb) else bit d0 i).
  assert (HP : P (0 + Z.of_nat n)
    (for_range n 0
       (fun i d =>
          if BitUtil.GetBit (fun _ => trail) 0 (i + 8 - tb)
          then BitUtil.SetBit d dp (length + i)
          else BitUtil.ClearBit d dp (length + i))
       d0)).
  { apply (for_range_ind P).
    - unfold P. split; [lia|]. intros i. cases_cmp.
    - intros j d Hj [Hj0 Hd]. unfold P. split; [lia|]. intros i.
      assert (Hg : BitUtil.GetBit (fun _ => trail) 0 (j + 8 - tb)
                   = Z.testbit (u8 trail) (j + 8 - tb)).
      { rewrite GetBit_bit. unfold bit. rewrite testbit_u8.
        replace (8 * 0 + (j + 8 - tb)) with (j + 8 - tb) by lia.
        rewrite Z.mod_small by lia. cases_cmp. }
      rewrite Hg.
      destruct (Z.testbit (u8 trail) (j + 8 - tb)) eqn:E;
        rewrite ?bit_SetBit, ?bit_ClearBit, Hd;
        destruct (Z.eqb_spec i (8 * dp + (length + j))) as [->|Hne].
      + replace (8 * dp + (length + j) - (8 * dp + length) + 8 - tb) with (j + 8 - tb) by lia.
        rewrite E. cases_cmp.
      + cases_cmp.
      + replace (8 * dp + (length + j) - (8 * dp + length) + 8 - tb) with (j + 8 - tb) by lia.
        rewrite E. cases_cmp.
      + cases_cmp. }
  replace (0 + Z.of_nat n) with tb in HP by lia. exact (proj2 HP).
Qed.

Lemma byte_testbit (b : buffer) q k : 0 <= k < 8 -> Z.testbit (b q) k = bit b (8 * q + k).
Proof.
  intros Hk. unfold bit. rewrite pos_div8, pos_mod8, Z.div_small, Z.mod_small by lia.
  replace (q + 0) with q by lia. reflexivity.
Qed.

Section Transfer.

(** A transfer, inverting or not, of the view [(data, offset)] to
    [dest_offset] in a destination that holds [dest]. *)
Variables (inv : bool) (data : buffer) (offset : Z) (dest : buffer) (dest_offset : Z).
Hypotheses (Ho : 0 <= offset) (Hd : 0 <= dest_offset).

Lemma transfer_words_spec (n : nat) :
  transfer_words_at inv data offset dest dest_offset (Z.of_nat n)
    (for_range n 0
       (fun _ => transfer_word inv data (offset mod 8) (dest_offset mod 8)
                   (low_mask (dest_offset mod 8)))
       (mkTransfer (offset / 8) (load_word data (offset / 8))
          (dest_offset / 8) (load_word dest (dest_offset / 8)) dest)).
Proof.
  assert (Hbo : 0 <= offset mod 8 < 8) by (apply Z.mod_pos_bound; lia).
  assert (Hdbo : 0 <= dest_offset mod 8 < 8) by (apply Z.mod_pos_bound; lia).
  assert (Hoff : offset = 8 * (offset / 8) + offset mod 8) by (apply Z.div_mod; lia).
  assert (Hdoff : dest_offset = 8 * (dest_offset / 8) + dest_offset mod 8)
    by (apply Z.div_mod; lia).
  pose (P := fun j s => 0 <= j /\ transfer_words_at inv data offset dest dest_offset j s).
  assert (HP : P (0 + Z.of_nat n)
                 (for_range n 0
                    (fun _ => transfer_word inv data (offset mod 8) (dest_offset mod 8)
                                (low_mask (dest_offset mod 8)))
                    (mkTransfer (offset / 8) (load_word data (offset / 8))
                       (dest_offset / 8) (load_word dest (dest_offset / 8)) dest))).
  { apply (for_range_ind P).
    - unfold P, transfer_words_at.
      cbn [t_data t_data_current t_dest t_dest_current t_mem].
      split; [lia|]. split; [lia|]. split; [reflexivity|]. split; [lia|]. split.
      + intros b Hb. rewrite load_word_bits by lia.
        replace (b <? 64) with true by (symmetry; apply Z.ltb_lt; lia).
        cbn [andb]. f_equal; lia.
      + intros i. cases_cmp.
    - intros j s Hj (Hj0 & Hdata & Hcur & Hdest & Hlow & Hmem).
      destruct (transfer_word_spec inv data _ _ s Hbo Hdbo Hcur Hlow)
        as (Hdata' & Hcur' & Hdest' & Hlow' & Hmem').
      unfold P, transfer_words_at. split; [lia|].
      split; [lia|]. split; [exact Hcur'|]. split; [lia|]. split; [exact Hlow'|].
      intros i. rewrite Hmem', Hmem, Hdata, Hdest.
      cases_cmp; do 2 f_equal; lia. }
  replace (0 + Z.of_nat n) with (Z.of_nat n) in HP by lia. exact (proj2 HP).
Qed.

(** Every bit of the destination after a transfer: the [length] bits at
    [dest_offset] are the (inverted) source bits; on the byte-wise path
    without restoring, the rest of the last byte holds (inverted) source
    bits as well; every other bit is the one of [dest]. *)
Lemma TransferBitmap_bits restore length :
  0 <= length ->
  forall i,
    bit (TransferBitmap inv restore data offset length dest_offset dest) i =
    if (dest_offset <=? i) && (i <? dest_offset + length)
    then xorb inv (bit data (offset + (i - dest_offset)))
    else if byte_aligned offset dest_offset && negb restore
            && (dest_offset <=? i)
            && (i <? dest_offset + 8 * BitUtil.BytesForBits length)
    then xorb inv (bit data (offset + (i - dest_offset)))
    else bit dest i.
Proof.
  intros Hl i.
  assert (Hbo : 0 <= offset mod 8 < 8) by (apply Z.mod_pos_bound; lia).
  assert (Hdbo : 0 <= dest_offset mod 8 < 8) by (apply Z.mod_pos_bound; lia).
  assert (Hoff : offset = 8 * (offset / 8) + offset mod 8) by (apply Z.div_mod; lia).
  assert (Hdoff : dest_offset = 8 * (dest_offset / 8) + dest_offset mod 8)
    by (apply Z.div_mod; lia).
  unfold TransferBitmap, byte_aligned. cbv zeta.
  rewrite !quot_div8, !rem_mod8, quot_div64, BytesForBits_div by lia.
  destruct (negb (offset mod 8 =? 0) || negb (dest_offset mod 8 =? 0)) eqn:Hpath.
  - (* general path *)
    assert (Hal : (offset mod 8 =? 0) && (dest_offset mod 8 =? 0) = false).
    { destruct (offset mod 8 =? 0); destruct (dest_offset mod 8 =? 0);
        try reflexivity; discriminate. }
    rewrite Hal. cbn [andb].
    destruct (Z.ltb_spec 1 (length / 64)) as [Hw|Hw].
    + pose proof (transfer_words_spec (Z.to_nat (length / 64 - 1))) as Hs.
      set (s := for_range (Z.to_nat (length / 64 - 1)) 0 _ _) in *.
      destruct Hs as (Hdata & _ & Hdest & _ & Hmem).
      rewrite Z2Nat.id in Hdata, Hdest, Hmem by lia.
      assert (Hlen : 64 * (length / 64) <= length)
        by (apply Z.mul_div_le; lia).
      pose proof (transfer_bits_spec inv data (t_data s) (offset mod 8)
                    (t_mem s) (t_dest s) (dest_offset mod 8)
                    (length - (length / 64 - 1) * 64)
                    ltac:(lia) ltac:(lia) ltac:(lia) i) as Hb.
      destruct (for_range (Z.to_nat (length - (length / 64 - 1) * 64)) 0 _ _) as [r w].
      cbn [snd] in Hb. rewrite Hb, Hmem, Hdata, Hdest.
      cases_cmp; do 2 f_equal; lia.
    + pose proof (transfer_bits_spec inv data (offset / 8) (offset mod 8)
                    dest (dest_offset / 8) (dest_offset mod 8) length
                    ltac:(lia) ltac:(lia) ltac:(lia) i) as Hb.
      destruct (for_range (Z.to_nat length) 0 _ _) as [r w].
      cbn [snd] in Hb. rewrite Hb.
      cases_cmp; do 2 f_equal; lia.
  - (* byte-wise path *)
    assert (Hz : offset mod 8 = 0 /\ dest_offset mod 8 = 0).
    { destruct (Z.eqb_spec (offset mod 8) 0); destruct (Z.eqb_spec (dest_offset mod 8) 0);
        try discriminate. split; assumption. }
    destruct Hz as [Hz1 Hz2]. rewrite Hz1, Hz2. cbn [Z.eqb andb].
    assert (Hnb : 0 <= (length + 7) / 8) by (apply Z.div_pos; lia).
    assert (Htb : 0 <= (length + 7) / 8 * 8 - length < 8)
      by (Z.div_mod_to_equations; lia).
    set (nb := (length + 7) / 8) in *.
    destruct restore; cbn [negb andb].
    + rewrite (restore_bits_spec _ _ _ _ _ (nb * 8 - length)) by lia.
      rewrite transfer_bytes_merge, transfer_bytes_spec. rewrite Z2Nat.id by lia.
      destruct (Z.eqb_spec (nb * 8 - length) 0) as [Ht|Ht]; cbn [negb andb].
      * cases_cmp; do 2 f_equal; lia.
      * rewrite !testbit_u8.
        cases_cmp; try (do 2 f_equal; lia).
        rewrite byte_testbit by lia. f_equal. lia.
    + rewrite transfer_bytes_merge, transfer_bytes_spec. rewrite Z2Nat.id by lia.
      cases_cmp; do 2 f_equal; lia.
Qed.

End Transfer.

(** * Equality *)

Lemma u8_eq_bits x y :
  u8 x = u8 y <-> (forall j, 0 <= j < 8 -> Z.testbit x j = Z.testbit y j).
Proof.
  split.
  - intros H j Hj.
    assert (Hx : Z.testbit (u8 x) j = Z.testbit (u8 y) j) by (rewrite H; reflexivity).
    rewrite !testbit_u8 in Hx. revert Hx. cases_cmp. auto.
  - intros H. apply Z.bits_inj'. intros j Hj. rewrite !testbit_u8.
    destruct (Z.ltb_spec j 8); cbn [andb]; [apply H; lia|reflexivity].
Qed.

Lemma memcmp_spec :
  forall (n : nat) a ap b bp,
    memcmp n a ap b bp = 0 <->
    (forall i, 0 <= i < 8 * Z.of_nat n -> bit a (8 * ap + i) = bit b (8 * bp + i)).
Proof.
  induction n as [|n IH]; intros a ap b bp.
  - cbn [memcmp]. split; [intros _ i Hi; lia|reflexivity].
  - cbn [memcmp].
    assert (Hbyte : u8 (a ap) = u8 (b bp) <->
              forall i, 0 <= i < 8 -> bit a (8 * ap + i) = bit b (8 * bp + i)).
    { rewrite u8_eq_bits. split; intros H j Hj.
      - rewrite <- !byte_testbit by lia. apply H; lia.
      - rewrite !byte_testbit by lia. apply H; lia. }
    destruct (Z.eqb_spec (u8 (a ap) - u8 (b bp)) 0) as [He|Hne].
    + rewrite IH. split; intros H i Hi.
      * destruct (Z.lt_ge_cases i 8) as [Hlt|Hge].
        -- apply Hbyte; [lia|lia].
        -- specialize (H (i - 8) ltac:(lia)).
           replace (8 * (ap + 1) + (i - 8)) with (8 * ap + i) in H by lia.
           replace (8 * (bp + 1) + (i - 8)) with (8 * bp + i) in H by lia. exact H.
      * specialize (H (i + 8) ltac:(lia)).
        replace (8 * ap + (i + 8)) with (8 * (ap + 1) + i) in H by lia.
        replace (8 * bp + (i + 8)) with (8 * (bp + 1) + i) in H by lia. exact H.
    + split; [intros H; contradiction|].
      intros H. exfalso. apply Hne.
      assert (u8 (a ap) = u8 (b bp)) by (apply Hbyte; intros i Hi; apply H; lia). lia.
Qed.

(** The word loop compares the [64 * n] bits that follow the two
    positions; when it leaves normally the pointers have moved by [8 * n]
    bytes and the running words are the ones in memory. *)
Lemma equals_words_spec left right lo ro :
  0 <= lo < 8 -> 0 <= ro < 8 ->
  forall (n : nat) lp rp,
    match equals_words n left right lo ro
            (mkEquals lp (load_word left lp) rp (load_word right rp)) with
    | Some s =>
        e_left s = lp + 8 * Z.of_nat n /\ e_right s = rp + 8 * Z.of_nat n /\
        (forall i, 0 <= i < 64 * Z.of_nat n ->
           bit left (8 * lp + lo + i) = bit right (8 * rp + ro + i))
    | None =>
        exists i, 0 <= i < 64 * Z.of_nat n /\
                  bit left (8 * lp + lo + i) <> bit right (8 * rp + ro + i)
    end.
Proof.
  intros Hlo Hro. induction n as [|n IH]; intros lp rp.
  - cbn [equals_words e_left e_right]. repeat split; try lia.
  - cbn [equals_words e_left e_right e_left_current e_right_current].
    set (lw := shift_word (load_word left lp) (load_word left (lp + 8)) lo).
    set (rw := shift_word (load_word right rp) (load_word right (rp + 8)) ro).
    assert (Hlw : is_word lw) by (apply is_word_shift; [apply is_word_load|lia]).
    assert (Hrw : is_word rw) by (apply is_word_shift; [apply is_word_load|lia]).
    destruct (Z.eqb_spec lw rw) as [He|Hne]; cbn [negb].
    + assert (Hfirst : forall i, 0 <= i < 64 ->
                bit left (8 * lp + lo + i) = bit right (8 * rp + ro + i)).
      { intros i Hi. unfold lw, rw in He.
        rewrite <- (shift_word_load left lp lo i), <- (shift_word_load right rp ro i) by lia.
        rewrite He. reflexivity. }
      specialize (IH (lp + 8) (rp + 8)).
      destruct (equals_words n left right lo ro _) as [s|].
      * destruct IH as (H1 & H2 & H3). split; [lia|]. split; [lia|].
        intros i Hi. destruct (Z.lt_ge_cases i 64) as [Hlt|Hge]; [apply Hfirst; lia|].
        specialize (H3 (i - 64) ltac:(lia)).
        replace (8 * (lp + 8) + lo + (i - 64)) with (8 * lp + lo + i) in H3 by lia.
        replace (8 * (rp + 8) + ro + (i - 64)) with (8 * rp + ro + i) in H3 by lia.
        exact H3.
      * destruct IH as (i & Hi & Hd). exists (i + 64). split; [lia|].
        replace (8 * lp + lo + (i + 64)) with (8 * (lp + 8) + lo + i) by lia.
        replace (8 * rp + ro + (i + 64)) with (8 * (rp + 8) + ro + i) by lia.
        exact Hd.
    + assert (Hex : ~ (forall j, 0 <= j < 64 -> Z.testbit lw j = Z.testbit rw j)).
      { intros H. apply Hne. apply word_eq_bits; assumption. }
      assert (Hsome : exists j, 0 <= j < 64 /\ Z.testbit lw j <> Z.testbit rw j).
      { clear - Hex.
        assert (Hdec : forall (k : nat),
                  (forall j, 0 <= j < Z.of_nat k -> Z.testbit lw j = Z.testbit rw j) \/
                  (exists j, 0 <= j < Z.of_nat k /\ Z.testbit lw j <> Z.testbit rw j)).
        { induction k as [|k IHk].
          - left. intros j Hj. lia.
          - destruct IHk as [Hall|(j & Hj & Hd)].
            + destruct (bool_dec (Z.testbit lw (Z.of_nat k)) (Z.testbit rw (Z.of_nat k)))
                as [Hk|Hk].
              * left. intros j Hj. destruct (Z.eq_dec j (Z.of_nat k)) as [->|];
                  [exact Hk|apply Hall; lia].
              * right. exists (Z.of_nat k). split; [lia|exact Hk].
            + right. exists j. split; [lia|exact Hd]. }
        destruct (Hdec 64%nat) as [Hall|Hx]; [|exact Hx].
        exfalso. apply Hex. intros j Hj. apply Hall. lia. }
      destruct Hsome as (j & Hj & Hd). exists j. split; [lia|].
      unfold lw, rw in Hd. rewrite !shift_word_load in Hd by lia. exact Hd.
Qed.

Lemma bits_range_spec left lp lo right rp ro (n : nat) start :
  all_range n start
    (fun i => Bool.eqb (BitUtil.GetBit left lp (lo + i)) (BitUtil.GetBit right rp (ro + i)))
  = true <->
  (forall i, start <= i < start + Z.of_nat n ->
     bit left (8 * lp + lo + i) = bit right (8 * rp + ro + i)).
Proof.
  rewrite all_range_spec. split; intros H i Hi; specialize (H i Hi).
  - apply Bool.eqb_prop in H. rewrite !GetBit_bit in H.
    rewrite <- !Z.add_assoc. exact H.
  - rewrite !GetBit_bit, !Z.add_assoc, H. apply Bool.eqb_reflx.
Qed.

Lemma BitmapEquals_iff left lo right ro len :
  0 <= lo -> 0 <= ro -> 0 <= len ->
  BitmapEquals left lo right ro len = true <->
  (forall i, 0 <= i < len -> bit left (lo + i) = bit right (ro + i)).
Proof.
  intros Hlo Hro Hlen.
  assert (Hlm : 0 <= lo mod 8 < 8) by (apply Z.mod_pos_bound; lia).
  assert (Hrm : 0 <= ro mod 8 < 8) by (apply Z.mod_pos_bound; lia).
  assert (Hl : lo = 8 * (lo / 8) + lo mod 8) by (apply Z.div_mod; lia).
  assert (Hr : ro = 8 * (ro / 8) + ro mod 8) by (apply Z.div_mod; lia).
  assert (Hlen8 : 0 <= len / 8 /\ 8 * (len / 8) <= len < 8 * (len / 8) + 8)
    by (Z.div_mod_to_equations; lia).
  assert (Hlen64 : 64 * (len / 64) <= len) by (apply Z.mul_div_le; lia).
  unfold BitmapEquals.
  rewrite !quot_div8, !rem_mod8, quot_div64 by lia.
  destruct ((lo mod 8 =? 0) && (ro mod 8 =? 0)) eqn:Hpath.
  - apply andb_true_iff in Hpath. destruct Hpath as [H1 H2].
    apply Z.eqb_eq in H1. apply Z.eqb_eq in H2.
    destruct (Z.eqb_spec (memcmp (Z.to_nat (len / 8)) left (lo / 8) right (ro / 8)) 0)
      as [Hm|Hm]; cbn [negb].
    + rewrite memcmp_spec, Z2Nat.id in Hm by lia.
      rewrite bits_range_spec. rewrite Z2Nat.id by lia. split; intros H i Hi.
      * destruct (Z.lt_ge_cases i (8 * (len / 8))) as [Hlt|Hge].
        -- specialize (Hm i ltac:(lia)).
           replace (lo + i) with (8 * (lo / 8) + i) by lia.
           replace (ro + i) with (8 * (ro / 8) + i) by lia. exact Hm.
        -- specialize (H i ltac:(lia)).
           replace (lo + i) with (8 * 0 + lo + i) by lia.
           replace (ro + i) with (8 * 0 + ro + i) by lia. exact H.
      * specialize (H i ltac:(lia)).
        replace (8 * 0 + lo + i) with (lo + i) by lia.
        replace (8 * 0 + ro + i) with (ro + i) by lia. exact H.
    + split; [discriminate|]. intros H. exfalso. apply Hm.
      apply memcmp_spec. rewrite Z2Nat.id by lia. intros i Hi.
      specialize (H i ltac:(lia)).
      replace (lo + i) with (8 * (lo / 8) + i) in H by lia.
      replace (ro + i) with (8 * (ro / 8) + i) in H by lia. exact H.
  - destruct (Z.ltb_spec 1 (len / 64)) as [Hw|Hw].
    + pose proof (equals_words_spec left right (lo mod 8) (ro mod 8) Hlm Hrm
                    (Z.to_nat (len / 64 - 1)) (lo / 8) (ro / 8)) as Hs.
      destruct (equals_words (Z.to_nat (len / 64 - 1)) left right _ _ _) as [s|].
      * rewrite Z2Nat.id in Hs by lia. destruct Hs as (H1 & H2 & H3).
        rewrite bits_range_spec, Z2Nat.id, H1, H2 by lia. split; intros H i Hi.
        -- destruct (Z.lt_ge_cases i (64 * (len / 64 - 1))) as [Hlt|Hge].
           ++ specialize (H3 i ltac:(lia)).
              replace (lo + i) with (8 * (lo / 8) + lo mod 8 + i) by lia.
              replace (ro + i) with (8 * (ro / 8) + ro mod 8 + i) by lia. exact H3.
           ++ specialize (H (i - 64 * (len / 64 - 1)) ltac:(lia)).
              replace (lo + i)
                with (8 * (lo / 8 + 8 * (len / 64 - 1)) + lo mod 8
                      + (i - 64 * (len / 64 - 1))) by lia.
              replace (ro + i)
                with (8 * (ro / 8 + 8 * (len / 64 - 1)) + ro mod 8
                      + (i - 64 * (len / 64 - 1))) by lia.
              exact H.
        -- specialize (H (i + 64 * (len / 64 - 1)) ltac:(lia)).
           replace (lo + (i + 64 * (len / 64 - 1)))
             with (8 * (lo / 8 + 8 * (len / 64 - 1)) + lo mod 8 + i) in H by lia.
           replace (ro + (i + 64 * (len / 64 - 1)))
             with (8 * (ro / 8 + 8 * (len / 64 - 1)) + ro mod 8 + i) in H by lia.
           exact H.
      * rewrite Z2Nat.id in Hs by lia. destruct Hs as (i & Hi & Hd).
        split; [discriminate|]. intros H. exfalso. apply Hd.
        specialize (H i ltac:(lia)).
        replace (lo + i) with (8 * (lo / 8) + lo mod 8 + i) in H by lia.
        replace (ro + i) with (8 * (ro / 8) + ro mod 8 + i) in H by lia. exact H.
    + rewrite bits_range_spec, Z2Nat.id by lia. split; intros H i Hi.
      * specialize (H i ltac:(lia)).
        replace (lo + i) with (8 * (lo / 8) + lo mod 8 + i) by lia.
        replace (ro + i) with (8 * (ro / 8) + ro mod 8 + i) by lia. exact H.
      * specialize (H i ltac:(lia)).
        replace (lo + i) with (8 * (lo / 8) + lo mod 8 + i) in H by lia.
        replace (ro + i) with (8 * (ro / 8) + ro mod 8 + i) in H by lia. exact H.
Qed.

(** * The binary combinators *)

Lemma for_range_const {St : Type} (g : St -> St) :
  forall (n : nat) i j s,
    for_range n i (fun _ => g) s = for_range n j (fun _ => g) s.
Proof. induction n as [|n IH]; intros i j s; [reflexivity|cbn [for_range]; apply IH]. Qed.

(** The [do ... while (nwords > 1)] loop leaves by its condition, after
    [nwords - 1] rounds; the fuel is never what stops it. *)
Lemma do_while_words (body : binop_state -> binop_state) :
  (forall s, b_nwords (body s) = b_nwords s - 1) ->
  forall (fuel : nat) s,
    1 < b_nwords s -> b_nwords s - 2 <= Z.of_nat fuel ->
    do_while fuel body (fun s => 1 <? b_nwords s) s =
    for_range (Z.to_nat (b_nwords s - 1)) 0 (fun _ => body) s.
Proof.
  intros Hdec. induction fuel as [|fuel IH]; intros s Hn Hf.
  - cbn [do_while]. replace (b_nwords s - 1) with 1 by lia. reflexivity.
  - cbn [do_while]. rewrite Hdec.
    replace (Z.to_nat (b_nwords s - 1)) with (S (Z.to_nat (b_nwords s - 2))) by lia.
    cbn [for_range].
    destruct (Z.ltb_spec 1 (b_nwords s - 1)) as [Hgt|Hle].
    + rewrite IH by (rewrite Hdec; lia). rewrite Hdec.
      replace (b_nwords s - 1 - 1) with (b_nwords s - 2) by lia.
      apply for_range_const.
    + replace (b_nwords s - 2) with 0 by lia. reflexivity.
Qed.

Lemma binop_word_nwords c left right lo ro oo mask s :
  b_nwords (binop_word c left right lo ro oo mask s) = b_nwords s - 1.
Proof.
  unfold binop_word. destruct (negb (oo =? 0)); [|reflexivity].
  destruct (split_store _ _ _ _ _ _); reflexivity.
Qed.

Lemma inline_shift a b s :
  (if negb (s =? 0) then Z.lor (Z.shiftr a s) (u64 (Z.shiftl b (8 * 8 - s))) else a)
  = shift_word a b s.
Proof. unfold shift_word. destruct (s =? 0); reflexivity. Qed.

Lemma binop_word_spec c left right lo ro oo s :
  0 <= lo < 8 -> 0 <= ro < 8 -> 0 <= oo < 8 ->
  b_left_word0 s = load_word left (b_left s) ->
  b_right_word0 s = load_word right (b_right s) ->
  (forall b, 0 <= b < oo ->
     Z.testbit (b_out_word0 s) b = bit (b_mem s) (8 * b_out s + b)) ->
  let s' := binop_word c left right lo ro oo (low_mask oo) s in
  b_left s' = b_left s + 8 /\ b_left_word0 s' = load_word left (b_left s') /\
  b_right s' = b_right s + 8 /\ b_right_word0 s' = load_word right (b_right s') /\
  b_out s' = b_out s + 8 /\
  (forall b, 0 <= b < oo ->
     Z.testbit (b_out_word0 s') b = bit (b_mem s') (8 * b_out s' + b)) /\
  (forall i,
     bit (b_mem s') i =
     if (8 * b_out s + oo <=? i) && (i <? 8 * b_out s + oo + 64)
     then LogicalOp c (bit left (8 * b_left s + lo + (i - (8 * b_out s + oo))))
            (bit right (8 * b_right s + ro + (i - (8 * b_out s + oo))))
     else bit (b_mem s) i).
Proof.
  intros Hlo Hro Hoo Hl Hr Hout. unfold binop_word. cbv zeta.
  rewrite !inline_shift.
  set (lw := shift_word (b_left_word0 s) (load_word left (b_left s + 8)) lo).
  set (rw := shift_word (b_right_word0 s) (load_word right (b_right s + 8)) ro).
  assert (Hlw : is_word lw)
    by (apply is_word_shift; [rewrite Hl; apply is_word_load|lia]).
  assert (Hrw : is_word rw)
    by (apply is_word_shift; [rewrite Hr; apply is_word_load|lia]).
  assert (Hw : is_word (BitOp c lw rw)) by (apply is_word_BitOp; assumption).
  assert (Hbits : forall j, 0 <= j < 64 ->
            Z.testbit (BitOp c lw rw) j =
            LogicalOp c (bit left (8 * b_left s + lo + j))
              (bit right (8 * b_right s + ro + j))).
  { intros j Hj. rewrite BitOp_bits. unfold lw, rw.
    rewrite Hl, Hr, !shift_word_load by lia. reflexivity. }
  destruct (Z.eqb_spec oo 0) as [Hz|Hnz]; cbn [negb].
  - cbn [b_left b_left_word0 b_right b_right_word0 b_out b_out_word0 b_mem].
    repeat split; try reflexivity.
    + intros b Hb. lia.
    + intros i. rewrite write_word_bits. subst oo.
      replace (8 * b_out s + 0) with (8 * b_out s) by lia.
      destruct ((8 * b_out s <=? i) && (i <? 8 * b_out s + 64)) eqn:E; [|reflexivity].
      apply andb_true_iff in E. destruct E as [E1 E2].
      apply Z.leb_le in E1. apply Z.ltb_lt in E2.
      apply Hbits. lia.
  - destruct (split_store_bits (b_mem s) (b_out s) oo (b_out_word0 s) (BitOp c lw rw)
                ltac:(lia) Hw Hout) as [Hmem Hnext].
    destruct (split_store (b_mem s) (b_out s) oo (low_mask oo) (b_out_word0 s)
                (BitOp c lw rw)) as [mem next] eqn:E.
    cbn [fst snd] in Hmem, Hnext.
    cbn [b_left b_left_word0 b_right b_right_word0 b_out b_out_word0 b_mem].
    repeat split; try reflexivity.
    + intros b Hb. apply Hnext. lia.
    + intros i. rewrite Hmem.
      destruct ((8 * b_out s + oo <=? i) && (i <? 8 * b_out s + oo + 64)) eqn:E';
        [|reflexivity].
      apply andb_true_iff in E'. destruct E' as [E1 E2].
      apply Z.leb_le in E1. apply Z.ltb_lt in E2.
      apply Hbits. lia.
Qed.

Section Combinator.

(** A call of a combinator [c] on the views [(left, lo)] and [(right, ro)],
    with the result at [oo] in a destination that holds [out]. *)
Variables (c : Combinator) (left : buffer) (lo : Z) (right : buffer) (ro : Z)
  (out : buffer) (oo : Z).
Hypotheses (Hlo : 0 <= lo) (Hro : 0 <= ro) (Hoo : 0 <= oo).

Local Lemma offsets_split :
  0 <= lo mod 8 < 8 /\ 0 <= ro mod 8 < 8 /\ 0 <= oo mod 8 < 8 /\
  lo = 8 * (lo / 8) + lo mod 8 /\ ro = 8 * (ro / 8) + ro mod 8 /\
  oo = 8 * (oo / 8) + oo mod 8.
Proof.
  repeat split; try (apply Z.mod_pos_bound; lia); apply Z.div_mod; lia.
Qed.

Lemma binop_words_spec nwords (n : nat) :
  binop_words_at c left lo right ro out oo (Z.of_nat n)
    (for_range n 0
       (fun _ => binop_word c left right (lo mod 8) (ro mod 8) (oo mod 8)
                   (low_mask (oo mod 8)))
       (mkBinop (lo / 8) (load_word left (lo / 8)) (ro / 8) (load_word right (ro / 8))
          (oo / 8) (load_word out (oo / 8)) nwords out)).
Proof.
  destruct offsets_split as (Hlm & Hrm & Hom & Hl & Hr & Ho).
  pose (P := fun j s => 0 <= j /\ binop_words_at c left lo right ro out oo j s).
  assert (HP : P (0 + Z.of_nat n)
    (for_range n 0
       (fun _ => binop_word c left right (lo mod 8) (ro mod 8) (oo mod 8)
                   (low_mask (oo mod 8)))
       (mkBinop (lo / 8) (load_word left (lo / 8)) (ro / 8) (load_word right (ro / 8))
          (oo / 8) (load_word out (oo / 8)) nwords out))).
  { apply (for_range_ind P).
    - unfold P, binop_words_at.
      cbn [b_left b_left_word0 b_right b_right_word0 b_out b_out_word0 b_mem].
      split; [lia|]. split; [lia|]. split; [reflexivity|]. split; [lia|].
      split; [reflexivity|]. split; [lia|]. split.
      + intros b Hb. rewrite load_word_bits by lia.
        replace (b <? 64) with true by (symmetry; apply Z.ltb_lt; lia).
        cbn [andb]. f_equal; lia.
      + intros i. cases_cmp.
    - intros j s Hj (Hj0 & Hleft & Hlw & Hright & Hrw & Hout & Hlow & Hmem).
      destruct (binop_word_spec c left right _ _ _ s Hlm Hrm Hom Hlw Hrw Hlow)
        as (Hleft' & Hlw' & Hright' & Hrw' & Hout' & Hlow' & Hmem').
      unfold P, binop_words_at. split; [lia|].
      split; [lia|]. split; [exact Hlw'|]. split; [lia|]. split; [exact Hrw'|].
      split; [lia|]. split; [exact Hlow'|].
      intros i. rewrite Hmem', Hmem, Hleft, Hright, Hout. unfold combined.
      cases_cmp; f_equal; f_equal; lia. }
  replace (0 + Z.of_nat n) with (Z.of_nat n) in HP by lia. exact (proj2 HP).
Qed.

(** The general path writes the combined bits on the output range and
    nothing else. *)
Lemma UnalignedBitmapOp_bits len :
  0 <= len ->
  forall i,
    bit (UnalignedBitmapOp c left lo right ro out oo len) i =
    if (oo <=? i) && (i <? oo + len)
    then combined c left lo right ro (i - oo) else bit out i.
Proof.
  intros Hlen i.
  destruct offsets_split as (Hlm & Hrm & Hom & Hl & Hr & Ho).
  unfold UnalignedBitmapOp. cbv zeta.
  rewrite (quot_div8 lo), (quot_div8 ro), (quot_div8 oo),
    (rem_mod8 lo), (rem_mod8 ro), (rem_mod8 oo) by lia.
  set (mo := Z.min (Z.min (lo mod 8) (ro mod 8)) (oo mod 8)).
  assert (Hmo : 0 <= mo < 8) by (unfold mo; lia).
  rewrite BytesForBits_div by lia.
  assert (Hnb : 0 <= (len + mo + 7) / 8) by (apply Z.div_pos; lia).
  rewrite quot_div8 by lia.
  set (nwords := (len + mo + 7) / 8 / 8).
  assert (Hnw : 64 * nwords <= len + mo + 7).
  { unfold nwords. Z.div_mod_to_equations. lia. }
  destruct (Z.ltb_spec 1 nwords) as [Hw|Hw].
  - rewrite do_while_words;
      [|intros s; apply binop_word_nwords|cbn [b_nwords]; lia|cbn [b_nwords]; lia].
    cbn [b_nwords].
    pose proof (binop_words_spec nwords (Z.to_nat (nwords - 1))) as Hs.
    set (s := for_range (Z.to_nat (nwords - 1)) 0 _ _) in *.
    destruct Hs as (Hleft & _ & Hright & _ & Hout & _ & Hmem).
    rewrite Z2Nat.id in Hleft, Hright, Hout, Hmem by lia.
    replace (len - (nwords - 1) * (8 * 8) =? 0) with false
      by (symmetry; apply Z.eqb_neq; lia).
    cbn [negb].
    pose proof (binop_bits_spec c left (b_left s) (lo mod 8)
                  right (b_right s) (ro mod 8) (b_mem s) (b_out s) (oo mod 8)
                  (len - (nwords - 1) * (8 * 8))
                  ltac:(lia) ltac:(lia) ltac:(lia) ltac:(lia) i) as Hb.
    destruct (for_range (Z.to_nat (len - (nwords - 1) * (8 * 8))) 0 _ _) as [[r1 r2] w].
    cbn [snd] in Hb. rewrite Hb, Hmem, Hleft, Hright, Hout. unfold combined.
    cases_cmp; f_equal; f_equal; lia.
  - destruct (Z.eqb_spec len 0) as [Hz|Hnz]; cbn [negb].
    + cases_cmp.
    + pose proof (binop_bits_spec c left (lo / 8) (lo mod 8)
                    right (ro / 8) (ro mod 8) out (oo / 8) (oo mod 8) len
                    ltac:(lia) ltac:(lia) ltac:(lia) ltac:(lia) i) as Hb.
      destruct (for_range (Z.to_nat len) 0 _ _) as [[r1 r2] w].
      cbn [snd] in Hb. rewrite Hb. unfold combined.
      cases_cmp; f_equal; f_equal; lia.
Qed.

(** The byte-wise path combines whole bytes: every bit of the bytes it
    writes is the combination of the bits at the same place in the bytes
    of the inputs. *)
Lemma AlignedBitmapOp_bits len :
  0 <= len ->
  forall i,
    bit (AlignedBitmapOp c left lo right ro out oo len) i =
    if (8 * (oo / 8) <=? i)
       && (i <? 8 * (oo / 8) + 8 * BitUtil.BytesForBits (len + lo mod 8))
    then LogicalOp c (bit left (8 * (lo / 8) + (i - 8 * (oo / 8))))
           (bit right (8 * (ro / 8) + (i - 8 * (oo / 8))))
    else bit out i.
Proof.
  intros Hlen.
  destruct offsets_split as (Hlm & _).
  unfold AlignedBitmapOp. cbv zeta.
  rewrite !quot_div8, rem_mod8 by lia.
  assert (Hnb : 0 <= BitUtil.BytesForBits (len + lo mod 8)).
  { rewrite BytesForBits_div by lia. apply Z.div_pos; lia. }
  set (nb := BitUtil.BytesForBits (len + lo mod 8)) in *.
  set (lp := lo / 8). set (rp := ro / 8). set (op := oo / 8).
  pose (P := fun (j : Z) (d : buffer) =>
    0 <= j /\
    forall i, bit d i =
      if (8 * op <=? i) && (i <? 8 * op + 8 * j)
      then LogicalOp c (bit left (8 * lp + (i - 8 * op))) (bit right (8 * rp + (i - 8 * op)))
      else bit out i).
  assert (HP : P (0 + Z.of_nat (Z.to_nat nb))
    (for_range (Z.to_nat nb) 0
       (fun i o =>
          store o (op + i) (u8 (BitOp c (u8 (left (lp + i))) (u8 (right (rp + i))))))
       out)).
  { apply (for_range_ind P).
    - unfold P. split; [lia|]. intros i. cases_cmp.
    - intros j d Hj [Hj0 Hd]. unfold P. split; [lia|]. intros i.
      rewrite bit_store. specialize (Hd i).
      assert (Hm : 0 <= i mod 8 < 8) by (apply Z.mod_pos_bound; lia).
      assert (Hi : i = 8 * (i / 8) + i mod 8) by (apply Z.div_mod; lia).
      destruct (Z.eqb_spec (i / 8) (op + j)) as [He|Hne].
      + replace ((8 * op <=? i) && (i <? 8 * op + 8 * (j + 1))) with true
          by (symmetry; apply andb_true_iff; split; [apply Z.leb_le|apply Z.ltb_lt]; lia).
        rewrite testbit_u8, BitOp_bits, !testbit_u8.
        replace (i mod 8 <? 8) with true by (symmetry; apply Z.ltb_lt; lia).
        cbn [andb]. rewrite !byte_testbit by lia.
        f_equal; f_equal; lia.
      + rewrite Hd. cases_cmp. }
  replace (0 + Z.of_nat (Z.to_nat nb)) with nb in HP by lia. exact (proj2 HP).
Qed.

(** Every bit of the destination after a combinator call. *)
Lemma BitmapOp_bits len :
  0 <= len ->
  forall i,
    bit (BitmapOp c left lo right ro len oo out) i =
    if (oo <=? i) && (i <? oo + len) then combined c left lo right ro (i - oo)
    else if op_aligned lo ro oo && op_touched lo oo len i
    then combined c left lo right ro (i - oo)
    else bit out i.
Proof.
  intros Hlen i.
  destruct offsets_split as (Hlm & _ & _ & Hl & Hr & Ho).
  unfold BitmapOp, op_aligned, op_touched.
  rewrite !rem_mod8 by lia.
  destruct ((oo mod 8 =? lo mod 8) && (oo mod 8 =? ro mod 8)) eqn:Hpath.
  - apply andb_true_iff in Hpath. destruct Hpath as [H1 H2].
    apply Z.eqb_eq in H1. apply Z.eqb_eq in H2.
    rewrite AlignedBitmapOp_bits by lia. cbn [andb].
    assert (Hnb : oo mod 8 + len <= 8 * BitUtil.BytesForBits (len + lo mod 8)).
    { rewrite BytesForBits_div by lia. Z.div_mod_to_equations. lia. }
    unfold combined.
    destruct ((8 * (oo / 8) <=? i)
              && (i <? 8 * (oo / 8) + 8 * BitUtil.BytesForBits (len + lo mod 8))) eqn:E.
    + replace (8 * (lo / 8) + (i - 8 * (oo / 8))) with (lo + (i - oo)) by lia.
      replace (8 * (ro / 8) + (i - 8 * (oo / 8))) with (ro + (i - oo)) by lia.
      destruct ((oo <=? i) && (i <? oo + len)); reflexivity.
    + apply andb_false_iff in E.
      replace ((oo <=? i) && (i <? oo + len)) with false; [reflexivity|].
      symmetry. apply andb_false_iff.
      destruct E as [E|E]; [apply Z.leb_gt in E|apply Z.ltb_ge in E].
      * left. apply Z.leb_gt. lia.
      * right. apply Z.ltb_ge. lia.
  - cbn [andb]. rewrite UnalignedBitmapOp_bits by lia.
    destruct ((oo <=? i) && (i <? oo + len)); reflexivity.
Qed.

End Combinator.

(** * Population count *)

Lemma count_pred_ext g h :
  forall (n : nat) i j,
    (forall k, 0 <= k < Z.of_nat n -> g (i + k) = h (j + k)) ->
    count_pred g i n = count_pred h j n.
Proof.
  induction n as [|n IH]; intros i j H; [reflexivity|].
  cbn [count_pred]. f_equal.
  - specialize (H 0 ltac:(lia)). rewrite !Z.add_0_r in H. rewrite H. reflexivity.
  - apply IH. intros k Hk. specialize (H (k + 1) ltac:(lia)).
    replace (i + 1 + k) with (i + (k + 1)) by lia.
    replace (j + 1 + k) with (j + (k + 1)) by lia. exact H.
Qed.

Lemma count_pred_app g :
  forall (n m : nat) i,
    count_pred g i (n + m) = count_pred g i n + count_pred g (i + Z.of_nat n) m.
Proof.
  induction n as [|n IH]; intros m i.
  - cbn [count_pred Nat.add]. change (Z.of_nat 0) with 0.
    rewrite Z.add_0_r. reflexivity.
  - cbn [count_pred Nat.add]. rewrite IH.
    replace (i + 1 + Z.of_nat n) with (i + Z.of_nat (S n)) by lia. lia.
Qed.

Lemma count_pred_filter g :
  forall (n : nat) i,
    count_pred g i n =
    Z.of_nat (List.length (filter g (map (fun k => i + Z.of_nat k) (seq 0 n)))).
Proof.
  induction n as [|n IH]; intros i; [reflexivity|].
  cbn [count_pred seq map filter]. rewrite Z.add_0_r.
  rewrite <- seq_shift, map_map. rewrite IH.
  assert (Hm : map (fun k => i + 1 + Z.of_nat k) (seq 0 n)
               = map (fun k => i + Z.of_nat (S k)) (seq 0 n)).
  { apply map_ext. intros k. lia. }
  rewrite Hm. destruct (g i); cbn [List.length]; lia.
Qed.

Lemma count_loop (g : Z -> bool) :
  forall (n : nat) i c,
    for_range n i (fun (k a : Z) => if g k then a + 1 else a) c = c + count_pred g i n.
Proof.
  induction n as [|n IH]; intros i c; cbn [for_range count_pred]; [lia|].
  rewrite IH. destruct (g i); lia.
Qed.

Lemma count_bit_loop data (n : nat) i c :
  for_range n i (count_bit data) c = c + count_pred (bit data) i n.
Proof.
  revert i c.
  induction n as [|n IH]; intros i c; cbn [for_range count_pred]; [lia|].
  rewrite IH. unfold count_bit. rewrite GetBit_bit.
  replace (8 * 0 + i) with i by lia. destruct (bit data i); lia.
Qed.

Lemma PopCount_load data p :
  BitUtil.PopCount (load_word data p) = count_pred (bit data) (8 * p) 64.
Proof.
  unfold BitUtil.PopCount. rewrite count_loop, Z.add_0_l.
  apply count_pred_ext. intros k Hk.
  rewrite Z.add_0_l, load_word_bits by lia.
  replace (k <? 64) with true by (symmetry; apply Z.ltb_lt; lia). reflexivity.
Qed.

Lemma popcount_loop data q :
  forall (n : nat) j c,
    for_range n j (fun (iter a : Z) => a + BitUtil.PopCount (load_word data (q + 8 * iter))) c
    = c + count_pred (bit data) (8 * (q + 8 * j)) (64 * n).
Proof.
  induction n as [|n IH]; intros j c.
  - cbn [for_range]. rewrite Nat.mul_0_r. cbn [count_pred]. lia.
  - cbn [for_range]. rewrite IH, PopCount_load.
    replace (64 * S n)%nat with (64 + 64 * n)%nat by lia.
    rewrite count_pred_app.
    replace (8 * (q + 8 * j) + Z.of_nat 64) with (8 * (q + 8 * (j + 1))) by lia. lia.
Qed.

Lemma CountSetBits_reference addr data bit_offset length :
  0 <= bit_offset -> 0 <= length ->
  CountSetBits addr data bit_offset length = count_set_reference data bit_offset length.
Proof.
  intros Ho Hl. unfold CountSetBits, BitmapWordAlign, count_set_reference. cbv zeta.
  cbn [leading_bits aligned_words aligned_start trailing_bit_offset].
  change (8 * 8 ÷ 8 * 8) with 64.
  set (r := (- (addr * 8 + bit_offset)) mod 64).
  assert (Hr : 0 <= r < 64) by (apply Z.mod_pos_bound; lia).
  set (lead := Z.min length r).
  assert (Hlead : 0 <= lead <= length) by (unfold lead; lia).
  rewrite quot_div64 by lia.
  set (words := (length - lead) / 64).
  assert (Hwords : 0 <= words /\ 64 * words <= length - lead)
    by (unfold words; Z.div_mod_to_equations; lia).
  rewrite <- count_pred_filter.
  replace (Z.to_nat length)
    with (Z.to_nat lead + (64 * Z.to_nat words
                           + Z.to_nat (length - lead - 64 * words)))%nat by lia.
  rewrite !count_pred_app.
  rewrite !count_bit_loop.
  replace (bit_offset + lead - bit_offset) with lead by lia.
  replace (bit_offset + length - (bit_offset + lead + words * 64))
    with (length - lead - 64 * words) by lia.
  replace (bit_offset + lead + words * 64)
    with (bit_offset + Z.of_nat (Z.to_nat lead) + Z.of_nat (64 * Z.to_nat words)) by lia.
  destruct (Z.ltb_spec 0 words) as [Hw|Hw].
  - rewrite popcount_loop.
    assert (Hal : 8 * ((bit_offset + lead) ÷ 8 + 8 * 0) = bit_offset + Z.of_nat (Z.to_nat lead)).
    { rewrite quot_div8 by lia.
      assert (lead = r) by (unfold lead; lia).
      unfold r in *. Z.div_mod_to_equations. lia. }
    rewrite Hal. lia.
  - replace (Z.to_nat words) with 0%nat by lia.
    rewrite Nat.mul_0_r. cbn [count_pred]. lia.
Qed.

(** * The reference computations, bit by bit *)

Lemma put_bits_spec (f : Z -> bool) d0 start (n : nat) :
  forall i,
    bit (for_range n 0 (fun k d => put_bit d (start + k) (f k)) d0) i =
    if (start <=? i) && (i <? start + Z.of_nat n) then f (i - start) else bit d0 i.
Proof.
  pose (P := fun (j : Z) (d : buffer) =>
    0 <= j /\
    forall i, bit d i =
      if (start <=? i) && (i <? start + j) then f (i - start) else bit d0 i).
  assert (HP : P (0 + Z.of_nat n)
                 (for_range n 0 (fun k d => put_bit d (start + k) (f k)) d0)).
  { apply (for_range_ind P).
    - unfold P. split; [lia|]. intros i. cases_cmp.
    - intros j d Hj [Hj0 Hd]. unfold P. split; [lia|]. intros i.
      unfold put_bit. destruct (f j) eqn:E;
        rewrite ?bit_SetBit, ?bit_ClearBit, Hd;
        destruct (Z.eqb_spec i (8 * 0 + (start + j))) as [->|Hne].
      + replace (8 * 0 + (start + j) - start) with j by lia. rewrite E. cases_cmp.
      + cases_cmp.
      + replace (8 * 0 + (start + j) - start) with j by lia. rewrite E. cases_cmp.
      + cases_cmp. }
  replace (0 + Z.of_nat n) with (Z.of_nat n) in HP by lia. exact (proj2 HP).
Qed.

Lemma transfer_reference_bits inv src so len dst d_o :
  0 <= len ->
  forall i,
    bit (transfer_reference inv src so len dst d_o) i =
    if (d_o <=? i) && (i <? d_o + len)
    then xorb inv (bit src (so + (i - d_o))) else bit dst i.
Proof.
  intros Hl i. unfold transfer_reference.
  rewrite (put_bits_spec (fun k => xorb inv (BitUtil.GetBit src 0 (so + k)))).
  rewrite Z2Nat.id by lia. rewrite GetBit_bit.
  replace (8 * 0 + (so + (i - d_o))) with (so + (i - d_o)) by lia. reflexivity.
Qed.

Lemma binary_op_reference_bits c left lo right ro len out oo :
  0 <= len ->
  forall i,
    bit (binary_op_reference c left lo right ro len out oo) i =
    if (oo <=? i) && (i <? oo + len)
    then combined c left lo right ro (i - oo) else bit out i.
Proof.
  intros Hl i. unfold binary_op_reference.
  rewrite (put_bits_spec
             (fun k => LogicalOp c (BitUtil.GetBit left 0 (lo + k))
                         (BitUtil.GetBit right 0 (ro + k)))).
  rewrite Z2Nat.id by lia. rewrite !GetBit_bit. unfold combined.
  replace (8 * 0 + (lo + (i - oo))) with (lo + (i - oo)) by lia.
  replace (8 * 0 + (ro + (i - oo))) with (ro + (i - oo)) by lia. reflexivity.
Qed.

Lemma equals_reference_iff left lo right ro len :
  0 <= len ->
  equals_reference left lo right ro len = true <->
  (forall i, 0 <= i < len -> bit left (lo + i) = bit right (ro + i)).
Proof.
  intros Hl. unfold equals_reference. rewrite bits_range_spec, Z2Nat.id by lia.
  split; intros H i Hi; specialize (H i ltac:(lia)).
  - replace (lo + i) with (8 * 0 + lo + i) by lia.
    replace (ro + i) with (8 * 0 + ro + i) by lia. exact H.
  - replace (8 * 0 + lo + i) with (lo + i) by lia.
    replace (8 * 0 + ro + i) with (ro + i) by lia. exact H.
Qed.

Lemma in_range_true a n i : a <= i < a + n -> (a <=? i) && (i <? a + n) = true.
Proof. intros H. apply andb_true_iff. split; [apply Z.leb_le|apply Z.ltb_lt]; lia. Qed.

Lemma in_range_false a n i : ~ (a <= i < a + n) -> (a <=? i) && (i <? a + n) = false.
Proof.
  intros H. apply andb_false_iff.
  destruct (Z.le_gt_cases a i); [right; apply Z.ltb_ge|left; apply Z.leb_gt]; lia.
Qed.

(** * Freshly allocated results *)

Lemma bit_zero i : bit (fun _ => 0) i = false.
Proof. unfold bit. apply Z.testbit_0_l. Qed.

Lemma BitmapOp_pool_some c pool left lo right ro len oo b :
  BitmapOp_pool c pool left lo right ro len oo = Some b ->
  size b = BitUtil.BytesForBits (len + oo) /\
  mutable_data b = BitmapOp c left lo right ro len oo (fun _ => 0).
Proof.
  unfold BitmapOp_pool, AllocateEmptyBitmap.
  destruct (serves pool (BitUtil.BytesForBits (len + oo))); [|discriminate].
  intros H. injection H as <-. cbn [size mutable_data]. split; reflexivity.
Qed.

(** An allocating combinator returns a buffer whenever the pool serves the
    request. *)
Lemma BitmapOp_pool_returns c pool left lo right ro len oo :
  serves pool (BitUtil.BytesForBits (len + oo)) = true ->
  exists b, BitmapOp_pool c pool left lo right ro len oo = Some b.
Proof.
  intros H. unfold BitmapOp_pool, AllocateEmptyBitmap. rewrite H. eexists. reflexivity.
Qed.

Lemma clear_bits_spec d0 start (n : nat) :
  forall i,
    bit (for_range n start (fun k d => BitUtil.ClearBit d 0 k) d0) i =
    if (start <=? i) && (i <? start + Z.of_nat n) then false else bit d0 i.
Proof.
  pose (P := fun (j : Z) (d : buffer) =>
    start <= j /\
    forall i, bit d i = if (start <=? i) && (i <? j) then false else bit d0 i).
  assert (HP : P (start + Z.of_nat n)
                 (for_range n start (fun k d => BitUtil.ClearBit d 0 k) d0)).
  { apply (for_range_ind P).
    - unfold P. split; [lia|]. intros i. cases_cmp.
    - intros j d Hj [Hj0 Hd]. unfold P. split; [lia|]. intros i.
      rewrite bit_ClearBit, Hd. cases_cmp. }
  exact (proj2 HP).
Qed.

Lemma TransferBitmap_pool_some inv pool data offset len b :
  0 <= offset -> 0 <= len ->
  TransferBitmap_pool inv pool data offset len = Some b ->
  size b = BitUtil.BytesForBits len /\
  forall i,
    bit (mutable_data b) i =
    if (0 <=? i) && (i <? len) then xorb inv (bit data (offset + i)) else false.
Proof.
  intros Ho Hl. unfold TransferBitmap_pool, AllocateEmptyBitmap.
  destruct (serves pool (BitUtil.BytesForBits len)); [|discriminate].
  intros H. injection H as <-. cbn [size mutable_data]. split; [reflexivity|].
  intros i. rewrite clear_bits_spec, TransferBitmap_bits by lia.
  rewrite bit_zero.
  assert (Hnb : len <= 8 * BitUtil.BytesForBits len < len + 8).
  { rewrite BytesForBits_div by lia. Z.div_mod_to_equations. lia. }
  replace (len + Z.of_nat (Z.to_nat (len + (BitUtil.BytesForBits len * 8 - len) - len)))
    with (8 * BitUtil.BytesForBits len) by lia.
  unfold byte_aligned. cbn [negb]. rewrite Z.mod_0_l by lia.
  replace (0 + len) with len by lia.
  replace (0 + 8 * BitUtil.BytesForBits len) with (8 * BitUtil.BytesForBits len) by lia.
  cases_cmp; do 2 f_equal; lia.
Qed.

Lemma TransferBitmap_pool_returns inv pool data offset len :
  serves pool (BitUtil.BytesForBits len) = true ->
  exists b, TransferBitmap_pool inv pool data offset len = Some b.
Proof.
  intros H. unfold TransferBitmap_pool, AllocateEmptyBitmap. rewrite H. eexists. reflexivity.
Qed.

(** * Algebra of the combinators *)

Lemma LogicalOp_comm c x y : LogicalOp c x y = LogicalOp c y x.
Proof. destruct c, x, y; reflexivity. Qed.

Lemma LogicalOp_assoc c x y z :
  LogicalOp c (LogicalOp c x y) z = LogicalOp c x (LogicalOp c y z).
Proof. destruct c, x, y, z; reflexivity. Qed.

(** The bit a combinator call leaves at distance [k] from [out_offset]. *)
Lemma BitmapOp_result c left lo right ro len oo out k :
  0 <= lo -> 0 <= ro -> 0 <= oo -> 0 <= len -> 0 <= k < len ->
  bit (BitmapOp c left lo right ro len oo out) (oo + k) = combined c left lo right ro k.
Proof.
  intros Hlo Hro Hoo Hlen Hk. rewrite BitmapOp_bits by lia.
  rewrite in_range_true by lia. f_equal. lia.
Qed.

(** * Bits, bytes and counts of the results *)

(** Every bit of the destination after an in-place copy. *)
Lemma CopyBitmap_bits data offset length dest dest_offset restore :
  0 <= offset -> 0 <= dest_offset -> 0 <= length ->
  forall i,
    bit (CopyBitmap data offset length dest dest_offset restore) i =
    if (dest_offset <=? i) && (i <? dest_offset + length)
    then bit data (offset + (i - dest_offset))
    else if byte_aligned offset dest_offset && negb restore
            && (dest_offset <=? i)
            && (i <? dest_offset + 8 * BitUtil.BytesForBits length)
    then bit data (offset + (i - dest_offset))
    else bit dest i.
Proof.
  intros Ho Hd Hl i. unfold CopyBitmap.
  destruct restore; rewrite TransferBitmap_bits by lia; reflexivity.
Qed.

(** Every bit of the destination after an in-place inversion. *)
Lemma InvertBitmap_bits data offset length dest dest_offset :
  0 <= offset -> 0 <= dest_offset -> 0 <= length ->
  forall i,
    bit (InvertBitmap data offset length dest dest_offset) i =
    if (dest_offset <=? i) && (i <? dest_offset + length)
    then negb (bit data (offset + (i - dest_offset))) else bit dest i.
Proof.
  intros Ho Hd Hl i. unfold InvertBitmap. rewrite TransferBitmap_bits by lia.
  cbn [negb xorb]. rewrite andb_false_r. reflexivity.
Qed.

Lemma CopyBitmap_result data offset length dest dest_offset restore k :
  0 <= offset -> 0 <= dest_offset -> 0 <= length -> 0 <= k < length ->
  bit (CopyBitmap data offset length dest dest_offset restore) (dest_offset + k)
  = bit data (offset + k).
Proof.
  intros Ho Hd Hl Hk. rewrite CopyBitmap_bits by lia.
  rewrite in_range_true by lia. f_equal. lia.
Qed.

Lemma InvertBitmap_result data offset length dest dest_offset k :
  0 <= offset -> 0 <= dest_offset -> 0 <= length -> 0 <= k < length ->
  bit (InvertBitmap data offset length dest dest_offset) (dest_offset + k)
  = negb (bit data (offset + k)).
Proof.
  intros Ho Hd Hl Hk. rewrite InvertBitmap_bits by lia.
  rewrite in_range_true by lia. do 2 f_equal. lia.
Qed.

(** [CountSetBits] as a count over the positions of the view. *)
Lemma CountSetBits_count addr data bit_offset length :
  0 <= bit_offset -> 0 <= length ->
  CountSetBits addr data bit_offset length
  = count_pred (bit data) bit_offset (Z.to_nat length).
Proof.
  intros Ho Hl. rewrite CountSetBits_reference by lia.
  unfold count_set_reference. symmetry. apply count_pred_filter.
Qed.

Lemma count_pred_bounds g :
  forall (n : nat) i, 0 <= count_pred g i n <= Z.of_nat n.
Proof.
  induction n as [|n IH]; intros i; cbn [count_pred]; [lia|].
  specialize (IH (i + 1)). destruct (g i); lia.
Qed.

Lemma count_pred_negb g :
  forall (n : nat) i,
    count_pred (fun k => negb (g k)) i n = Z.of_nat n - count_pred g i n.
Proof.
  induction n as [|n IH]; intros i; cbn [count_pred]; [lia|].
  rewrite IH. destruct (g i); cbn [negb]; lia.
Qed.

Lemma count_pred_and_or g h :
  forall (n : nat) i,
    count_pred (fun k => g k && h k) i n + count_pred (fun k => g k || h k) i n
    = count_pred g i n + count_pred h i n.
Proof.
  induction n as [|n IH]; intros i; cbn [count_pred]; [lia|].
  specialize (IH (i + 1)). destruct (g i), (h i); cbn [andb orb]; lia.
Qed.

Lemma count_pred_xor g h :
  forall (n : nat) i,
    count_pred (fun k => xorb (g k) (h k)) i n
    = count_pred (fun k => g k || h k) i n - count_pred (fun k => g k && h k) i n.
Proof.
  induction n as [|n IH]; intros i; cbn [count_pred]; [lia|].
  rewrite IH. destruct (g i), (h i); cbn [andb orb xorb]; lia.
Qed.

(** The count of a view whose bits are those of [g]. *)
Lemma CountSetBits_view addr data bit_offset length (g : Z -> bool) :
  0 <= bit_offset -> 0 <= length ->
  (forall k, 0 <= k < length -> bit data (bit_offset + k) = g k) ->
  CountSetBits addr data bit_offset length = count_pred g 0 (Z.to_nat length).
Proof.
  intros Ho Hl Hg. rewrite CountSetBits_count by lia.
  apply count_pred_ext. intros k Hk. rewrite Z.add_0_l. apply Hg. lia.
Qed.

(** The count of the output view of a combinator call. *)
Lemma CountSetBits_combined addr c left lo right ro length oo out :
  0 <= lo -> 0 <= ro -> 0 <= oo -> 0 <= length ->
  CountSetBits addr (BitmapOp c left lo right ro length oo out) oo length
  = count_pred (fun k => LogicalOp c (bit left (lo + k)) (bit right (ro + k))) 0
      (Z.to_nat length).
Proof.
  intros Hlo Hro Hoo Hl. apply CountSetBits_view; try lia.
  intros k Hk. apply BitmapOp_result; lia.
Qed.

(** Two bytes are equal when their eight bits are. *)
Lemma bytes_eq_bits (a b : buffer) p q :
  u8 (a p) = u8 (b q) <->
  (forall j, 0 <= j < 8 -> bit a (8 * p + j) = bit b (8 * q + j)).
Proof.
  rewrite u8_eq_bits. split; intros H j Hj.
  - rewrite <- !byte_testbit by lia. apply H; lia.
  - rewrite !byte_testbit by lia. apply H; lia.
Qed.

Lemma map_seq_eq {A : Type} (f g : nat -> A) :
  forall (n s : nat),
    map f (seq s n) = map g (seq s n) <->
    (forall k, (s <= k < s + n)%nat -> f k = g k).
Proof.
  induction n as [|n IH]; intros s; cbn [seq map].
  - split; [intros _ k Hk; lia|reflexivity].
  - split.
    + intros H k Hk. injection H as H0 H1.
      destruct (Nat.eq_dec k s) as [->|Hne]; [exact H0|].
      apply (proj1 (IH (S s)) H1). lia.
    + intros H. f_equal; [apply H; lia|]. apply IH. intros k Hk. apply H. lia.
Qed.

(** Two buffers have the same first [n] bytes when they agree byte by
    byte. *)
Lemma to_list_eq (a b : buffer) n :
  to_list a n = to_list b n <-> (forall q, 0 <= q < n -> u8 (a q) = u8 (b q)).
Proof.
  unfold to_list. rewrite map_seq_eq. split.
  - intros H q Hq. specialize (H (Z.to_nat q)).
    rewrite Z2Nat.id in H by lia. apply H. lia.
  - intros H k Hk. apply H. lia.
Qed.

Lemma count_pred_le (g h : Z -> bool) :
  forall (n : nat) i,
    (forall k, 0 <= k < Z.of_nat n -> g (i + k) = true -> h (i + k) = true) ->
    count_pred g i n <= count_pred h i n.
Proof.
  induction n as [|n IH]; intros i H; cbn [count_pred]; [lia|].
  assert (H0 : g i = true -> h i = true).
  { replace i with (i + 0) by lia. apply H. lia. }
  assert (Hn : count_pred g (i + 1) n <= count_pred h (i + 1) n).
  { apply IH. intros k Hk. replace (i + 1 + k) with (i + (k + 1)) by lia. apply H. lia. }
  destruct (g i), (h i); try lia.
Qed.

Lemma count_pred_false :
  forall (n : nat) i, count_pred (fun _ => false) i n = 0.
Proof. induction n as [|n IH]; intros i; cbn [count_pred]; [reflexivity|apply IH]. Qed.

Lemma count_pred_none g :
  forall (n : nat) i,
    count_pred g i n = 0 -> forall k, 0 <= k < Z.of_nat n -> g (i + k) = false.
Proof.
  induction n as [|n IH]; intros i H k Hk; [lia|]. cbn [count_pred] in H.
  pose proof (count_pred_bounds g n (i + 1)) as Hb.
  destruct (Z.eq_dec k 0) as [->|Hne].
  - rewrite Z.add_0_r. destruct (g i); [lia|reflexivity].
  - replace (i + k) with (i + 1 + (k - 1)) by lia. apply IH; [|lia].
    destruct (g i); lia.
Qed.

Lemma count_pred_all g :
  forall (n : nat) i,
    count_pred g i n = Z.of_nat n -> forall k, 0 <= k < Z.of_nat n -> g (i + k) = true.
Proof.
  intros n i H k Hk.
  assert (Hn : count_pred (fun j => negb (g j)) i n = 0)
    by (rewrite count_pred_negb; lia).
  pose proof (count_pred_none _ n i Hn k Hk) as Hf. cbv beta in Hf.
  destruct (g (i + k)); [reflexivity|discriminate].
Qed.

Lemma TransferBitmap_pool_serves inv pool data offset len b :
  TransferBitmap_pool inv pool data offset len = Some b ->
  serves pool (BitUtil.BytesForBits len) = true.
Proof.
  unfold TransferBitmap_pool, AllocateEmptyBitmap.
  destruct (serves pool (BitUtil.BytesForBits len)); [reflexivity|discriminate].
Qed.

(** The count over the whole of a freshly allocated result. *)
Lemma TransferBitmap_pool_count inv pool addr data offset len b :
  0 <= offset -> 0 <= len ->
  TransferBitmap_pool inv pool data offset len = Some b ->
  CountSetBits addr (mutable_data b) 0 (8 * size b)
  = count_pred (fun k => xorb inv (bit data (offset + k))) 0 (Z.to_nat len).
Proof.
  intros Ho Hl Hb.
  destruct (TransferBitmap_pool_some _ _ _ _ _ _ Ho Hl Hb) as [Hs Hbits].
  assert (Hnb : len <= 8 * BitUtil.BytesForBits len).
  { rewrite BytesForBits_div by lia. Z.div_mod_to_equations. lia. }
  rewrite CountSetBits_count by lia. rewrite Hs.
  replace (Z.to_nat (8 * BitUtil.BytesForBits len))
    with (Z.to_nat len + Z.to_nat (8 * BitUtil.BytesForBits len - len))%nat by lia.
  rewrite count_pred_app.
  rewrite (count_pred_ext (bit (mutable_data b)) (fun _ => false)
             (Z.to_nat (8 * BitUtil.BytesForBits len - len))
             (0 + Z.of_nat (Z.to_nat len)) 0).
  - rewrite count_pred_false, Z.add_0_r. apply count_pred_ext.
    intros k Hk. rewrite Hbits, Z.add_0_l. rewrite (in_range_true 0 len) by lia.
    reflexivity.
  - intros k Hk. rewrite Hbits. rewrite (in_range_false 0 len) by lia. reflexivity.
Qed.

(** The bytes of two freshly allocated results are the same when their
    views are. *)
Lemma TransferBitmap_pool_canonical inv pool a a_offset b b_offset len :
  0 <= a_offset -> 0 <= b_offset -> 0 <= len ->
  serves pool (BitUtil.BytesForBits len) = true ->
  (BitmapEquals a a_offset b b_offset len = true <->
   contents (TransferBitmap_pool inv pool a a_offset len)
   = contents (TransferBitmap_pool inv pool b b_offset len)).
Proof.
  intros Ha Hb Hl Hserves.
  destruct (TransferBitmap_pool_returns inv pool a a_offset len Hserves) as [ra Hra].
  destruct (TransferBitmap_pool_returns inv pool b b_offset len Hserves) as [rb Hrb].
  destruct (TransferBitmap_pool_some _ _ _ _ _ _ Ha Hl Hra) as [Hsa Hba].
  destruct (TransferBitmap_pool_some _ _ _ _ _ _ Hb Hl Hrb) as [Hsb Hbb].
  rewrite Hra, Hrb. unfold contents. cbn [option_map]. rewrite Hsa, Hsb.
  rewrite BitmapEquals_iff by lia.
  assert (Hnb : len <= 8 * BitUtil.BytesForBits len).
  { rewrite BytesForBits_div by lia. Z.div_mod_to_equations. lia. }
  split.
  - intros H. f_equal. apply to_list_eq. intros q Hq. apply bytes_eq_bits.
    intros j Hj. rewrite Hba, Hbb.
    destruct ((0 <=? 8 * q + j) && (8 * q + j <? len)) eqn:E; [|reflexivity].
    apply andb_true_iff in E. destruct E as [E1 E2].
    apply Z.leb_le in E1. apply Z.ltb_lt in E2.
    f_equal. apply H. lia.
  - intros H i Hi. injection H as H.
    assert (Hq : 0 <= i / 8 < BitUtil.BytesForBits len)
      by (Z.div_mod_to_equations; lia).
    assert (Hj : 0 <= i mod 8 < 8) by (apply Z.mod_pos_bound; lia).
    pose proof (proj1 (bytes_eq_bits _ _ _ _)
                  (proj1 (to_list_eq _ _ _) H (i / 8) Hq) (i mod 8) Hj) as Hbit.
    rewrite <- (Z.div_mod i 8) in Hbit by lia.
    rewrite Hba, Hbb in Hbit. rewrite (in_range_true 0 len) in Hbit by lia.
    destruct inv, (bit a (a_offset + i)), (bit b (b_offset + i));
      cbn [xorb] in Hbit; congruence.
Qed.

(** * The properties of the specification *)

(** C1 (reference equivalence).  Whatever path a kernel takes (byte-wise,
    word-parallel shift-merge or bit by bit), its result agrees with the
    slow bit-at-a-time reference: bit for bit on the output range for the
    transfer kernel behind copy and invert and for the AND/OR/XOR
    combinators, and as a boolean for [BitmapEquals]. *)
Theorem reference_equivalence
    (invert restore : bool) (c : Combinator)
    (left : buffer) (lo : Z) (right : buffer) (ro length : Z) (out : buffer) (oo : Z) :
  0 <= lo -> 0 <= ro -> 0 <= oo -> 0 <= length ->
  (forall i, oo <= i < oo + length ->
     bit (TransferBitmap invert restore left lo length oo out) i =
     bit (transfer_reference invert left lo length out oo) i) /\
  BitmapEquals left lo right ro length = equals_reference left lo right ro length /\
  (forall i, oo <= i < oo + length ->
     bit (BitmapOp c left lo right ro length oo out) i =
     bit (binary_op_reference c left lo right ro length out oo) i).
Proof.
  intros Hlo Hro Hoo Hlen. split; [|split].
  - intros i Hi. rewrite TransferBitmap_bits, transfer_reference_bits by lia.
    rewrite in_range_true by lia. reflexivity.
  - destruct (equals_reference left lo right ro length) eqn:E.
    + apply BitmapEquals_iff; try lia. apply equals_reference_iff; [lia|exact E].
    + destruct (BitmapEquals left lo right ro length) eqn:E'; [|reflexivity].
      rewrite <- E. symmetry. apply equals_reference_iff; [lia|].
      apply BitmapEquals_iff; [lia|lia|lia|exact E'].
  - intros i Hi. rewrite BitmapOp_bits, binary_op_reference_bits by lia.
    rewrite in_range_true by lia. reflexivity.
Qed.

Lemma reference_equivalence_witness :
  let src := of_list (repeat 0xA5 16 ++ repeat 0x3C 16) in
  let other := of_list (repeat 0x0F 16 ++ repeat 0xC3 16) in
  let dest := of_list (repeat 0xFF 32) in
  bit (TransferBitmap true false src 3 200 5 dest) 100
  = bit (transfer_reference true src 3 200 dest 5) 100 /\
  BitmapEquals src 3 other 6 200 = equals_reference src 3 other 6 200 /\
  bit (BitmapOp Xor src 3 other 6 200 5 dest) 100
  = bit (binary_op_reference Xor src 3 other 6 200 dest 5) 100.
Proof.
  intros src other dest.
  destruct (reference_equivalence true false Xor src 3 other 6 200 dest 5)
    as (Htransfer & Hequals & Hop); try lia.
  split; [apply Htransfer; lia|]. split; [exact Hequals|apply Hop; lia].
Defined.

(** C2 (copy).  After [CopyBitmap], with either value of
    [restore_trailing_bits], bit [dest_offset + i] of the destination is bit
    [offset + i] of the source for every [0 <= i < length]; and scenario
    S2: copying 4 bits from bit 2 of [0b10110100] to bit 3 of [0x00] leaves
    [0x68]. *)
Theorem CopyBitmap_correct :
  (forall data offset length dest dest_offset restore_trailing_bits,
     0 <= offset -> 0 <= dest_offset -> 0 <= length ->
     forall i, 0 <= i < length ->
       bit (CopyBitmap data offset length dest dest_offset restore_trailing_bits)
         (dest_offset + i)
       = bit data (offset + i)) /\
  to_list (CopyBitmap (of_list [0xB4]) 2 4 (of_list [0x00]) 3 false) 1 = [0x68].
Proof.
  split; [|vm_compute; reflexivity].
  intros data offset length dest dest_offset restore Ho Hd Hl i Hi.
  unfold CopyBitmap. destruct restore;
    rewrite TransferBitmap_bits by lia;
    rewrite in_range_true by lia; cbn [xorb]; f_equal; lia.
Qed.

Lemma CopyBitmap_correct_witness :
  bit (CopyBitmap (of_list [0xB4; 0x3C]) 2 9 (of_list [0x00; 0xFF]) 3 true) (3 + 8)
  = bit (of_list [0xB4; 0x3C]) (2 + 8).
Proof.
  apply (proj1 CopyBitmap_correct (of_list [0xB4; 0x3C]) 2 9 (of_list [0x00; 0xFF]) 3 true);
    lia.
Defined.

(** C3 (population count).  [CountSetBits] returns exactly the number of
    indices [i] in [[bit_offset, bit_offset + length)] whose bit is set under
    the LSB-first convention, wherever the buffer lies in memory; and
    scenario S1 on [[0xFF, 0x0F]]. *)
Theorem CountSetBits_correct :
  (forall addr data bit_offset length,
     0 <= bit_offset -> 0 <= length ->
     CountSetBits addr data bit_offset length
     = Z.of_nat
         (List.length
            (filter (fun i => Z.testbit (data (i / 8)) (i mod 8))
               (map (fun k => bit_offset + Z.of_nat k) (seq 0 (Z.to_nat length)))))) /\
  (forall addr,
     CountSetBits addr (of_list [0xFF; 0x0F]) 0 12 = 12 /\
     CountSetBits addr (of_list [0xFF; 0x0F]) 4 8 = 8 /\
     CountSetBits addr (of_list [0xFF; 0x0F]) 4 4 = 4).
Proof.
  split.
  - intros addr data bit_offset length Ho Hl.
    rewrite CountSetBits_reference by lia. reflexivity.
  - intros addr. rewrite !CountSetBits_reference by lia.
    repeat split; vm_compute; reflexivity.
Qed.

Lemma CountSetBits_correct_witness :
  CountSetBits 3 (of_list [0xFF; 0x0F; 0xA5]) 5 17
  = Z.of_nat
      (List.length
         (filter (fun i => Z.testbit (of_list [0xFF; 0x0F; 0xA5] (i / 8)) (i mod 8))
            (map (fun k => 5 + Z.of_nat k) (seq 0 (Z.to_nat 17))))).
Proof.
  apply (proj1 CountSetBits_correct 3 (of_list [0xFF; 0x0F; 0xA5]) 5 17); lia.
Defined.

(** C4 as stated fails: an aligned [CopyBitmap] that does not restore the
    trailing bits copies the whole last byte.  Copying 4 bits of [0xFF]
    onto [0x00] sets bit 4, which lies outside [[0, 4)]. *)
Lemma frame_counterexample :
  bit (CopyBitmap (of_list [0xFF]) 0 4 (of_list [0x00]) 0 false) 4
  <> bit (of_list [0x00]) 4.
Proof. vm_compute. discriminate. Qed.

(** C4, amended (out-of-range preservation).  A destination bit outside
    [[out_offset, out_offset + length)] is the same before and after the
    call: for [InvertBitmap] always; for [CopyBitmap] unless the call is
    byte-aligned, does not restore the trailing bits and the bit lies in
    the rest of the last byte written; for the combinators unless the call
    is on the byte-wise path and the bit lies in a byte it writes. *)
Theorem frame_preserved
    (c : Combinator) (left : buffer) (lo : Z) (right : buffer) (ro length : Z)
    (out : buffer) (oo : Z) (restore_trailing_bits : bool) (i : Z) :
  0 <= lo -> 0 <= ro -> 0 <= oo -> 0 <= length ->
  ~ (oo <= i < oo + length) ->
  bit (InvertBitmap left lo length out oo) i = bit out i /\
  (restore_trailing_bits = true \/ byte_aligned lo oo = false \/
   ~ (oo + length <= i < oo + 8 * BitUtil.BytesForBits length) ->
   bit (CopyBitmap left lo length out oo restore_trailing_bits) i = bit out i) /\
  (op_aligned lo ro oo = false \/ op_touched lo oo length i = false ->
   bit (BitmapOp c left lo right ro length oo out) i = bit out i).
Proof.
  intros Hlo Hro Hoo Hlen Hout. split; [|split].
  - unfold InvertBitmap. rewrite TransferBitmap_bits by lia.
    rewrite in_range_false by lia. cbn [negb]. rewrite andb_false_r. reflexivity.
  - intros Hcase. unfold CopyBitmap.
    destruct restore_trailing_bits; rewrite TransferBitmap_bits by lia;
      rewrite in_range_false by lia; cbn [negb]; rewrite ?andb_false_r; try reflexivity.
    destruct Hcase as [Hc|[Hc|Hc]]; [discriminate|rewrite Hc; reflexivity|].
    rewrite andb_true_r.
    destruct (byte_aligned lo oo); [|reflexivity]. cbn [andb].
    replace ((oo <=? i) && (i <? oo + 8 * BitUtil.BytesForBits length)) with false;
      [reflexivity|].
    symmetry. apply in_range_false. lia.
  - intros Hcase. rewrite BitmapOp_bits by lia.
    rewrite in_range_false by lia.
    destruct Hcase as [Hc|Hc]; rewrite Hc; rewrite ?andb_false_r; reflexivity.
Qed.

Lemma frame_preserved_witness :
  let left := of_list [0xA5] in
  let right := of_list [0xFF] in
  let out := of_list [0x0F] in
  bit (InvertBitmap left 0 4 out 0) 6 = bit out 6 /\
  bit (CopyBitmap left 0 4 out 0 true) 6 = bit out 6 /\
  bit (BitmapOp Or left 0 right 3 4 0 out) 6 = bit out 6.
Proof.
  intros left right out.
  destruct (frame_preserved Or left 0 right 3 4 out 0 true 6)
    as (Hinvert & Hcopy & Hop); try lia.
  split; [exact Hinvert|].
  split; [apply Hcopy; left; reflexivity|apply Hop; left; reflexivity].
Defined.

(** C5 as stated fails: on the byte-wise path the allocating combinators
    write whole bytes.  OR-ing bits [[4, 8)] of two [0xFF] bytes into bits
    [[4, 8)] of a fresh buffer returns [0xFF]: bit 0, below [out_offset],
    is set. *)
Lemma canonical_binary_counterexample :
  option_map (fun b => bit (mutable_data b) 0)
    (BitmapOr_pool default_memory_pool (of_list [0xFF]) 4 (of_list [0xFF]) 4 4 4)
  = Some true.
Proof. vm_compute. reflexivity. Qed.

(** C5, amended (canonical output of the allocating combinators).  In the
    buffer returned by the allocating [BitmapAnd], [BitmapOr] and
    [BitmapXor], a bit at a position in [[0, out_offset)] or in
    [[out_offset + length, 8 * bytes_for_bits(out_offset + length))] is zero
    when the call takes the general path, and when it lies in a byte before
    the one of [out_offset]; on the byte-wise path the other bits of the
    boundary bytes hold the combination of the input bits at the same
    distance from the offsets. *)
Theorem canonical_binary_output
    (c : Combinator) (pool : MemoryPool) (left : buffer) (lo : Z) (right : buffer)
    (ro length oo : Z) (b : Buffer) (i : Z) :
  0 <= lo -> 0 <= ro -> 0 <= oo -> 0 <= length ->
  BitmapOp_pool c pool left lo right ro length oo = Some b ->
  0 <= i < oo \/ oo + length <= i < 8 * BitUtil.BytesForBits (oo + length) ->
  bit (mutable_data b) i =
  if op_aligned lo ro oo && (8 * (oo / 8) <=? i)
  then LogicalOp c (bit left (lo + (i - oo))) (bit right (ro + (i - oo)))
  else false.
Proof.
  intros Hlo Hro Hoo Hlen Hb Hi.
  destruct (BitmapOp_pool_some _ _ _ _ _ _ _ _ _ Hb) as [_ Hd].
  rewrite Hd, BitmapOp_bits by lia. rewrite bit_zero.
  rewrite in_range_false by lia. unfold combined, op_touched.
  destruct (op_aligned lo ro oo) eqn:Hal; cbn [andb]; [|reflexivity].
  unfold op_aligned in Hal. apply andb_true_iff in Hal. destruct Hal as [H1 _].
  apply Z.eqb_eq in H1.
  assert (Hnb : 8 * (oo / 8) + 8 * BitUtil.BytesForBits (length + lo mod 8)
                = 8 * BitUtil.BytesForBits (oo + length)).
  { rewrite !BytesForBits_div by (try apply Z.add_nonneg_nonneg; try lia;
                                  apply Z.mod_pos_bound; lia).
    rewrite <- H1. Z.div_mod_to_equations. lia. }
  rewrite Hnb.
  destruct (Z.leb_spec (8 * (oo / 8)) i); cbn [andb]; [|reflexivity].
  replace (i <? 8 * BitUtil.BytesForBits (oo + length)) with true; [reflexivity|].
  symmetry. apply Z.ltb_lt.
  assert (oo <= 8 * BitUtil.BytesForBits (oo + length)).
  { rewrite BytesForBits_div by lia. Z.div_mod_to_equations. lia. }
  lia.
Qed.

Lemma canonical_binary_output_witness :
  let b := mkBuffer 2 (BitmapOp And (of_list [0xFF; 0x0F]) 1 (of_list [0xFF; 0xFF]) 2 7 3
                         (fun _ => 0)) in
  bit (mutable_data b) 1
  = if op_aligned 1 2 3 && (8 * (3 / 8) <=? 1)
    then LogicalOp And (bit (of_list [0xFF; 0x0F]) (1 + (1 - 3)))
           (bit (of_list [0xFF; 0xFF]) (2 + (1 - 3)))
    else false.
Proof.
  intros b.
  assert (H : BitmapOp_pool And default_memory_pool (of_list [0xFF; 0x0F]) 1
                (of_list [0xFF; 0xFF]) 2 7 3 = Some b) by reflexivity.
  apply (canonical_binary_output And default_memory_pool (of_list [0xFF; 0x0F]) 1
           (of_list [0xFF; 0xFF]) 2 7 3 b 1); [lia|lia|lia|lia|exact H|lia].
Defined.

(** C6 as stated fails: in scenario S5 the low nibble of [0xF0] is zero
    and is preserved, so the byte does not become [0xFF]. *)
Lemma or_scenario_counterexample :
  to_list (BitmapOr (of_list [0x0A]) 0 (of_list [0x05]) 0 4 4 (of_list [0xF0])) 1
  <> [0xFF].
Proof. vm_compute. discriminate. Qed.

(** C6, amended (scenario S5).  In-place OR of the low nibbles of [0x0A]
    and [0x05] into bits [[4, 8)] of [0xF0] writes [1111] there and keeps
    the low nibble of the destination; afterwards the byte is [0xF0]. *)
Theorem or_scenario :
  let out := BitmapOr (of_list [0x0A]) 0 (of_list [0x05]) 0 4 4 (of_list [0xF0]) in
  map (bit out) [4; 5; 6; 7] = [true; true; true; true] /\
  map (bit out) [0; 1; 2; 3] = map (bit (of_list [0xF0])) [0; 1; 2; 3] /\
  to_list out 1 = [0xF0].
Proof. vm_compute. repeat split; reflexivity. Qed.

(** C7 (allocating copy and invert).  The buffer returned by the
    allocating [CopyBitmap] (resp. [InvertBitmap]) has bit [i] equal to
    (resp. the complement of) source bit [offset + i] for every
    [i < length], and zero bits at every position in
    [[length, 8 * bytes_for_bits(length))]; and scenario S3: inverting the 8
    bits of [0xA5] gives [0x5A], inverting its first 5 bits gives [0x1A]
    (from every pool that serves the byte). *)
Theorem canonical_transfer_output :
  (forall pool data offset length,
     0 <= offset -> 0 <= length ->
     returned (CopyBitmap_pool pool data offset length)
       (fun dest =>
          (forall i, 0 <= i < length -> bit dest i = bit data (offset + i)) /\
          (forall i, length <= i < 8 * BitUtil.BytesForBits length -> bit dest i = false)) /\
     returned (InvertBitmap_pool pool data offset length)
       (fun dest =>
          (forall i, 0 <= i < length -> bit dest i = negb (bit data (offset + i))) /\
          (forall i, length <= i < 8 * BitUtil.BytesForBits length -> bit dest i = false))) /\
  (forall pool,
     contents (InvertBitmap_pool pool (of_list [0xA5]) 0 8)
     = (if serves pool 1 then Some [0x5A] else None) /\
     contents (InvertBitmap_pool pool (of_list [0xA5]) 0 5)
     = (if serves pool 1 then Some [0x1A] else None)).
Proof.
  split.
  - intros pool data offset length Ho Hl. unfold returned. split.
    + destruct (CopyBitmap_pool pool data offset length) as [b|] eqn:Hb; [|exact I].
      destruct (TransferBitmap_pool_some _ _ _ _ _ _ Ho Hl Hb) as [_ Hbits].
      split; intros i Hi; rewrite Hbits.
      * rewrite (in_range_true 0 length) by lia. reflexivity.
      * replace ((0 <=? i) && (i <? length)) with false; [reflexivity|].
        symmetry. apply andb_false_iff. right. apply Z.ltb_ge. lia.
    + destruct (InvertBitmap_pool pool data offset length) as [b|] eqn:Hb; [|exact I].
      destruct (TransferBitmap_pool_some _ _ _ _ _ _ Ho Hl Hb) as [_ Hbits].
      split; intros i Hi; rewrite Hbits.
      * rewrite (in_range_true 0 length) by lia. reflexivity.
      * replace ((0 <=? i) && (i <? length)) with false; [reflexivity|].
        symmetry. apply andb_false_iff. right. apply Z.ltb_ge. lia.
  - intros pool.
    unfold contents, InvertBitmap_pool, TransferBitmap_pool, AllocateEmptyBitmap.
    change (BitUtil.BytesForBits 8) with 1. change (BitUtil.BytesForBits 5) with 1.
    destruct (serves pool 1); split; vm_compute; reflexivity.
Qed.

Lemma canonical_transfer_output_witness :
  let data := of_list [0x1A; 0xFF] in
  returned (CopyBitmap_pool default_memory_pool data 3 5)
    (fun dest => bit dest 4 = bit data (3 + 4) /\ bit dest 6 = false) /\
  returned (InvertBitmap_pool default_memory_pool data 3 5)
    (fun dest => bit dest 4 = negb (bit data (3 + 4)) /\ bit dest 6 = false).
Proof.
  intros data.
  destruct (proj1 canonical_transfer_output default_memory_pool data 3 5)
    as (Hcopy & Hinvert); try lia.
  split.
  - destruct Hcopy as [Hbits Hzero].
    split; [apply Hbits; lia|apply Hzero; vm_compute; split; [discriminate|reflexivity]].
  - destruct Hinvert as [Hbits Hzero].
    split; [apply Hbits; lia|apply Hzero; vm_compute; split; [discriminate|reflexivity]].
Defined.

(** C8 (equality).  [BitmapEquals] returns [true] exactly when bit
    [left_offset + i] of [left] equals bit [right_offset + i] of [right] for
    every [0 <= i < bit_length]; hence it is reflexive and symmetric. *)
Theorem BitmapEquals_correct left left_offset right right_offset bit_length :
  0 <= left_offset -> 0 <= right_offset -> 0 <= bit_length ->
  (BitmapEquals left left_offset right right_offset bit_length = true <->
   forall i, 0 <= i < bit_length ->
             bit left (left_offset + i) = bit right (right_offset + i)) /\
  BitmapEquals left left_offset left left_offset bit_length = true /\
  BitmapEquals left left_offset right right_offset bit_length
  = BitmapEquals right right_offset left left_offset bit_length.
Proof.
  intros Hlo Hro Hlen. split; [|split].
  - apply BitmapEquals_iff; lia.
  - apply BitmapEquals_iff; try lia. intros i Hi. reflexivity.
  - destruct (BitmapEquals right right_offset left left_offset bit_length) eqn:E.
    + apply BitmapEquals_iff; try lia. intros i Hi. symmetry.
      revert i Hi. apply BitmapEquals_iff; try lia. exact E.
    + destruct (BitmapEquals left left_offset right right_offset bit_length) eqn:E';
        [|reflexivity].
      rewrite <- E. symmetry. apply BitmapEquals_iff; try lia. intros i Hi. symmetry.
      revert i Hi. apply BitmapEquals_iff; try lia. exact E'.
Qed.

Lemma BitmapEquals_correct_witness :
  let left := of_list [0xAB; 0xCD] in
  let right := of_list [0xCD; 0xAB] in
  (BitmapEquals left 3 right 3 10 = true <->
   forall i, 0 <= i < 10 -> bit left (3 + i) = bit right (3 + i)) /\
  BitmapEquals left 3 left 3 10 = true /\
  BitmapEquals left 3 right 3 10 = BitmapEquals right 3 left 3 10.
Proof.
  intros left right. apply (BitmapEquals_correct left 3 right 3 10); lia.
Defined.

(** C9 (commutativity and associativity).  For AND, OR and XOR, swapping
    the two inputs of an in-place call leaves the same bits on
    [[out_offset, out_offset + length)]; and for three inputs, combining the
    result of [op(a, b)] with [c] gives the same bits on the output range as
    combining [a] with the result of [op(b, c)] (the intermediate results
    being produced at any offsets in any buffers). *)
Theorem combinators_commutative_associative
    (op : Combinator) (a : buffer) (a_offset : Z) (b : buffer) (b_offset : Z)
    (c : buffer) (c_offset length out_offset : Z) (out : buffer)
    (ab : buffer) (ab_offset : Z) (bc : buffer) (bc_offset : Z) (i : Z) :
  0 <= a_offset -> 0 <= b_offset -> 0 <= c_offset -> 0 <= out_offset ->
  0 <= ab_offset -> 0 <= bc_offset -> 0 <= length ->
  out_offset <= i < out_offset + length ->
  bit (BitmapOp op a a_offset b b_offset length out_offset out) i
  = bit (BitmapOp op b b_offset a a_offset length out_offset out) i /\
  bit (BitmapOp op (BitmapOp op a a_offset b b_offset length ab_offset ab) ab_offset
         c c_offset length out_offset out) i
  = bit (BitmapOp op a a_offset
           (BitmapOp op b b_offset c c_offset length bc_offset bc) bc_offset
           length out_offset out) i.
Proof.
  intros Ha Hb Hc Ho Hab Hbc Hlen Hi.
  replace i with (out_offset + (i - out_offset)) by lia.
  rewrite !BitmapOp_result by lia. unfold combined. split.
  - apply LogicalOp_comm.
  - rewrite !BitmapOp_result by lia. unfold combined. apply LogicalOp_assoc.
Qed.

Lemma combinators_commutative_associative_witness :
  let a := of_list [0xA5; 0x3C] in
  let b := of_list [0x0F; 0xF0] in
  let c := of_list [0x77; 0x01] in
  let out := of_list [0xFF; 0x00] in
  let ab := of_list [0x11; 0x22] in
  let bc := of_list [0x33; 0x44] in
  bit (BitmapOp Xor a 1 b 2 9 3 out) 7 = bit (BitmapOp Xor b 2 a 1 9 3 out) 7 /\
  bit (BitmapOp Xor (BitmapOp Xor a 1 b 2 9 5 ab) 5 c 0 9 3 out) 7
  = bit (BitmapOp Xor a 1 (BitmapOp Xor b 2 c 0 9 6 bc) 6 9 3 out) 7.
Proof.
  intros a b c out ab bc.
  apply (combinators_commutative_associative Xor a 1 b 2 c 0 9 3 out ab 5 bc 6 7); lia.
Defined.

(** C10 (empty views).  For [length = 0] and arbitrary buffers and
    offsets, [CountSetBits] returns 0, [BitmapEquals] returns [true], and
    the in-place [CopyBitmap] and [InvertBitmap] return the destination
    untouched, on the byte-wise path as on the general one. *)
Theorem zero_length
    (addr : Z) (data : buffer) (offset : Z) (other : buffer) (other_offset : Z)
    (dest : buffer) (dest_offset : Z) (restore_trailing_bits : bool) :
  CountSetBits addr data offset 0 = 0 /\
  BitmapEquals data offset other other_offset 0 = true /\
  CopyBitmap data offset 0 dest dest_offset restore_trailing_bits = dest /\
  InvertBitmap data offset 0 dest dest_offset = dest.
Proof.
  assert (Htransfer : forall inv restore,
            TransferBitmap inv restore data offset 0 dest_offset dest = dest).
  { intros inv restore. unfold TransferBitmap. cbv zeta.
    change (0 ÷ 64) with 0. change (BitUtil.BytesForBits 0) with 0.
    destruct (negb (Z.rem offset 8 =? 0) || negb (Z.rem dest_offset 8 =? 0)).
    - cbn [Z.ltb Z.compare Z.to_nat for_range]. apply writer_empty. lia.
    - unfold memcpy. cbn [Z.mul Z.sub Z.opp Z.add Z.to_nat for_range].
      destruct inv, restore; reflexivity. }
  split; [|split; [|split]].
  - unfold CountSetBits, BitmapWordAlign. cbv zeta.
    cbn [leading_bits aligned_words aligned_start trailing_bit_offset].
    change (8 * 8 ÷ 8 * 8) with 64.
    assert (Hr : 0 <= (- (addr * 8 + offset)) mod 64 < 64) by (apply Z.mod_pos_bound; lia).
    replace (Z.min 0 ((- (addr * 8 + offset)) mod 64)) with 0 by lia.
    change ((0 - 0) ÷ 64) with 0. cbn [Z.ltb Z.compare].
    replace (Z.to_nat (offset + 0 - offset)) with 0%nat by lia.
    replace (Z.to_nat (offset + 0 - (offset + 0 + 0 * 64))) with 0%nat by lia.
    reflexivity.
  - unfold BitmapEquals. change (0 ÷ 8) with 0. change (0 ÷ 64) with 0.
    destruct ((Z.rem offset 8 =? 0) && (Z.rem other_offset 8 =? 0)); reflexivity.
  - unfold CopyBitmap. destruct restore_trailing_bits; apply Htransfer.
  - apply Htransfer.
Qed.

(** * Further properties of the kernels *)

(** X1 (inversion and its involution).  The in-place [InvertBitmap] writes
    the complement of each source bit, and inverting the inverted view gives
    the source bits back, whatever the three offsets are. *)
Theorem InvertBitmap_involution
    data offset length tmp tmp_offset dest dest_offset i :
  0 <= offset -> 0 <= tmp_offset -> 0 <= dest_offset -> 0 <= length ->
  0 <= i < length ->
  bit (InvertBitmap data offset length tmp tmp_offset) (tmp_offset + i)
  = negb (bit data (offset + i)) /\
  bit (InvertBitmap (InvertBitmap data offset length tmp tmp_offset) tmp_offset length
         dest dest_offset) (dest_offset + i)
  = bit data (offset + i).
Proof.
  intros Ho Ht Hd Hl Hi. split.
  - apply InvertBitmap_result; lia.
  - rewrite !InvertBitmap_result by lia. apply negb_involutive.
Qed.

Lemma InvertBitmap_involution_witness :
  let data := of_list (repeat 0xA5 20) in
  let tmp := of_list (repeat 0x0F 20) in
  let dest := of_list (repeat 0xF0 20) in
  bit (InvertBitmap data 3 150 tmp 6) (6 + 77) = negb (bit data (3 + 77)) /\
  bit (InvertBitmap (InvertBitmap data 3 150 tmp 6) 6 150 dest 1) (1 + 77)
  = bit data (3 + 77).
Proof.
  intros data tmp dest.
  apply (InvertBitmap_involution data 3 150 tmp 6 dest 1 77); lia.
Defined.

(** X2 (copies compose).  Copying a copy gives the bits of the first
    source: a view copied to any offset and copied again from there to any
    other offset arrives unchanged, with any choice of the restore flags. *)
Theorem CopyBitmap_compose
    data offset length tmp tmp_offset dest dest_offset (r1 r2 : bool) i :
  0 <= offset -> 0 <= tmp_offset -> 0 <= dest_offset -> 0 <= length ->
  0 <= i < length ->
  bit (CopyBitmap (CopyBitmap data offset length tmp tmp_offset r1) tmp_offset length
         dest dest_offset r2) (dest_offset + i)
  = bit data (offset + i).
Proof.
  intros Ho Ht Hd Hl Hi. rewrite !CopyBitmap_result by lia. reflexivity.
Qed.

Lemma CopyBitmap_compose_witness :
  let data := of_list (repeat 0xA5 20) in
  let tmp := of_list (repeat 0x0F 20) in
  let dest := of_list (repeat 0xF0 20) in
  bit (CopyBitmap (CopyBitmap data 3 150 tmp 6 false) 6 150 dest 8 true) (8 + 149)
  = bit data (3 + 149).
Proof.
  intros data tmp dest.
  apply (CopyBitmap_compose data 3 150 tmp 6 dest 8 false true 149); lia.
Defined.

(** X3 (running a transfer again changes nothing).  A second
    [CopyBitmap] or [InvertBitmap] with the same arguments, applied to the
    destination the first one produced, leaves every bit of it as it
    is, inside and outside the range. *)
Theorem transfer_idempotent data offset length dest dest_offset restore i :
  0 <= offset -> 0 <= dest_offset -> 0 <= length ->
  bit (CopyBitmap data offset length
         (CopyBitmap data offset length dest dest_offset restore) dest_offset restore) i
  = bit (CopyBitmap data offset length dest dest_offset restore) i /\
  bit (InvertBitmap data offset length
         (InvertBitmap data offset length dest dest_offset) dest_offset) i
  = bit (InvertBitmap data offset length dest dest_offset) i.
Proof.
  intros Ho Hd Hl. split.
  - rewrite !CopyBitmap_bits by lia.
    destruct ((dest_offset <=? i) && (i <? dest_offset + length)); [reflexivity|].
    destruct (byte_aligned offset dest_offset && negb restore && (dest_offset <=? i)
              && (i <? dest_offset + 8 * BitUtil.BytesForBits length)); reflexivity.
  - rewrite !InvertBitmap_bits by lia.
    destruct ((dest_offset <=? i) && (i <? dest_offset + length)); reflexivity.
Qed.

Lemma transfer_idempotent_witness :
  let data := of_list [0xA5; 0x3C] in
  let dest := of_list [0x0F; 0xF0] in
  bit (CopyBitmap data 0 12 (CopyBitmap data 0 12 dest 0 false) 0 false) 14
  = bit (CopyBitmap data 0 12 dest 0 false) 14 /\
  bit (InvertBitmap data 0 12 (InvertBitmap data 0 12 dest 0) 0) 14
  = bit (InvertBitmap data 0 12 dest 0) 14.
Proof.
  intros data dest. apply (transfer_idempotent data 0 12 dest 0 false 14); lia.
Defined.

(** X4 (a copy compares equal to its source).  After an in-place copy,
    [BitmapEquals] finds the destination view equal to the source view; after
    an in-place inversion of a non-empty view it finds them different. *)
Theorem copy_then_equals data offset length dest dest_offset restore :
  0 <= offset -> 0 <= dest_offset -> 0 <= length ->
  BitmapEquals data offset
    (CopyBitmap data offset length dest dest_offset restore) dest_offset length = true /\
  (0 < length ->
   BitmapEquals data offset
     (InvertBitmap data offset length dest dest_offset) dest_offset length = false).
Proof.
  intros Ho Hd Hl. split.
  - apply BitmapEquals_iff; try lia. intros i Hi.
    rewrite CopyBitmap_result by lia. reflexivity.
  - intros Hpos.
    destruct (BitmapEquals data offset
                (InvertBitmap data offset length dest dest_offset) dest_offset length)
      eqn:E; [|reflexivity].
    exfalso. rewrite BitmapEquals_iff in E by lia.
    specialize (E 0 ltac:(lia)). rewrite InvertBitmap_result in E by lia.
    destruct (bit data (offset + 0)); discriminate.
Qed.

Lemma copy_then_equals_witness :
  let data := of_list (repeat 0xA5 20) in
  let dest := of_list (repeat 0x0F 20) in
  BitmapEquals data 3 (CopyBitmap data 3 150 dest 6 true) 6 150 = true /\
  BitmapEquals data 3 (InvertBitmap data 3 150 dest 6) 6 150 = false.
Proof.
  intros data dest.
  destruct (copy_then_equals data 3 150 dest 6 true) as [Hcopy Hinvert]; try lia.
  split; [exact Hcopy|apply Hinvert; lia].
Defined.

(** X5 (counts under copy and inversion).  The destination view of a copy
    has as many set bits as the source view, and the destination view of an
    inversion has [length] minus that many, wherever the two buffers lie in
    memory. *)
Theorem count_after_transfer
    addr_src addr_dest data offset length dest dest_offset restore :
  0 <= offset -> 0 <= dest_offset -> 0 <= length ->
  CountSetBits addr_dest
    (CopyBitmap data offset length dest dest_offset restore) dest_offset length
  = CountSetBits addr_src data offset length /\
  CountSetBits addr_dest
    (InvertBitmap data offset length dest dest_offset) dest_offset length
  = length - CountSetBits addr_src data offset length.
Proof.
  intros Ho Hd Hl.
  rewrite (CountSetBits_view addr_src data offset length
             (fun k => bit data (offset + k))) by (try lia; reflexivity).
  split.
  - apply CountSetBits_view; try lia. intros k Hk. apply CopyBitmap_result; lia.
  - rewrite (CountSetBits_view _ _ _ _ (fun k => negb (bit data (offset + k))))
      by (try lia; intros k Hk; apply InvertBitmap_result; lia).
    rewrite (count_pred_negb (fun k => bit data (offset + k))). lia.
Qed.

Lemma count_after_transfer_witness :
  let data := of_list (repeat 0xA5 20) in
  let dest := of_list (repeat 0x0F 20) in
  CountSetBits 4099 (CopyBitmap data 3 150 dest 6 false) 6 150
  = CountSetBits 8192 data 3 150 /\
  CountSetBits 4099 (InvertBitmap data 3 150 dest 6) 6 150
  = 150 - CountSetBits 8192 data 3 150.
Proof.
  intros data dest. apply (count_after_transfer 8192 4099 data 3 150 dest 6 false); lia.
Defined.

(** X6 (bounds of the count).  [CountSetBits] is never negative and never
    exceeds the length of the view. *)
Theorem CountSetBits_bounds addr data bit_offset length :
  0 <= bit_offset -> 0 <= length ->
  0 <= CountSetBits addr data bit_offset length <= length.
Proof.
  intros Ho Hl. rewrite CountSetBits_count by lia.
  pose proof (count_pred_bounds (bit data) (Z.to_nat length) bit_offset). lia.
Qed.

Lemma CountSetBits_bounds_witness :
  0 <= CountSetBits 5 (of_list (repeat 0xFF 40)) 7 300 <= 300.
Proof. apply (CountSetBits_bounds 5 (of_list (repeat 0xFF 40)) 7 300); lia. Defined.

(** X7 (the count is additive).  The count of a view is the sum of the
    counts of its two parts, however the view is cut and whatever alignment
    each of the three calls sees. *)
Theorem CountSetBits_additive addr addr1 addr2 data bit_offset n m :
  0 <= bit_offset -> 0 <= n -> 0 <= m ->
  CountSetBits addr data bit_offset (n + m)
  = CountSetBits addr1 data bit_offset n + CountSetBits addr2 data (bit_offset + n) m.
Proof.
  intros Ho Hn Hm. rewrite !CountSetBits_count by lia.
  replace (Z.to_nat (n + m)) with (Z.to_nat n + Z.to_nat m)%nat by lia.
  rewrite count_pred_app. rewrite Z2Nat.id by lia. reflexivity.
Qed.

Lemma CountSetBits_additive_witness :
  let data := of_list (repeat 0xA5 40) in
  CountSetBits 5 data 7 (100 + 200)
  = CountSetBits 5 data 7 100 + CountSetBits 5 data (7 + 100) 200.
Proof. intros data. apply (CountSetBits_additive 5 5 5 data 7 100 200); lia. Defined.

(** X8 (equal views have equal counts).  When [BitmapEquals] returns
    [true] for two views, [CountSetBits] returns the same number on both. *)
Theorem equal_views_equal_counts addr_left addr_right left lo right ro length :
  0 <= lo -> 0 <= ro -> 0 <= length ->
  BitmapEquals left lo right ro length = true ->
  CountSetBits addr_left left lo length = CountSetBits addr_right right ro length.
Proof.
  intros Hlo Hro Hl He. rewrite BitmapEquals_iff in He by lia.
  rewrite !CountSetBits_count by lia.
  apply count_pred_ext. intros k Hk. apply He. lia.
Qed.

Lemma equal_views_equal_counts_witness :
  CountSetBits 1 (of_list [0xF0; 0x0F]) 4 8 = CountSetBits 2 (of_list [0xFF; 0x00]) 0 8.
Proof.
  apply (equal_views_equal_counts 1 2 (of_list [0xF0; 0x0F]) 4 (of_list [0xFF; 0x00]) 0 8);
    try lia.
  vm_compute. reflexivity.
Defined.

(** X9 (inclusion and exclusion).  Over the same two views, the set bits
    of the AND and of the OR together are as many as the set bits of the two
    inputs, and the XOR has as many as the OR has more than the AND. *)
Theorem count_inclusion_exclusion
    addr left lo right ro length oo out_and out_or out_xor :
  0 <= lo -> 0 <= ro -> 0 <= oo -> 0 <= length ->
  CountSetBits addr (BitmapAnd left lo right ro length oo out_and) oo length
  + CountSetBits addr (BitmapOr left lo right ro length oo out_or) oo length
  = CountSetBits addr left lo length + CountSetBits addr right ro length /\
  CountSetBits addr (BitmapXor left lo right ro length oo out_xor) oo length
  = CountSetBits addr (BitmapOr left lo right ro length oo out_or) oo length
    - CountSetBits addr (BitmapAnd left lo right ro length oo out_and) oo length.
Proof.
  intros Hlo Hro Hoo Hl. unfold BitmapAnd, BitmapOr, BitmapXor.
  rewrite !CountSetBits_combined by lia. cbn [LogicalOp].
  rewrite (CountSetBits_view addr left lo length (fun k => bit left (lo + k)))
    by (try lia; reflexivity).
  rewrite (CountSetBits_view addr right ro length (fun k => bit right (ro + k)))
    by (try lia; reflexivity).
  split.
  - apply (count_pred_and_or (fun k => bit left (lo + k)) (fun k => bit right (ro + k))).
  - apply (count_pred_xor (fun k => bit left (lo + k)) (fun k => bit right (ro + k))).
Qed.

Lemma count_inclusion_exclusion_witness :
  let left := of_list (repeat 0xA5 20) in
  let right := of_list (repeat 0x3C 20) in
  let out := of_list (repeat 0x00 20) in
  CountSetBits 7 (BitmapAnd left 3 right 5 140 1 out) 1 140
  + CountSetBits 7 (BitmapOr left 3 right 5 140 1 out) 1 140
  = CountSetBits 7 left 3 140 + CountSetBits 7 right 5 140 /\
  CountSetBits 7 (BitmapXor left 3 right 5 140 1 out) 1 140
  = CountSetBits 7 (BitmapOr left 3 right 5 140 1 out) 1 140
    - CountSetBits 7 (BitmapAnd left 3 right 5 140 1 out) 1 140.
Proof.
  intros left right out.
  apply (count_inclusion_exclusion 7 left 3 right 5 140 1 out out out); lia.
Defined.

(** X10 (De Morgan).  Inverting the AND of two views gives the bits of the
    OR of their inversions, and inverting the OR gives the bits of the AND
    of the inversions, for results and intermediates at any offsets. *)
Theorem de_morgan
    a a_offset b b_offset length
    ab ab_offset na na_offset nb nb_offset out out_offset i :
  0 <= a_offset -> 0 <= b_offset -> 0 <= ab_offset -> 0 <= na_offset ->
  0 <= nb_offset -> 0 <= out_offset -> 0 <= length -> 0 <= i < length ->
  bit (InvertBitmap (BitmapAnd a a_offset b b_offset length ab_offset ab) ab_offset
         length out out_offset) (out_offset + i)
  = bit (BitmapOr (InvertBitmap a a_offset length na na_offset) na_offset
           (InvertBitmap b b_offset length nb nb_offset) nb_offset
           length out_offset out) (out_offset + i) /\
  bit (InvertBitmap (BitmapOr a a_offset b b_offset length ab_offset ab) ab_offset
         length out out_offset) (out_offset + i)
  = bit (BitmapAnd (InvertBitmap a a_offset length na na_offset) na_offset
           (InvertBitmap b b_offset length nb nb_offset) nb_offset
           length out_offset out) (out_offset + i).
Proof.
  intros Ha Hb Hab Hna Hnb Ho Hl Hi. unfold BitmapAnd, BitmapOr.
  rewrite !InvertBitmap_result, !BitmapOp_result by lia. unfold combined.
  rewrite !InvertBitmap_result by lia. cbn [LogicalOp].
  split; [apply negb_andb|apply negb_orb].
Qed.

Lemma de_morgan_witness :
  let a := of_list (repeat 0xA5 20) in
  let b := of_list (repeat 0x3C 20) in
  let buf := of_list (repeat 0xFF 20) in
  bit (InvertBitmap (BitmapAnd a 3 b 5 140 1 buf) 1 140 buf 2) (2 + 99)
  = bit (BitmapOr (InvertBitmap a 3 140 buf 4) 4 (InvertBitmap b 5 140 buf 6) 6
           140 2 buf) (2 + 99) /\
  bit (InvertBitmap (BitmapOr a 3 b 5 140 1 buf) 1 140 buf 2) (2 + 99)
  = bit (BitmapAnd (InvertBitmap a 3 140 buf 4) 4 (InvertBitmap b 5 140 buf 6) 6
           140 2 buf) (2 + 99).
Proof.
  intros a b buf.
  apply (de_morgan a 3 b 5 140 buf 1 buf 4 buf 6 buf 2 99); lia.
Defined.

(** X11 (a view combined with itself, and XOR undone).  AND and OR of a
    view with itself give the view, XOR of a view with itself gives zero
    bits, and XOR-ing the same second view twice gives the first view
    back. *)
Theorem combinator_identities
    a a_offset b b_offset length tmp tmp_offset out out_offset i :
  0 <= a_offset -> 0 <= b_offset -> 0 <= tmp_offset -> 0 <= out_offset ->
  0 <= length -> 0 <= i < length ->
  bit (BitmapAnd a a_offset a a_offset length out_offset out) (out_offset + i)
  = bit a (a_offset + i) /\
  bit (BitmapOr a a_offset a a_offset length out_offset out) (out_offset + i)
  = bit a (a_offset + i) /\
  bit (BitmapXor a a_offset a a_offset length out_offset out) (out_offset + i) = false /\
  bit (BitmapXor (BitmapXor a a_offset b b_offset length tmp_offset tmp) tmp_offset
         b b_offset length out_offset out) (out_offset + i)
  = bit a (a_offset + i).
Proof.
  intros Ha Hb Ht Ho Hl Hi. unfold BitmapAnd, BitmapOr, BitmapXor.
  rewrite !BitmapOp_result by lia. unfold combined.
  rewrite !BitmapOp_result by lia. unfold combined. cbn [LogicalOp].
  repeat split.
  - apply andb_diag.
  - apply orb_diag.
  - apply xorb_nilpotent.
  - destruct (bit a (a_offset + i)), (bit b (b_offset + i)); reflexivity.
Qed.

Lemma combinator_identities_witness :
  let a := of_list (repeat 0xA5 20) in
  let b := of_list (repeat 0x3C 20) in
  let buf := of_list (repeat 0xFF 20) in
  bit (BitmapAnd a 3 a 3 140 2 buf) (2 + 99) = bit a (3 + 99) /\
  bit (BitmapOr a 3 a 3 140 2 buf) (2 + 99) = bit a (3 + 99) /\
  bit (BitmapXor a 3 a 3 140 2 buf) (2 + 99) = false /\
  bit (BitmapXor (BitmapXor a 3 b 5 140 1 buf) 1 b 5 140 2 buf) (2 + 99)
  = bit a (3 + 99).
Proof.
  intros a b buf. apply (combinator_identities a 3 b 5 140 buf 1 buf 2 99); lia.
Defined.

(** X12 (stitching combinator calls).  Combining the first [n] bits of two
    views and then, into the same destination, the next [m] bits, gives on
    the whole output range the bits of one call on [n + m] bits: the second
    call does not spoil what the first one wrote, on either path. *)
Theorem BitmapOp_stitch c left lo right ro n m oo out i :
  0 <= lo -> 0 <= ro -> 0 <= oo -> 0 <= n -> 0 <= m ->
  oo <= i < oo + (n + m) ->
  bit (BitmapOp c left (lo + n) right (ro + n) m (oo + n)
         (BitmapOp c left lo right ro n oo out)) i
  = bit (BitmapOp c left lo right ro (n + m) oo out) i.
Proof.
  intros Hlo Hro Hoo Hn Hm Hi.
  rewrite (BitmapOp_bits c left lo right ro out oo Hlo Hro Hoo (n + m)) by lia.
  rewrite in_range_true by lia.
  rewrite BitmapOp_bits by lia. unfold combined.
  replace (lo + n + (i - (oo + n))) with (lo + (i - oo)) by lia.
  replace (ro + n + (i - (oo + n))) with (ro + (i - oo)) by lia.
  destruct ((oo + n <=? i) && (i <? oo + n + m)) eqn:E; [reflexivity|].
  destruct (op_aligned (lo + n) (ro + n) (oo + n) && op_touched (lo + n) (oo + n) m i);
    [reflexivity|].
  rewrite BitmapOp_bits by lia.
  apply andb_false_iff in E.
  rewrite in_range_true; [reflexivity|].
  destruct E as [E|E]; [apply Z.leb_gt in E|apply Z.ltb_ge in E]; lia.
Qed.

Lemma BitmapOp_stitch_witness :
  let left := of_list (repeat 0xA5 20) in
  let right := of_list (repeat 0x3C 20) in
  let out := of_list (repeat 0xFF 20) in
  bit (BitmapOp And left (4 + 5) right (12 + 5) 100 (20 + 5)
         (BitmapOp And left 4 right 12 5 20 out)) 22
  = bit (BitmapOp And left 4 right 12 (5 + 100) 20 out) 22.
Proof.
  intros left right out. apply (BitmapOp_stitch And left 4 right 12 5 100 20 out 22); lia.
Defined.

(** X13 (stitching copies).  Copying the first [n] bits of a view and
    then, into the same destination, the next [m] bits, gives on the whole
    range the bits of one copy of [n + m] bits, with any choice of the
    restore flags; the same holds for inversions. *)
Theorem transfer_stitch data offset n m dest dest_offset (r1 r2 r : bool) i :
  0 <= offset -> 0 <= dest_offset -> 0 <= n -> 0 <= m ->
  dest_offset <= i < dest_offset + (n + m) ->
  bit (CopyBitmap data (offset + n) m
         (CopyBitmap data offset n dest dest_offset r1) (dest_offset + n) r2) i
  = bit (CopyBitmap data offset (n + m) dest dest_offset r) i /\
  bit (InvertBitmap data (offset + n) m
         (InvertBitmap data offset n dest dest_offset) (dest_offset + n)) i
  = bit (InvertBitmap data offset (n + m) dest dest_offset) i.
Proof.
  intros Ho Hd Hn Hm Hi. split.
  - rewrite (CopyBitmap_bits data offset (n + m)) by lia.
    rewrite in_range_true by lia.
    rewrite CopyBitmap_bits by lia.
    replace (offset + n + (i - (dest_offset + n))) with (offset + (i - dest_offset)) by lia.
    destruct ((dest_offset + n <=? i) && (i <? dest_offset + n + m)) eqn:E; [reflexivity|].
    destruct (byte_aligned (offset + n) (dest_offset + n) && negb r2
              && (dest_offset + n <=? i)
              && (i <? dest_offset + n + 8 * BitUtil.BytesForBits m)); [reflexivity|].
    rewrite CopyBitmap_bits by lia.
    apply andb_false_iff in E.
    rewrite in_range_true; [reflexivity|].
    destruct E as [E|E]; [apply Z.leb_gt in E|apply Z.ltb_ge in E]; lia.
  - rewrite (InvertBitmap_bits data offset (n + m)) by lia.
    rewrite in_range_true by lia.
    rewrite InvertBitmap_bits by lia.
    replace (offset + n + (i - (dest_offset + n))) with (offset + (i - dest_offset)) by lia.
    destruct ((dest_offset + n <=? i) && (i <? dest_offset + n + m)) eqn:E; [reflexivity|].
    rewrite InvertBitmap_bits by lia.
    apply andb_false_iff in E.
    rewrite in_range_true; [reflexivity|].
    destruct E as [E|E]; [apply Z.leb_gt in E|apply Z.ltb_ge in E]; lia.
Qed.

Lemma transfer_stitch_witness :
  let data := of_list (repeat 0xA5 20) in
  let dest := of_list (repeat 0x0F 20) in
  bit (CopyBitmap data (8 + 4) 100 (CopyBitmap data 8 4 dest 16 false) (16 + 4) false) 18
  = bit (CopyBitmap data 8 (4 + 100) dest 16 true) 18 /\
  bit (InvertBitmap data (8 + 4) 100 (InvertBitmap data 8 4 dest 16) (16 + 4)) 18
  = bit (InvertBitmap data 8 (4 + 100) dest 16) 18.
Proof.
  intros data dest.
  apply (transfer_stitch data 8 4 100 dest 16 false false true 18); lia.
Defined.

(** X14 (equality is transitive).  If a first view equals a second and the
    second equals a third, all of one length, the first equals the third. *)
Theorem BitmapEquals_trans a a_offset b b_offset c c_offset bit_length :
  0 <= a_offset -> 0 <= b_offset -> 0 <= c_offset -> 0 <= bit_length ->
  BitmapEquals a a_offset b b_offset bit_length = true ->
  BitmapEquals b b_offset c c_offset bit_length = true ->
  BitmapEquals a a_offset c c_offset bit_length = true.
Proof.
  intros Ha Hb Hc Hl Hab Hbc.
  apply BitmapEquals_iff; try lia. intros i Hi.
  rewrite (proj1 (BitmapEquals_iff a a_offset b b_offset bit_length Ha Hb Hl) Hab i Hi).
  apply (proj1 (BitmapEquals_iff b b_offset c c_offset bit_length Hb Hc Hl) Hbc i Hi).
Qed.

Lemma BitmapEquals_trans_witness :
  BitmapEquals (of_list (repeat 0xA5 20)) 8 (of_list (0x4B :: repeat 0x4B 20)) 1 140 = true.
Proof.
  apply (BitmapEquals_trans (of_list (repeat 0xA5 20)) 8
           (of_list (repeat 0x5A 20)) 4 (of_list (0x4B :: repeat 0x4B 20)) 1 140);
    try lia; vm_compute; reflexivity.
Defined.

(** X15 (equality of adjacent views).  Two views of [n + m] bits are equal
    exactly when their first [n] bits are and their last [m] bits are; so
    equal views have equal sub-views. *)
Theorem BitmapEquals_split left left_offset right right_offset n m :
  0 <= left_offset -> 0 <= right_offset -> 0 <= n -> 0 <= m ->
  BitmapEquals left left_offset right right_offset (n + m)
  = BitmapEquals left left_offset right right_offset n
    && BitmapEquals left (left_offset + n) right (right_offset + n) m.
Proof.
  intros Hlo Hro Hn Hm. apply eq_true_iff_eq.
  rewrite andb_true_iff, !BitmapEquals_iff by lia. split.
  - intros H. split; intros i Hi.
    + apply H. lia.
    + replace (left_offset + n + i) with (left_offset + (n + i)) by lia.
      replace (right_offset + n + i) with (right_offset + (n + i)) by lia.
      apply H. lia.
  - intros [H1 H2] i Hi. destruct (Z.lt_ge_cases i n) as [Hlt|Hge].
    + apply H1. lia.
    + replace (left_offset + i) with (left_offset + n + (i - n)) by lia.
      replace (right_offset + i) with (right_offset + n + (i - n)) by lia.
      apply H2. lia.
Qed.

Lemma BitmapEquals_split_witness :
  let left := of_list (repeat 0xA5 20) in
  let right := of_list (repeat 0x5A 20) in
  BitmapEquals left 8 right 4 (70 + 70)
  = BitmapEquals left 8 right 4 70 && BitmapEquals left (8 + 70) right (4 + 70) 70.
Proof.
  intros left right. apply (BitmapEquals_split left 8 right 4 70 70); lia.
Defined.

(** X16 (when the restore flag matters).  [CopyBitmap] gives the same bits
    everywhere with [restore_trailing_bits] set or not, unless the call is
    on the byte-wise path and the length is not a multiple of 8. *)
Theorem restore_flag_relevance data offset length dest dest_offset i :
  0 <= offset -> 0 <= dest_offset -> 0 <= length ->
  byte_aligned offset dest_offset = false \/ length mod 8 = 0 ->
  bit (CopyBitmap data offset length dest dest_offset true) i
  = bit (CopyBitmap data offset length dest dest_offset false) i.
Proof.
  intros Ho Hd Hl Hcase. rewrite !CopyBitmap_bits by lia.
  destruct ((dest_offset <=? i) && (i <? dest_offset + length)) eqn:E; [reflexivity|].
  cbn [negb]. rewrite andb_false_r, andb_true_r. cbn [andb].
  destruct Hcase as [Hc|Hc]; [rewrite Hc; reflexivity|].
  assert (Hnb : 8 * BitUtil.BytesForBits length = length).
  { rewrite BytesForBits_div by lia. Z.div_mod_to_equations. lia. }
  rewrite Hnb, <- andb_assoc, E, andb_false_r. reflexivity.
Qed.

Lemma restore_flag_relevance_witness :
  let data := of_list (repeat 0xA5 20) in
  let dest := of_list (repeat 0x0F 20) in
  bit (CopyBitmap data 8 104 dest 16 true) 121
  = bit (CopyBitmap data 8 104 dest 16 false) 121 /\
  bit (CopyBitmap data 3 100 dest 16 true) 117
  = bit (CopyBitmap data 3 100 dest 16 false) 117.
Proof.
  intros data dest. split.
  - apply (restore_flag_relevance data 8 104 dest 16 121); try lia. right. reflexivity.
  - apply (restore_flag_relevance data 3 100 dest 16 117); try lia. left. reflexivity.
Defined.

(** X17 (the byte-wise transfer moves whole bytes).  When both offsets are
    multiples of 8, [CopyBitmap] without restoring the trailing bits makes
    each of the [bytes_for_bits(length)] destination bytes equal to the
    source byte, the last one included; with either flag the [length / 8]
    full bytes equal the source bytes, and after [InvertBitmap] they equal
    the complemented source bytes. *)
Theorem aligned_transfer_whole_bytes data offset length dest dest_offset restore k :
  0 <= offset -> 0 <= dest_offset -> 0 <= length ->
  byte_aligned offset dest_offset = true ->
  (0 <= k < BitUtil.BytesForBits length ->
   u8 (CopyBitmap data offset length dest dest_offset false (dest_offset / 8 + k))
   = u8 (data (offset / 8 + k))) /\
  (0 <= k < length / 8 ->
   u8 (CopyBitmap data offset length dest dest_offset restore (dest_offset / 8 + k))
   = u8 (data (offset / 8 + k)) /\
   u8 (InvertBitmap data offset length dest dest_offset (dest_offset / 8 + k))
   = u8 (Z.lnot (data (offset / 8 + k)))).
Proof.
  intros Ho Hd Hl Hal.
  pose proof Hal as Hal'. unfold byte_aligned in Hal'.
  apply andb_true_iff in Hal'. destruct Hal' as [H1 H2].
  apply Z.eqb_eq in H1. apply Z.eqb_eq in H2.
  assert (Eo : offset = 8 * (offset / 8)) by (Z.div_mod_to_equations; lia).
  assert (Ed : dest_offset = 8 * (dest_offset / 8)) by (Z.div_mod_to_equations; lia).
  assert (Hnb : length <= 8 * BitUtil.BytesForBits length).
  { rewrite BytesForBits_div by lia. Z.div_mod_to_equations. lia. }
  assert (Hfull : 8 * (length / 8) <= length) by (Z.div_mod_to_equations; lia).
  split; [intros Hk|intros Hk; split].
  - apply bytes_eq_bits. intros j Hj. rewrite CopyBitmap_bits by lia.
    rewrite Hal. cbn [negb andb].
    replace (offset + (8 * (dest_offset / 8 + k) + j - dest_offset))
      with (8 * (offset / 8 + k) + j) by lia.
    rewrite (in_range_true dest_offset (8 * BitUtil.BytesForBits length)) by lia.
    destruct ((dest_offset <=? 8 * (dest_offset / 8 + k) + j)
              && (8 * (dest_offset / 8 + k) + j <? dest_offset + length)); reflexivity.
  - apply bytes_eq_bits. intros j Hj. rewrite CopyBitmap_bits by lia.
    rewrite in_range_true by lia. f_equal. lia.
  - apply u8_eq_bits. intros j Hj. rewrite Z.lnot_spec by lia.
    rewrite !byte_testbit by lia. rewrite InvertBitmap_bits by lia.
    rewrite in_range_true by lia. do 2 f_equal. lia.
Qed.

Lemma aligned_transfer_whole_bytes_witness :
  let data := of_list (repeat 0xA5 20) in
  let dest := of_list (repeat 0x0F 20) in
  u8 (CopyBitmap data 8 100 dest 16 false (16 / 8 + 12)) = u8 (data (8 / 8 + 12)) /\
  u8 (CopyBitmap data 8 100 dest 16 true (16 / 8 + 11)) = u8 (data (8 / 8 + 11)) /\
  u8 (InvertBitmap data 8 100 dest 16 (16 / 8 + 11)) = u8 (Z.lnot (data (8 / 8 + 11))).
Proof.
  intros data dest.
  destruct (aligned_transfer_whole_bytes data 8 100 dest 16 false 12) as [Hlast _];
    try lia; try reflexivity.
  destruct (aligned_transfer_whole_bytes data 8 100 dest 16 true 11) as [_ Hfull];
    try lia; try reflexivity.
  split; [apply Hlast|apply Hfull]; (vm_compute; split; [discriminate|reflexivity]).
Defined.

(** X18 (the byte-wise combinator path writes whole bytes).  When the
    three offsets have the same remainder modulo 8, a combinator makes each
    of the [bytes_for_bits(length + left_offset % 8)] output bytes, from the
    byte of [out_offset] on, the combination of the whole input bytes: the
    bits before [out_offset] in the first byte and after the range in the
    last byte are overwritten too. *)
Theorem aligned_op_whole_bytes c left left_offset right right_offset length out_offset out k :
  0 <= left_offset -> 0 <= right_offset -> 0 <= out_offset -> 0 <= length ->
  op_aligned left_offset right_offset out_offset = true ->
  0 <= k < BitUtil.BytesForBits (length + left_offset mod 8) ->
  u8 (BitmapOp c left left_offset right right_offset length out_offset out
        (out_offset / 8 + k))
  = u8 (BitOp c (left (left_offset / 8 + k)) (right (right_offset / 8 + k))).
Proof.
  intros Hlo Hro Hoo Hl Hal Hk.
  pose proof Hal as Hal'. unfold op_aligned in Hal'.
  apply andb_true_iff in Hal'. destruct Hal' as [H1 H2].
  apply Z.eqb_eq in H1. apply Z.eqb_eq in H2.
  assert (El : left_offset = 8 * (left_offset / 8) + left_offset mod 8)
    by (apply Z.div_mod; lia).
  assert (Er : right_offset = 8 * (right_offset / 8) + right_offset mod 8)
    by (apply Z.div_mod; lia).
  assert (Eo : out_offset = 8 * (out_offset / 8) + out_offset mod 8)
    by (apply Z.div_mod; lia).
  apply u8_eq_bits. intros j Hj.
  rewrite BitOp_bits, !byte_testbit by lia.
  rewrite BitmapOp_bits by lia. rewrite Hal. cbn [andb]. unfold op_touched.
  rewrite (in_range_true (8 * (out_offset / 8))
             (8 * BitUtil.BytesForBits (length + left_offset mod 8))) by lia.
  unfold combined.
  replace (left_offset + (8 * (out_offset / 8 + k) + j - out_offset))
    with (8 * (left_offset / 8 + k) + j) by lia.
  replace (right_offset + (8 * (out_offset / 8 + k) + j - out_offset))
    with (8 * (right_offset / 8 + k) + j) by lia.
  destruct ((out_offset <=? 8 * (out_offset / 8 + k) + j)
            && (8 * (out_offset / 8 + k) + j <? out_offset + length)); reflexivity.
Qed.

Lemma aligned_op_whole_bytes_witness :
  let left := of_list (repeat 0xA5 20) in
  let right := of_list (repeat 0x3C 20) in
  let out := of_list (repeat 0xFF 20) in
  u8 (BitmapOp Xor left 11 right 19 100 3 out (3 / 8 + 12))
  = u8 (BitOp Xor (left (11 / 8 + 12)) (right (19 / 8 + 12))).
Proof.
  intros left right out.
  apply (aligned_op_whole_bytes Xor left 11 right 19 100 3 out 12); try lia;
    try reflexivity. vm_compute. split; [discriminate|reflexivity].
Defined.

(** X19 (combinators on empty views).  With [length = 0] a combinator
    returns the destination untouched on the general path, and on the
    byte-wise path when the offsets are multiples of 8; on the byte-wise
    path with another remainder it overwrites the byte of [out_offset] with
    the combination of the input bytes. *)
Theorem zero_length_combinator c left left_offset right right_offset out_offset out :
  0 <= left_offset -> 0 <= right_offset -> 0 <= out_offset ->
  (op_aligned left_offset right_offset out_offset = false \/ out_offset mod 8 = 0 ->
   BitmapOp c left left_offset right right_offset 0 out_offset out = out) /\
  (op_aligned left_offset right_offset out_offset = true -> out_offset mod 8 <> 0 ->
   BitmapOp c left left_offset right right_offset 0 out_offset out
   = store out (out_offset / 8)
       (u8 (BitOp c (u8 (left (left_offset / 8))) (u8 (right (right_offset / 8)))))).
Proof.
  intros Hlo Hro Hoo.
  assert (Ml : 0 <= left_offset mod 8 < 8) by (apply Z.mod_pos_bound; lia).
  assert (Mr : 0 <= right_offset mod 8 < 8) by (apply Z.mod_pos_bound; lia).
  assert (Mo : 0 <= out_offset mod 8 < 8) by (apply Z.mod_pos_bound; lia).
  unfold op_aligned, BitmapOp. rewrite !rem_mod8 by lia.
  assert (Hsmall : forall r, 0 <= r < 8 -> (0 + r + 7) ÷ 8 = if r =? 0 then 0 else 1).
  { intros r Hr. rewrite Z.quot_div_nonneg by lia.
    destruct (Z.eqb_spec r 0); Z.div_mod_to_equations; lia. }
  split.
  - intros Hcase.
    destruct ((out_offset mod 8 =? left_offset mod 8)
              && (out_offset mod 8 =? right_offset mod 8)) eqn:Hpath.
    + destruct Hcase as [Hc|Hc]; [discriminate|].
      apply andb_true_iff in Hpath. destruct Hpath as [H1 _]. apply Z.eqb_eq in H1.
      unfold AlignedBitmapOp. cbv zeta. rewrite rem_mod8 by lia.
      unfold BitUtil.BytesForBits. rewrite Hsmall by lia.
      rewrite <- H1, Hc. reflexivity.
    + unfold UnalignedBitmapOp. cbv zeta. rewrite !rem_mod8 by lia.
      unfold BitUtil.BytesForBits.
      rewrite Hsmall by lia.
      set (mo := Z.min (Z.min (left_offset mod 8) (right_offset mod 8)) (out_offset mod 8)).
      replace (1 <? (if mo =? 0 then 0 else 1) ÷ 8) with false
        by (destruct (mo =? 0); reflexivity).
      reflexivity.
  - intros Hal Hne. rewrite Hal.
    apply andb_true_iff in Hal. destruct Hal as [H1 _]. apply Z.eqb_eq in H1.
    unfold AlignedBitmapOp. cbv zeta. rewrite rem_mod8, !quot_div8 by lia.
    unfold BitUtil.BytesForBits. rewrite Hsmall by lia.
    rewrite <- H1. destruct (Z.eqb_spec (out_offset mod 8) 0) as [E|_]; [contradiction|].
    change (Z.to_nat 1) with 1%nat. cbn [for_range].
    rewrite !Z.add_0_r. reflexivity.
Qed.

Lemma zero_length_combinator_witness :
  let left := of_list (repeat 0xA5 20) in
  let right := of_list (repeat 0x3C 20) in
  let out := of_list (repeat 0xFF 20) in
  BitmapOp Xor left 11 right 20 0 3 out = out /\
  BitmapOp Xor left 16 right 24 0 8 out = out /\
  BitmapOp Xor left 11 right 19 0 3 out
  = store out (3 / 8) (u8 (BitOp Xor (u8 (left (11 / 8))) (u8 (right (19 / 8))))).
Proof.
  intros left right out. split; [|split].
  - apply (zero_length_combinator Xor left 11 right 20 3 out); try lia.
    left. reflexivity.
  - apply (zero_length_combinator Xor left 16 right 24 8 out); try lia.
    right. reflexivity.
  - apply (zero_length_combinator Xor left 11 right 19 3 out); try lia;
      [reflexivity|vm_compute; discriminate].
Defined.

(** X20 (the padding of an allocated result is not counted).  Counting
    the set bits of the whole buffer the allocating [CopyBitmap] returns,
    padding included, gives the count of the source view; for the
    allocating [InvertBitmap] it gives the length less that count: the
    padding is zero, not inverted. *)
Theorem allocated_count pool addr_src addr_dest data offset length copied inverted :
  0 <= offset -> 0 <= length ->
  CopyBitmap_pool pool data offset length = Some copied ->
  InvertBitmap_pool pool data offset length = Some inverted ->
  CountSetBits addr_dest (mutable_data copied) 0 (8 * size copied)
  = CountSetBits addr_src data offset length /\
  CountSetBits addr_dest (mutable_data inverted) 0 (8 * size inverted)
  = length - CountSetBits addr_src data offset length.
Proof.
  intros Ho Hl Hc Hi.
  rewrite (TransferBitmap_pool_count false pool addr_dest data offset length copied Ho Hl Hc).
  rewrite (TransferBitmap_pool_count true pool addr_dest data offset length inverted Ho Hl Hi).
  rewrite (CountSetBits_view addr_src data offset length (fun k => bit data (offset + k)))
    by (try lia; reflexivity).
  cbn [xorb]. split; [reflexivity|].
  rewrite (count_pred_negb (fun k => bit data (offset + k))). lia.
Qed.

Lemma allocated_count_witness :
  let data := of_list (repeat 0xA5 20) in
  let copied :=
    mkBuffer 13
      (for_range (Z.to_nat (100 + (BitUtil.BytesForBits 100 * 8 - 100) - 100)) 100
         (fun i d => BitUtil.ClearBit d 0 i)
         (TransferBitmap false false data 3 100 0 (fun _ => 0))) in
  let inverted :=
    mkBuffer 13
      (for_range (Z.to_nat (100 + (BitUtil.BytesForBits 100 * 8 - 100) - 100)) 100
         (fun i d => BitUtil.ClearBit d 0 i)
         (TransferBitmap true false data 3 100 0 (fun _ => 0))) in
  CountSetBits 4099 (mutable_data copied) 0 (8 * size copied)
  = CountSetBits 8192 data 3 100 /\
  CountSetBits 4099 (mutable_data inverted) 0 (8 * size inverted)
  = 100 - CountSetBits 8192 data 3 100.
Proof.
  intros data copied inverted.
  assert (Hc : CopyBitmap_pool default_memory_pool data 3 100 = Some copied)
    by reflexivity.
  assert (Hi : InvertBitmap_pool default_memory_pool data 3 100 = Some inverted)
    by reflexivity.
  apply (allocated_count default_memory_pool 8192 4099 data 3 100 copied inverted);
    [lia|lia|exact Hc|exact Hi].
Defined.

(** X21 (inverting twice, with allocation).  Inverting a view into a
    fresh buffer and inverting that result again gives, byte for byte, the
    buffer the allocating [CopyBitmap] returns for the view. *)
Theorem allocated_invert_twice pool data offset length inverted :
  0 <= offset -> 0 <= length ->
  InvertBitmap_pool pool data offset length = Some inverted ->
  contents (InvertBitmap_pool pool (mutable_data inverted) 0 length)
  = contents (CopyBitmap_pool pool data offset length) /\
  contents (CopyBitmap_pool pool data offset length) <> None.
Proof.
  intros Ho Hl Hb.
  pose proof (TransferBitmap_pool_serves _ _ _ _ _ _ Hb) as Hserves.
  destruct (TransferBitmap_pool_some _ _ _ _ _ _ Ho Hl Hb) as [_ Hbits].
  unfold InvertBitmap_pool, CopyBitmap_pool.
  destruct (TransferBitmap_pool_returns true pool (mutable_data inverted) 0 length Hserves)
    as [r1 Hr1].
  destruct (TransferBitmap_pool_returns false pool data offset length Hserves)
    as [r2 Hr2].
  destruct (TransferBitmap_pool_some _ _ _ _ _ _ (Z.le_refl 0) Hl Hr1) as [Hs1 Hb1].
  destruct (TransferBitmap_pool_some _ _ _ _ _ _ Ho Hl Hr2) as [Hs2 Hb2].
  rewrite Hr1, Hr2. unfold contents. cbn [option_map]. split; [|discriminate].
  rewrite Hs1, Hs2. f_equal. apply to_list_eq. intros q Hq. apply bytes_eq_bits.
  intros j Hj. rewrite Hb1, Hb2, Hbits, Z.add_0_l.
  destruct ((0 <=? 8 * q + j) && (8 * q + j <? length)); [|reflexivity].
  cbn [xorb]. apply negb_involutive.
Qed.

Lemma allocated_invert_twice_witness :
  let data := of_list (repeat 0xA5 20) in
  let inverted :=
    mkBuffer 13
      (for_range (Z.to_nat (100 + (BitUtil.BytesForBits 100 * 8 - 100) - 100)) 100
         (fun i d => BitUtil.ClearBit d 0 i)
         (TransferBitmap true false data 3 100 0 (fun _ => 0))) in
  contents (InvertBitmap_pool default_memory_pool (mutable_data inverted) 0 100)
  = contents (CopyBitmap_pool default_memory_pool data 3 100) /\
  contents (CopyBitmap_pool default_memory_pool data 3 100) <> None.
Proof.
  intros data inverted.
  assert (Hi : InvertBitmap_pool default_memory_pool data 3 100 = Some inverted)
    by reflexivity.
  apply (allocated_invert_twice default_memory_pool data 3 100 inverted);
    [lia|lia|exact Hi].
Defined.

(** X22 (allocated results are canonical).  From a pool that serves the
    request, the allocating [CopyBitmap] returns the same bytes for two
    views exactly when [BitmapEquals] holds of the views, whatever their
    offsets and the bits around them; and so does the allocating
    [InvertBitmap]. *)
Theorem canonical_copy pool a a_offset b b_offset length :
  0 <= a_offset -> 0 <= b_offset -> 0 <= length ->
  serves pool (BitUtil.BytesForBits length) = true ->
  (BitmapEquals a a_offset b b_offset length = true <->
   contents (CopyBitmap_pool pool a a_offset length)
   = contents (CopyBitmap_pool pool b b_offset length)) /\
  (BitmapEquals a a_offset b b_offset length = true <->
   contents (InvertBitmap_pool pool a a_offset length)
   = contents (InvertBitmap_pool pool b b_offset length)).
Proof.
  intros Ha Hb Hl Hserves.
  split; apply TransferBitmap_pool_canonical; assumption.
Qed.

Lemma canonical_copy_witness :
  let a := of_list (repeat 0xA5 20) in
  let b := of_list (repeat 0x5A 20) in
  (BitmapEquals a 8 b 4 100 = true <->
   contents (CopyBitmap_pool default_memory_pool a 8 100)
   = contents (CopyBitmap_pool default_memory_pool b 4 100)) /\
  (BitmapEquals a 8 b 4 100 = true <->
   contents (InvertBitmap_pool default_memory_pool a 8 100)
   = contents (InvertBitmap_pool default_memory_pool b 4 100)).
Proof.
  intros a b. apply (canonical_copy default_memory_pool a 8 b 4 100); try lia.
  reflexivity.
Defined.

(** X23 (the two combinator kernels agree).  For offsets with one
    remainder modulo 8 the byte-wise kernel and the general kernel leave
    the same bits on the output range, and both leave the destination's
    bits outside the bytes of the range. *)
Theorem kernels_agree c left left_offset right right_offset out out_offset length i :
  0 <= left_offset -> 0 <= right_offset -> 0 <= out_offset -> 0 <= length ->
  op_aligned left_offset right_offset out_offset = true ->
  (out_offset <= i < out_offset + length ->
   bit (AlignedBitmapOp c left left_offset right right_offset out out_offset length) i
   = bit (UnalignedBitmapOp c left left_offset right right_offset out out_offset length) i) /\
  (i < 8 * (out_offset / 8) \/ 8 * BitUtil.BytesForBits (out_offset + length) <= i ->
   bit (AlignedBitmapOp c left left_offset right right_offset out out_offset length) i
   = bit out i /\
   bit (UnalignedBitmapOp c left left_offset right right_offset out out_offset length) i
   = bit out i).
Proof.
  intros Hlo Hro Hoo Hl Hal.
  unfold op_aligned in Hal. apply andb_true_iff in Hal. destruct Hal as [H1 H2].
  apply Z.eqb_eq in H1. apply Z.eqb_eq in H2.
  assert (Ml : 0 <= left_offset mod 8 < 8) by (apply Z.mod_pos_bound; lia).
  assert (El : left_offset = 8 * (left_offset / 8) + left_offset mod 8)
    by (apply Z.div_mod; lia).
  assert (Er : right_offset = 8 * (right_offset / 8) + right_offset mod 8)
    by (apply Z.div_mod; lia).
  assert (Eo : out_offset = 8 * (out_offset / 8) + out_offset mod 8)
    by (apply Z.div_mod; lia).
  assert (Hnb : 8 * (out_offset / 8) + 8 * BitUtil.BytesForBits (length + left_offset mod 8)
                = 8 * BitUtil.BytesForBits (out_offset + length)).
  { rewrite !BytesForBits_div by lia. rewrite <- H1. Z.div_mod_to_equations. lia. }
  assert (Hup : out_offset + length <= 8 * BitUtil.BytesForBits (out_offset + length)).
  { rewrite BytesForBits_div by lia. Z.div_mod_to_equations. lia. }
  rewrite AlignedBitmapOp_bits, UnalignedBitmapOp_bits by lia. rewrite Hnb.
  split.
  - intros Hi. rewrite in_range_true by lia.
    replace ((8 * (out_offset / 8) <=? i)
             && (i <? 8 * BitUtil.BytesForBits (out_offset + length))) with true
      by (symmetry; apply andb_true_iff; split; [apply Z.leb_le|apply Z.ltb_lt]; lia).
    unfold combined. f_equal; f_equal; lia.
  - intros Hi. rewrite in_range_false by lia.
    replace ((8 * (out_offset / 8) <=? i)
             && (i <? 8 * BitUtil.BytesForBits (out_offset + length))) with false
      by (symmetry; apply andb_false_iff;
          destruct Hi; [left; apply Z.leb_gt|right; apply Z.ltb_ge]; lia).
    split; reflexivity.
Qed.

Lemma kernels_agree_witness :
  let left := of_list (repeat 0xA5 20) in
  let right := of_list (repeat 0x3C 20) in
  let out := of_list (repeat 0xFF 20) in
  bit (AlignedBitmapOp Xor left 11 right 19 out 3 100) 77
  = bit (UnalignedBitmapOp Xor left 11 right 19 out 3 100) 77 /\
  bit (AlignedBitmapOp Xor left 11 right 19 out 3 100) 111 = bit out 111 /\
  bit (UnalignedBitmapOp Xor left 11 right 19 out 3 100) 111 = bit out 111.
Proof.
  intros left right out.
  destruct (kernels_agree Xor left 11 right 19 out 3 100 77) as [Hin _];
    try lia; try reflexivity.
  destruct (kernels_agree Xor left 11 right 19 out 3 100 111) as [_ Hout];
    try lia; try reflexivity.
  split; [apply Hin; lia|apply Hout; right; vm_compute; discriminate].
Defined.

(** X24 (the counts are monotone).  Over the same two views the AND has
    at most as many set bits as either input, and the OR at least as many
    as either input. *)
Theorem count_monotone addr left lo right ro length oo out_and out_or :
  0 <= lo -> 0 <= ro -> 0 <= oo -> 0 <= length ->
  CountSetBits addr (BitmapAnd left lo right ro length oo out_and) oo length
  <= Z.min (CountSetBits addr left lo length) (CountSetBits addr right ro length) /\
  Z.max (CountSetBits addr left lo length) (CountSetBits addr right ro length)
  <= CountSetBits addr (BitmapOr left lo right ro length oo out_or) oo length.
Proof.
  intros Hlo Hro Hoo Hl. unfold BitmapAnd, BitmapOr.
  rewrite !CountSetBits_combined by lia. cbn [LogicalOp].
  rewrite (CountSetBits_view addr left lo length (fun k => bit left (lo + k)))
    by (try lia; reflexivity).
  rewrite (CountSetBits_view addr right ro length (fun k => bit right (ro + k)))
    by (try lia; reflexivity).
  assert (H1 : count_pred (fun k => bit left (lo + k) && bit right (ro + k)) 0
                 (Z.to_nat length)
               <= count_pred (fun k => bit left (lo + k)) 0 (Z.to_nat length)).
  { apply count_pred_le. intros k _ H. apply andb_true_iff in H. tauto. }
  assert (H2 : count_pred (fun k => bit left (lo + k) && bit right (ro + k)) 0
                 (Z.to_nat length)
               <= count_pred (fun k => bit right (ro + k)) 0 (Z.to_nat length)).
  { apply count_pred_le. intros k _ H. apply andb_true_iff in H. tauto. }
  assert (H3 : count_pred (fun k => bit left (lo + k)) 0 (Z.to_nat length)
               <= count_pred (fun k => bit left (lo + k) || bit right (ro + k)) 0
                    (Z.to_nat length)).
  { apply count_pred_le. intros k _ H. apply orb_true_iff. tauto. }
  assert (H4 : count_pred (fun k => bit right (ro + k)) 0 (Z.to_nat length)
               <= count_pred (fun k => bit left (lo + k) || bit right (ro + k)) 0
                    (Z.to_nat length)).
  { apply count_pred_le. intros k _ H. apply orb_true_iff. tauto. }
  lia.
Qed.

Lemma count_monotone_witness :
  let left := of_list (repeat 0xA5 20) in
  let right := of_list (repeat 0x3C 20) in
  let out := of_list (repeat 0x00 20) in
  CountSetBits 7 (BitmapAnd left 3 right 5 140 1 out) 1 140
  <= Z.min (CountSetBits 7 left 3 140) (CountSetBits 7 right 5 140) /\
  Z.max (CountSetBits 7 left 3 140) (CountSetBits 7 right 5 140)
  <= CountSetBits 7 (BitmapOr left 3 right 5 140 1 out) 1 140.
Proof.
  intros left right out.
  apply (count_monotone 7 left 3 right 5 140 1 out out); lia.
Defined.

(** X25 (combining with an empty or a full view).  When no bit of the
    right view is set, OR and XOR give the bits [CopyBitmap] gives for the
    left view, and AND gives zero bits; when every bit of the right view is
    set, AND gives the bits of [CopyBitmap], XOR those of [InvertBitmap],
    and OR gives one bits. *)
Theorem combine_with_constant
    addr left left_offset right right_offset length out_offset out restore k :
  0 <= left_offset -> 0 <= right_offset -> 0 <= out_offset -> 0 <= length ->
  0 <= k < length ->
  (CountSetBits addr right right_offset length = 0 ->
   bit (BitmapOr left left_offset right right_offset length out_offset out) (out_offset + k)
   = bit (CopyBitmap left left_offset length out out_offset restore) (out_offset + k) /\
   bit (BitmapXor left left_offset right right_offset length out_offset out) (out_offset + k)
   = bit (CopyBitmap left left_offset length out out_offset restore) (out_offset + k) /\
   bit (BitmapAnd left left_offset right right_offset length out_offset out) (out_offset + k)
   = false) /\
  (CountSetBits addr right right_offset length = length ->
   bit (BitmapAnd left left_offset right right_offset length out_offset out) (out_offset + k)
   = bit (CopyBitmap left left_offset length out out_offset restore) (out_offset + k) /\
   bit (BitmapXor left left_offset right right_offset length out_offset out) (out_offset + k)
   = bit (InvertBitmap left left_offset length out out_offset) (out_offset + k) /\
   bit (BitmapOr left left_offset right right_offset length out_offset out) (out_offset + k)
   = true).
Proof.
  intros Hlo Hro Hoo Hl Hk. unfold BitmapAnd, BitmapOr, BitmapXor.
  rewrite !BitmapOp_result, CopyBitmap_result, InvertBitmap_result by lia.
  unfold combined. cbn [LogicalOp].
  rewrite CountSetBits_count by lia. split; intros Hc.
  - rewrite (count_pred_none _ _ _ Hc k) by lia.
    rewrite orb_false_r, xorb_false_r, andb_false_r. repeat split.
  - replace length with (Z.of_nat (Z.to_nat length)) in Hc at 2 by lia.
    rewrite (count_pred_all _ _ _ Hc k) by lia.
    rewrite orb_true_r, xorb_true_r, andb_true_r. repeat split.
Qed.

Lemma combine_with_constant_witness :
  let left := of_list (repeat 0xA5 20) in
  let zeros := of_list (repeat 0x00 20) in
  let ones := of_list (repeat 0xFF 20) in
  let out := of_list (repeat 0x0F 20) in
  (bit (BitmapOr left 3 zeros 5 140 1 out) (1 + 99)
   = bit (CopyBitmap left 3 140 out 1 false) (1 + 99) /\
   bit (BitmapXor left 3 zeros 5 140 1 out) (1 + 99)
   = bit (CopyBitmap left 3 140 out 1 false) (1 + 99) /\
   bit (BitmapAnd left 3 zeros 5 140 1 out) (1 + 99) = false) /\
  (bit (BitmapAnd left 3 ones 5 140 1 out) (1 + 99)
   = bit (CopyBitmap left 3 140 out 1 false) (1 + 99) /\
   bit (BitmapXor left 3 ones 5 140 1 out) (1 + 99)
   = bit (InvertBitmap left 3 140 out 1) (1 + 99) /\
   bit (BitmapOr left 3 ones 5 140 1 out) (1 + 99) = true).
Proof.
  intros left zeros ones out.
  destruct (combine_with_constant 64 left 3 zeros 5 140 1 out false 99) as [Hzero _];
    try lia.
  destruct (combine_with_constant 64 left 3 ones 5 140 1 out false 99) as [_ Hone];
    try lia.
  split; [apply Hzero|apply Hone]; vm_compute; reflexivity.
Defined.

(** X26 (no write outside the destination's bytes).  The in-place
    [CopyBitmap], [InvertBitmap] and combinators leave every destination
    byte before the byte of the output offset, and every byte from
    [bytes_for_bits(out_offset + length)] on, as it was, on every path. *)
Theorem writes_within_bounds
    c left left_offset right right_offset length out_offset dest restore q :
  0 <= left_offset -> 0 <= right_offset -> 0 <= out_offset -> 0 <= length ->
  q < out_offset / 8 \/ BitUtil.BytesForBits (out_offset + length) <= q ->
  u8 (CopyBitmap left left_offset length dest out_offset restore q) = u8 (dest q) /\
  u8 (InvertBitmap left left_offset length dest out_offset q) = u8 (dest q) /\
  u8 (BitmapOp c left left_offset right right_offset length out_offset dest q)
  = u8 (dest q).
Proof.
  intros Hlo Hro Hoo Hl Hq.
  assert (Ml : 0 <= left_offset mod 8 < 8) by (apply Z.mod_pos_bound; lia).
  assert (Mo : 0 <= out_offset mod 8 < 8) by (apply Z.mod_pos_bound; lia).
  assert (Eo : out_offset = 8 * (out_offset / 8) + out_offset mod 8)
    by (apply Z.div_mod; lia).
  assert (Hup : out_offset + length <= 8 * BitUtil.BytesForBits (out_offset + length)).
  { rewrite BytesForBits_div by lia. Z.div_mod_to_equations. lia. }
  assert (Hout : forall j, 0 <= j < 8 ->
            ~ (out_offset <= 8 * q + j < out_offset + length)) by (intros j Hj; lia).
  split; [|split]; apply bytes_eq_bits; intros j Hj.
  - rewrite CopyBitmap_bits by lia. rewrite in_range_false by (apply Hout; lia).
    destruct (byte_aligned left_offset out_offset) eqn:Hal; [|reflexivity].
    unfold byte_aligned in Hal. apply andb_true_iff in Hal. destruct Hal as [_ H2].
    apply Z.eqb_eq in H2.
    assert (Hnb : out_offset + 8 * BitUtil.BytesForBits length
                  = 8 * BitUtil.BytesForBits (out_offset + length)).
    { rewrite !BytesForBits_div by lia. Z.div_mod_to_equations. lia. }
    rewrite Hnb, <- !andb_assoc.
    replace ((out_offset <=? 8 * q + j)
             && (8 * q + j <? 8 * BitUtil.BytesForBits (out_offset + length))) with false
      by (symmetry; apply andb_false_iff;
          destruct Hq; [left; apply Z.leb_gt|right; apply Z.ltb_ge]; lia).
    rewrite !andb_false_r. reflexivity.
  - rewrite InvertBitmap_bits by lia. rewrite in_range_false by (apply Hout; lia).
    reflexivity.
  - rewrite BitmapOp_bits by lia. rewrite in_range_false by (apply Hout; lia).
    destruct (op_aligned left_offset right_offset out_offset) eqn:Hal; [|reflexivity].
    unfold op_aligned in Hal. apply andb_true_iff in Hal. destruct Hal as [H1 _].
    apply Z.eqb_eq in H1. cbn [andb]. unfold op_touched.
    assert (Hnb : 8 * (out_offset / 8)
                  + 8 * BitUtil.BytesForBits (length + left_offset mod 8)
                  = 8 * BitUtil.BytesForBits (out_offset + length)).
    { rewrite !BytesForBits_div by lia. rewrite <- H1. Z.div_mod_to_equations. lia. }
    rewrite Hnb.
    replace ((8 * (out_offset / 8) <=? 8 * q + j)
             && (8 * q + j <? 8 * BitUtil.BytesForBits (out_offset + length))) with false
      by (symmetry; apply andb_false_iff;
          destruct Hq; [left; apply Z.leb_gt|right; apply Z.ltb_ge]; lia).
    reflexivity.
Qed.

Lemma writes_within_bounds_witness :
  let left := of_list (repeat 0xA5 20) in
  let right := of_list (repeat 0x3C 20) in
  let dest := of_list (repeat 0x0F 20) in
  u8 (CopyBitmap left 8 100 dest 16 false 15) = u8 (dest 15) /\
  u8 (InvertBitmap left 8 100 dest 16 15) = u8 (dest 15) /\
  u8 (BitmapOp And left 8 right 24 100 16 dest 15) = u8 (dest 15).
Proof.
  intros left right dest.
  apply (writes_within_bounds And left 8 right 24 100 16 dest false 15); try lia.
  right. vm_compute. discriminate.
Defined.
